(** * Beat-Kanji beatmap editor: editing core

    A shallow embedding of the editing core of the beatmap editor
    (scripts/beatmap-editor): the note/beatmap data model
    (core/beatmap.py), the command history (core/history.py), the beat
    grid (utils/grid.py), the peak detector (utils/peaks.py), the
    duplicate clean-up of the application (ui/app.py) and the pattern
    editor's apply actions (ui/pattern_editor.py).

    Modelling conventions.
    - A Python [float] is modelled by an exact rational in canonical form
      ([Qc]): every finite float is such a rational, comparisons of finite
      floats are exact, [-0.0 == 0.0] holds in both worlds, and Leibniz
      equality on [Qc] is Python's [==].  Arithmetic is exact (no rounding
      of results, no NaN, no infinities).
    - Python objects that are mutated in place and shared between the
      beatmap and the commands (the [Note] instances) live in a heap and
      are designated by references.
    - Python lists are Rocq lists in the same order ([append] adds at the
      end, [pop()] takes from the end, [pop(0)] from the front). *)

From Stdlib Require Import QArith Qcanon Qround ZArith Lia Lqa Ascii String.
From stdpp Require Import base decidable option list numbers strings pretty sorting gmap.

Open Scope Z_scope.
Open Scope Qc_scope.

(** ** Numbers *)

(** Python's [round] on an exact value: to the nearest integer, ties to the
    even one. *)
Definition round_half_even (q : Q) : Z :=
  let f := Qfloor q in
  match Qcompare (q - inject_Z f) (1 # 2) with
  | Lt => f
  | Gt => (f + 1)%Z
  | Eq => if Z.even f then f else (f + 1)%Z
  end.

(** [round(x, ndigits)]: the decimal with [ndigits] fractional digits nearest
    to [x]. *)
Definition py_round (x : Qc) (ndigits : nat) : Qc :=
  let scale := inject_Z (10 ^ Z.of_nat ndigits) in
  Q2Qc (inject_Z (round_half_even (this x * scale)) / scale).

(** [int(x)]: truncation toward zero. *)
Definition py_int (x : Qc) : Z :=
  if bool_decide (0 ≤ x) then Qfloor (this x) else Qceiling (this x).

Definition Qc_abs (x : Qc) : Qc := if bool_decide (0 ≤ x) then x else - x.

(** ** core/constants.py *)

Definition LANES : list string := ["base"; "drum"; "bass"; "vocal"; "lead"]%string.

Definition MAX_HISTORY_SIZE : Z := 100.

Definition DEFAULT_REARM_RATIO : Qc := Q2Qc (7 # 10).

Definition MIN_PEAK_GAP_SECONDS : Qc := Q2Qc (5 # 100).

(** ** core/beatmap.py: Note *)

Definition BEATMAP_VERSION : string := "1.1".

Definition NOTE_TYPES : list string := LANES.

Record Note := mkNote {
  time : Qc;
  level : Z;
  type : string;
  selected : bool
}.

(** The dataclass constructor with [__post_init__]: [None] stands for the
    [ValueError] raised on a level outside (1, 2, 3) or an unknown type. *)
Definition Note_new (t : Qc) (lv : Z) (ty : string) : option Note :=
  if negb (bool_decide (lv ∈ [1; 2; 3]%Z)) then None
  else if negb (bool_decide (ty ∈ NOTE_TYPES)) then None
  else Some (mkNote t lv ty false).

(** The generated [__eq__] compares the tuples of the fields declared with
    [compare=True]: [selected] is left out. *)
Definition note_key (n : Note) : Qc * Z * string := (time n, level n, type n).

Definition note_eqb (a b : Note) : bool := bool_decide (note_key a = note_key b).

Record NoteDict := mkNoteDict {
  d_time : Qc;
  d_level : Z;
  d_type : string
}.

Definition Note_to_dict (n : Note) : NoteDict :=
  mkNoteDict (py_round (time n) 3) (level n) (type n).

(** [Note.from_dict] calls the constructor, whose [__post_init__] validates
    the level and the type: [None] is its [ValueError]. *)
Definition Note_from_dict (d : NoteDict) : option Note :=
  Note_new (d_time d) (d_level d) (d_type d).

(** [Note.copy()] calls the constructor on the fields of the note: a new,
    unselected note, or [None] for the [ValueError] of [__post_init__]. *)
Definition Note_copy (n : Note) : option Note :=
  Note_new (time n) (level n) (type n).

(** The check of [__post_init__]. *)
Definition note_valid (n : Note) : bool :=
  bool_decide (level n ∈ [1; 2; 3]%Z) && bool_decide (type n ∈ NOTE_TYPES).

(** A note object that only its owner refers to and that passed the check of
    the constructor when it was made: such are the copies that a
    [PatternEditCommand] keeps.  Nothing mutates them, so they are values. *)
Record ValidNote := mkValidNote {
  the_note : Note;
  the_note_valid : note_valid the_note
}.

(** [note.copy()], kept as such a value. *)
Definition private_copy (n : Note) : option ValidNote :=
  match decide (note_valid (mkNote (time n) (level n) (type n) false)) with
  | left H => Some (mkValidNote (mkNote (time n) (level n) (type n) false) H)
  | right _ => None
  end.

(** [note.copy()] of such a value: the check of the constructor passes
    again. *)
Definition copy_of (v : ValidNote) : Note :=
  mkNote (time (the_note v)) (level (the_note v)) (type (the_note v)) false.

(** ** The object heap *)

Definition ref := nat.

Record Heap := mkHeap {
  cells : ref → Note;
  next_ref : ref
}.

Definition deref (h : Heap) (r : ref) : Note := cells h r.

Definition alloc (h : Heap) (n : Note) : Heap * ref :=
  (mkHeap (λ r, if (r =? next_ref h)%nat then n else cells h r) (S (next_ref h)),
   next_ref h).

Definition update (h : Heap) (r : ref) (n : Note) : Heap :=
  mkHeap (λ r', if (r' =? r)%nat then n else cells h r') (next_ref h).

Definition set_time (h : Heap) (r : ref) (t : Qc) : Heap :=
  let n := deref h r in update h r (mkNote t (level n) (type n) (selected n)).

Definition set_level (h : Heap) (r : ref) (lv : Z) : Heap :=
  let n := deref h r in update h r (mkNote (time n) lv (type n) (selected n)).

Definition set_type (h : Heap) (r : ref) (ty : string) : Heap :=
  let n := deref h r in update h r (mkNote (time n) (level n) ty (selected n)).

Definition set_selected (h : Heap) (r : ref) (s : bool) : Heap :=
  let n := deref h r in update h r (mkNote (time n) (level n) (type n) s).

(** [note.copy()] allocates a new, unselected note; [None] when the
    constructor raises. *)
Definition copy_note (h : Heap) (r : ref) : option (Heap * ref) :=
  n ← Note_copy (deref h r); Some (alloc h n).

(** [[n.copy() for n in notes]]: the comprehension stops at the first note
    whose copy raises. *)
Fixpoint copy_notes (h : Heap) (rs : list ref) : option (Heap * list ref) :=
  match rs with
  | [] => Some (h, [])
  | r :: rs' =>
      '(h1, c) ← copy_note h r;
      '(h2, cs) ← copy_notes h1 rs';
      Some (h2, c :: cs)
  end.

(** ** Python list operations on lists of note references *)

(** [list.sort(key=lambda n: n.time)]: the sort is stable; the stable sorted
    arrangement is unique, here it is computed by insertion. *)
Fixpoint insert_by_time (h : Heap) (x : ref) (l : list ref) : list ref :=
  match l with
  | [] => [x]
  | y :: l' =>
      if bool_decide (time (deref h x) ≤ time (deref h y)) then x :: y :: l'
      else y :: insert_by_time h x l'
  end.

Fixpoint sort_by_time (h : Heap) (l : list ref) : list ref :=
  match l with
  | [] => []
  | x :: l' => insert_by_time h x (sort_by_time h l')
  end.

(** [sorted(group, key=lambda n: n.level)], stable as well. *)
Fixpoint insert_by_level (h : Heap) (x : ref) (l : list ref) : list ref :=
  match l with
  | [] => [x]
  | y :: l' =>
      if bool_decide (level (deref h x) ≤ level (deref h y))%Z then x :: y :: l'
      else y :: insert_by_level h x l'
  end.

Fixpoint sort_by_level (h : Heap) (l : list ref) : list ref :=
  match l with
  | [] => []
  | x :: l' => insert_by_level h x (sort_by_level h l')
  end.

(** An item of a list matches [x] when it is the same object or compares
    equal to it. *)
Definition same_note (h : Heap) (x y : ref) : bool :=
  (x =? y)%nat || note_eqb (deref h x) (deref h y).

(** [x in l] *)
Definition contains (h : Heap) (l : list ref) (x : ref) : bool :=
  existsb (same_note h x) l.

(** [l.remove(x)]: removes the first matching item.  Every call in the
    source is guarded by [x in l], so the [ValueError] of an absent item
    never occurs; the list is then returned as it is. *)
Fixpoint list_remove (h : Heap) (l : list ref) (x : ref) : list ref :=
  match l with
  | [] => []
  | y :: l' => if same_note h x y then l' else y :: list_remove h l' x
  end.

(** ** core/beatmap.py: BeatmapMeta and Beatmap *)

Record BeatmapMeta := mkBeatmapMeta {
  version : string;
  filename : string;
  title : string;
  category : string;
  priority : Z;
  bpm : Qc;
  total_duration : Qc
}.

Definition BeatmapMeta_default : BeatmapMeta :=
  mkBeatmapMeta BEATMAP_VERSION "" "" "" 0 (Qc_of_Z 120) 0.

(** The JSON object of the metadata; an absent key is [None]. *)
Record MetaDict := mkMetaDict {
  m_version : option string;
  m_filename : option string;
  m_title : option string;
  m_category : option string;
  m_priority : option Z;
  m_bpm : option Qc;
  m_total_duration : option Qc
}.

Definition non_empty (s : string) : option string :=
  if bool_decide (s = ""%string) then None else Some s.

Definition BeatmapMeta_to_dict (m : BeatmapMeta) : MetaDict :=
  mkMetaDict (Some (version m)) (Some (filename m))
    (non_empty (title m)) (non_empty (category m))
    (Some (priority m)) (Some (py_round (bpm m) 1))
    (Some (py_round (total_duration m) 1)).

Definition BeatmapMeta_from_dict (d : MetaDict) : BeatmapMeta :=
  mkBeatmapMeta
    (default BEATMAP_VERSION (m_version d))
    (default ""%string (m_filename d))
    (default ""%string (m_title d))
    (default ""%string (m_category d))
    (default 0%Z (m_priority d))
    (default (Qc_of_Z 120) (m_bpm d))
    (default 0 (m_total_duration d)).

Record Beatmap := mkBeatmap {
  meta : BeatmapMeta;
  _notes : list ref;
  _dirty : bool
}.

Definition Beatmap_new (m : option BeatmapMeta) : Beatmap :=
  mkBeatmap (default BeatmapMeta_default m) [] false.

Definition mark_dirty (b : Beatmap) : Beatmap := mkBeatmap (meta b) (_notes b) true.

Definition mark_clean (b : Beatmap) : Beatmap := mkBeatmap (meta b) (_notes b) false.

Definition set_list (b : Beatmap) (l : list ref) : Beatmap :=
  mkBeatmap (meta b) l (_dirty b).

Definition add_note (h : Heap) (b : Beatmap) (note : ref) : Beatmap :=
  mkBeatmap (meta b) (sort_by_time h (_notes b ++ [note])) true.

Definition remove_note (h : Heap) (b : Beatmap) (note : ref) : Beatmap :=
  if contains h (_notes b) note
  then mkBeatmap (meta b) (list_remove h (_notes b) note) true
  else b.

Definition remove_notes (h : Heap) (b : Beatmap) (notes : list ref) : Beatmap :=
  let l := foldl (λ l note, if contains h l note then list_remove h l note else l)
                 (_notes b) notes in
  mkBeatmap (meta b) l true.

Definition clear (b : Beatmap) : Beatmap := mkBeatmap (meta b) [] true.

Definition set_notes (h : Heap) (b : Beatmap) (notes : list ref) : Beatmap :=
  mkBeatmap (meta b) (sort_by_time h notes) true.

Record BeatmapDict := mkBeatmapDict {
  d_meta : option MetaDict;
  d_notes : option (list NoteDict)
}.

Definition Beatmap_to_dict (h : Heap) (b : Beatmap) : BeatmapDict :=
  mkBeatmapDict (Some (BeatmapMeta_to_dict (meta b)))
                (Some (map (λ r, Note_to_dict (deref h r)) (_notes b))).

(** [[Note.from_dict(n) for n in data.get("notes", [])]]: one new object per
    entry. *)
Fixpoint alloc_notes (h : Heap) (ns : list Note) : Heap * list ref :=
  match ns with
  | [] => (h, [])
  | n :: ns' =>
      let '(h1, r) := alloc h n in
      let '(h2, rs) := alloc_notes h1 ns' in
      (h2, r :: rs)
  end.

Definition empty_MetaDict : MetaDict :=
  mkMetaDict None None None None None None None.

(** [Beatmap.from_dict]; the list comprehension stops at the first note
    whose constructor raises, and [None] is that [ValueError]. *)
Definition Beatmap_from_dict (h : Heap) (d : BeatmapDict) : option (Heap * Beatmap) :=
  let m := BeatmapMeta_from_dict (default empty_MetaDict (d_meta d)) in
  notes ← mapM Note_from_dict (default [] (d_notes d));
  let '(h', rs) := alloc_notes h notes in
  Some (h', mkBeatmap m (sort_by_time h' rs) false).

(** The values of the notes of a beatmap, in list order, as the equality of
    notes sees them. *)
Definition note_keys (h : Heap) (l : list ref) : list (Qc * Z * string) :=
  map (λ r, note_key (deref h r)) l.

Definition note_times (h : Heap) (l : list ref) : list Qc :=
  map (λ r, time (deref h r)) l.

(** ** core/history.py: commands *)

(** A command object as its constructor leaves it.  Commands refer to notes
    by reference; all commands of a session act on the session's beatmap. *)
#[warnings="-register-all"]
Inductive Command :=
| AddNoteCommand (note : ref)
| AddNotesCommand (notes : list ref)
| RemoveNoteCommand (note : ref)
| RemoveNotesCommand (notes : list ref)
| MoveNoteCommand (note : ref) (old_time new_time : Qc) (old_type new_type : string)
| ChangeLevelCommand (note : ref) (old_level new_level : Z)
| ChangeLevelsCommand (notes : list ref) (old_levels : list Z) (new_level : Z)
| CompositeCommand (commands : list Command) (_description : string)
| SnapNotesCommand (notes : list ref) (old_times new_times : list Qc)
| MoveNotesCommand (notes : list ref) (old_times : list Qc) (old_types : list string)
    (new_times : list Qc) (new_types : list string) (_description : string)
| CleanupDuplicatesCommand (notes_to_remove : list ref)
| PatternEditCommand (notes_to_add notes_to_remove : list ValidNote) (lane_type : string).

(** The constructors ([__init__]); those that copy notes allocate the copies,
    and return [None] when a copy raises. *)
Definition new_AddNoteCommand (note : ref) : Command := AddNoteCommand note.

Definition new_AddNotesCommand (notes : list ref) : Command := AddNotesCommand notes.

Definition new_RemoveNoteCommand (h : Heap) (note : ref) : option (Heap * Command) :=
  '(h', c) ← copy_note h note; Some (h', RemoveNoteCommand c).

Definition new_RemoveNotesCommand (h : Heap) (notes : list ref) : option (Heap * Command) :=
  '(h', cs) ← copy_notes h notes; Some (h', RemoveNotesCommand cs).


Definition new_ChangeLevelCommand (h : Heap) (note : ref) (new_level : Z) : Command :=
  ChangeLevelCommand note (level (deref h note)) new_level.

Definition new_ChangeLevelsCommand (h : Heap) (notes : list ref) (new_level : Z) : Command :=
  ChangeLevelsCommand notes (map (λ r, level (deref h r)) notes) new_level.

Definition new_CompositeCommand (commands : list Command) (description_text : string) : Command :=
  CompositeCommand commands description_text.

Definition new_SnapNotesCommand (h : Heap) (notes : list ref) (new_times : list Qc) : Command :=
  SnapNotesCommand notes (map (λ r, time (deref h r)) notes) new_times.

Definition new_MoveNotesCommand (h : Heap) (notes : list ref)
    (new_times : option (list Qc)) (new_types : option (list string))
    (description_text : string) : Command :=
  let old_times := map (λ r, time (deref h r)) notes in
  let old_types := map (λ r, type (deref h r)) notes in
  MoveNotesCommand notes old_times old_types
    (default old_times new_times) (default old_types new_types) description_text.

Definition new_CleanupDuplicatesCommand (h : Heap) (notes_to_remove : list ref)
    : option (Heap * Command) :=
  '(h', cs) ← copy_notes h notes_to_remove; Some (h', CleanupDuplicatesCommand cs).

(** The copies of a [PatternEditCommand] stay with the command. *)
Definition new_PatternEditCommand (h : Heap) (notes_to_add notes_to_remove : list ref)
    (lane_type : string) : option Command :=
  adds ← mapM (λ r, private_copy (deref h r)) notes_to_add;
  rems ← mapM (λ r, private_copy (deref h r)) notes_to_remove;
  Some (PatternEditCommand adds rems lane_type).

(** [for note, t in zip(notes, times): note.time = t] and its siblings *)
Definition set_times (h : Heap) (notes : list ref) (times : list Qc) : Heap :=
  foldl (λ h '(r, t), set_time h r t) h (zip notes times).

Definition set_levels (h : Heap) (notes : list ref) (levels : list Z) : Heap :=
  foldl (λ h '(r, lv), set_level h r lv) h (zip notes levels).

Definition set_times_types (h : Heap) (notes : list ref) (times : list Qc)
    (types : list string) : Heap :=
  foldl (λ h '(r, (t, ty)), set_type (set_time h r t) r ty) h (zip notes (zip times types)).

(** The matching loops of [PatternEditCommand]: for each given note, the
    first note of the beatmap with the same rounded time and the same type
    is looked up and handed to [list.remove]. *)
Definition pattern_match (h : Heap) (note : ValidNote) (existing : ref) : bool :=
  bool_decide (py_round (time (deref h existing)) 3 = py_round (time (the_note note)) 3)
  && bool_decide (type (deref h existing) = type (the_note note)).

Definition pattern_remove (h : Heap) (l : list ref) (notes : list ValidNote) : list ref :=
  foldl (λ l note,
           match find (pattern_match h note) l with
           | Some existing => list_remove h l existing
           | None => l
           end) l notes.

(** [new_note = note.copy(); new_note.selected = True; _notes.append(new_note)] *)
Definition pattern_append (h : Heap) (l : list ref) (notes : list ValidNote)
    : Heap * list ref :=
  foldl (λ '(h, l) note,
           let '(h1, c) := alloc h (copy_of note) in
           (set_selected h1 c true, l ++ [c])) (h, l) notes.

Definition sort_notes (h : Heap) (b : Beatmap) : Beatmap :=
  set_list b (sort_by_time h (_notes b)).

Fixpoint execute (c : Command) (s : Heap * Beatmap) : Heap * Beatmap :=
  let '(h, b) := s in
  match c with
  | AddNoteCommand note => (h, add_note h b note)
  | AddNotesCommand notes => (h, foldl (add_note h) b notes)
  | RemoveNoteCommand note => (h, remove_note h b note)
  | RemoveNotesCommand notes => (h, remove_notes h b notes)
  | MoveNoteCommand note _ new_time _ new_type =>
      let h' := set_type (set_time h note new_time) note new_type in
      (h', mark_dirty (sort_notes h' b))
  | ChangeLevelCommand note _ new_level => (set_level h note new_level, mark_dirty b)
  | ChangeLevelsCommand notes _ new_level =>
      (foldl (λ h r, set_level h r new_level) h notes, mark_dirty b)
  | CompositeCommand commands _ => foldl (λ s cmd, execute cmd s) s commands
  | SnapNotesCommand notes _ new_times =>
      let h' := set_times h notes new_times in
      (h', mark_dirty (sort_notes h' b))
  | MoveNotesCommand notes _ _ new_times new_types _ =>
      let h' := set_times_types h notes new_times new_types in
      (h', mark_dirty (sort_notes h' b))
  | CleanupDuplicatesCommand notes_to_remove => (h, remove_notes h b notes_to_remove)
  | PatternEditCommand notes_to_add notes_to_remove _ =>
      let l1 := pattern_remove h (_notes b) notes_to_remove in
      let '(h', l2) := pattern_append h l1 notes_to_add in
      (h', mark_dirty (sort_notes h' (set_list b l2)))
  end.

Fixpoint undo (c : Command) (s : Heap * Beatmap) : Heap * Beatmap :=
  let '(h, b) := s in
  match c with
  | AddNoteCommand note => (h, remove_note h b note)
  | AddNotesCommand notes => (h, remove_notes h b notes)
  | RemoveNoteCommand note => (h, add_note h b note)
  | RemoveNotesCommand notes => (h, foldl (add_note h) b notes)
  | MoveNoteCommand note old_time _ old_type _ =>
      let h' := set_type (set_time h note old_time) note old_type in
      (h', mark_dirty (sort_notes h' b))
  | ChangeLevelCommand note old_level _ => (set_level h note old_level, mark_dirty b)
  | ChangeLevelsCommand notes old_levels _ =>
      (set_levels h notes old_levels, mark_dirty b)
  | CompositeCommand commands _ =>
      (* [for cmd in reversed(self.commands): cmd.undo()]: the last one first *)
      foldr undo s commands
  | SnapNotesCommand notes old_times _ =>
      let h' := set_times h notes old_times in
      (h', mark_dirty (sort_notes h' b))
  | MoveNotesCommand notes old_times old_types _ _ _ =>
      let h' := set_times_types h notes old_times old_types in
      (h', mark_dirty (sort_notes h' b))
  | CleanupDuplicatesCommand notes_to_remove => (h, foldl (add_note h) b notes_to_remove)
  | PatternEditCommand notes_to_add notes_to_remove _ =>
      let l1 := pattern_remove h (_notes b) notes_to_add in
      let '(h', l2) := pattern_append h l1 notes_to_remove in
      (h', mark_dirty (sort_notes h' (set_list b l2)))
  end.

(** The pieces of a description f-string: literal text, an integer, a float
    formatted with [:.3f]. *)
Inductive Piece :=
| Text (s : string)
| Int (z : Z)
| Float3 (q : Qc).

Definition Description := list Piece.

Definition len {A} (l : list A) : Z := Z.of_nat (length l).

Definition description (h : Heap) (c : Command) : Description :=
  match c with
  | AddNoteCommand note =>
      [Text "Add "; Text (type (deref h note)); Text " note at ";
       Float3 (time (deref h note)); Text "s"]
  | AddNotesCommand notes => [Text "Add "; Int (len notes); Text " notes"]
  | RemoveNoteCommand note =>
      [Text "Remove "; Text (type (deref h note)); Text " note at ";
       Float3 (time (deref h note)); Text "s"]
  | RemoveNotesCommand notes => [Text "Remove "; Int (len notes); Text " notes"]
  | MoveNoteCommand _ old_time new_time old_type new_type =>
      if negb (bool_decide (old_type = new_type))
      then [Text "Move note from "; Float3 old_time; Text "s to "; Float3 new_time;
            Text "s and change to "; Text new_type]
      else [Text "Move note from "; Float3 old_time; Text "s to "; Float3 new_time; Text "s"]
  | ChangeLevelCommand _ old_level new_level =>
      [Text "Change level from "; Int old_level; Text " to "; Int new_level]
  | ChangeLevelsCommand notes _ new_level =>
      [Text "Change "; Int (len notes); Text " notes to level "; Int new_level]
  | CompositeCommand commands d =>
      if bool_decide (d = ""%string)
      then [Text "Composite ("; Int (len commands); Text " actions)"]
      else [Text d]
  | SnapNotesCommand notes _ _ => [Text "Snap "; Int (len notes); Text " notes to grid"]
  | MoveNotesCommand notes _ _ _ _ d =>
      if bool_decide (d = ""%string)
      then [Text "Move "; Int (len notes); Text " notes"]
      else [Text d]
  | CleanupDuplicatesCommand notes_to_remove =>
      [Text "Clean up "; Int (len notes_to_remove); Text " duplicate notes"]
  | PatternEditCommand notes_to_add notes_to_remove lane_type =>
      [Text "Edit "; Text lane_type; Text " pattern (+"; Int (len notes_to_add);
       Text ", -"; Int (len notes_to_remove); Text ")"]
  end.

(** ** core/history.py: History *)

Record History := mkHistory {
  _undo_stack : list Command;
  _redo_stack : list Command;
  _max_size : Z
}.

Definition History_new (max_size : Z) : History := mkHistory [] [] max_size.

(** [while len(stack) > max_size: stack.pop(0)]; [None] is the [IndexError]
    of [pop(0)] on an empty list, reached when the bound is negative. *)
Fixpoint trim (max_size : Z) (stack : list Command) : option (list Command) :=
  if bool_decide (len stack > max_size)%Z then
    match stack with
    | [] => None
    | _ :: stack' => trim max_size stack'
    end
  else Some stack.

Definition _trim_stack (hi : History) : option History :=
  stack ← trim (_max_size hi) (_undo_stack hi);
  Some (mkHistory stack (_redo_stack hi) (_max_size hi)).

(** The state of an editing session. *)
Record Session := mkSession {
  heap : Heap;
  beatmap : Beatmap;
  history : History
}.

Definition run (f : Heap * Beatmap → Heap * Beatmap) (s : Session) (hi : History) : Session :=
  let '(h, b) := f (heap s, beatmap s) in mkSession h b hi.

(** [History.execute]; [None] when [_trim_stack] raises. *)
Definition History_execute (command : Command) (s : Session) : option Session :=
  let hi := history s in
  hi' ← _trim_stack (mkHistory (_undo_stack hi ++ [command]) [] (_max_size hi));
  Some (run (execute command) s hi').

Definition History_record (command : Command) (s : Session) : option Session :=
  let hi := history s in
  hi' ← _trim_stack (mkHistory (_undo_stack hi ++ [command]) [] (_max_size hi));
  Some (mkSession (heap s) (beatmap s) hi').

(** [stack.pop()] *)
Definition pop {A} (l : list A) : option (list A * A) :=
  match rev l with
  | [] => None
  | x :: l' => Some (rev l', x)
  end.

(** [History.undo]: the new state and the returned description, [None] when
    there is nothing to undo. *)
Definition History_undo (s : Session) : Session * option Description :=
  let hi := history s in
  match pop (_undo_stack hi) with
  | None => (s, None)
  | Some (stack, command) =>
      let s' := run (undo command) s
                  (mkHistory stack (_redo_stack hi ++ [command]) (_max_size hi)) in
      (s', Some (description (heap s') command))
  end.

Definition History_redo (s : Session) : Session * option Description :=
  let hi := history s in
  match pop (_redo_stack hi) with
  | None => (s, None)
  | Some (stack, command) =>
      let s' := run (execute command) s
                  (mkHistory (_undo_stack hi ++ [command]) stack (_max_size hi)) in
      (s', Some (description (heap s') command))
  end.

Definition can_undo (hi : History) : bool := bool_decide (len (_undo_stack hi) > 0)%Z.

Definition can_redo (hi : History) : bool := bool_decide (len (_redo_stack hi) > 0)%Z.

Definition History_clear (hi : History) : History := mkHistory [] [] (_max_size hi).

(** ** utils/grid.py *)

(** [generate_beat_grid]; [None] is the [ZeroDivisionError] of a zero tempo
    or a zero subdivision. *)
Definition generate_beat_grid (bpm duration : Qc) (subdivision : Z) : option (list Qc) :=
  if bool_decide (bpm = 0) then None
  else if bool_decide (subdivision = 0)%Z then None
  else
    let beat_duration := Qc_of_Z 60 / bpm in
    let subdivision_duration := beat_duration / Qc_of_Z subdivision in
    let num_subdivisions := Qceiling (this (duration / subdivision_duration)) in
    let grid := map (λ i, Qc_of_Z (Z.of_nat i) * subdivision_duration)
                    (seq 0 (Z.to_nat num_subdivisions)) in
    Some (filter (λ t, t < duration) grid).

(** [np.argmin]: the index of the first minimum. *)
Fixpoint argmin_from (l : list Qc) (i best_i : nat) (best : Qc) : nat :=
  match l with
  | [] => best_i
  | x :: l' =>
      if bool_decide (x < best) then argmin_from l' (S i) i x
      else argmin_from l' (S i) best_i best
  end.

Definition argmin (l : list Qc) : nat :=
  match l with
  | [] => 0%nat
  | x :: l' => argmin_from l' 1 0 x
  end.

Definition snap_to_grid (t : Qc) (grid : list Qc) : Qc :=
  if bool_decide (len grid = 0)%Z then t
  else
    let idx := argmin (map (λ g, Qc_abs (g - t)) grid) in
    default t (grid !! idx).

(** ** utils/peaks.py *)

Record WaveformData := mkWaveformData {
  w_min : option (list Qc);
  w_max : option (list Qc);
  w_rms : option (list Qc)
}.

(** [not waveform_data]: [None] or a dictionary without keys. *)
Definition no_waveform (w : option WaveformData) : bool :=
  match w with
  | None => true
  | Some d => bool_decide (w_min d = None ∧ w_max d = None ∧ w_rms d = None)
  end.

Definition list_max (x : Qc) (l : list Qc) : Qc :=
  foldl (λ m y, if bool_decide (m < y) then y else m) x l.

Definition list_min (x : Qc) (l : list Qc) : Qc :=
  foldl (λ m y, if bool_decide (y < m) then y else m) x l.

(** The inner loop [while j < num_samples and rms[j] >= threshold], run on
    the samples from index [j] on; it returns the peak value, its index and
    the final [j]. *)
Fixpoint peak_region (threshold : Qc) (rest : list Qc) (j : nat) (peak_val : Qc)
    (peak_idx : nat) : Qc * nat * nat :=
  match rest with
  | [] => (peak_val, peak_idx, j)
  | x :: rest' =>
      if bool_decide (threshold ≤ x) then
        if bool_decide (peak_val < x) then peak_region threshold rest' (S j) x j
        else peak_region threshold rest' (S j) peak_val peak_idx
      else (peak_val, peak_idx, j)
  end.

(** The main loop [while i < num_samples]; every iteration advances [i], so
    [num_samples] iterations are enough; [None] would be a loop that needs
    more. *)
Fixpoint peak_loop (fuel : nat) (rms : list Qc) (duration threshold rearm_threshold : Qc)
    (min_gap_samples : Z) (i : nat) (armed : bool) (last_peak_sample : Z)
    (peaks : list Qc) : option (list Qc) :=
  match rms !! i with
  | None => Some peaks
  | Some val =>
      match fuel with
      | O => None
      | S fuel' =>
          if armed then
            if bool_decide (threshold ≤ val) then
              let '(_, peak_idx, j) :=
                peak_region threshold (drop (S i) rms) (S i) val i in
              if bool_decide (min_gap_samples ≤ Z.of_nat peak_idx - last_peak_sample)%Z
              then
                let peak_time :=
                  Qc_of_Z (Z.of_nat peak_idx) / Qc_of_Z (len rms) * duration in
                peak_loop fuel' rms duration threshold rearm_threshold min_gap_samples
                  j false (Z.of_nat peak_idx) (peaks ++ [peak_time])
              else
                peak_loop fuel' rms duration threshold rearm_threshold min_gap_samples
                  j false last_peak_sample peaks
            else
              peak_loop fuel' rms duration threshold rearm_threshold min_gap_samples
                (S i) armed last_peak_sample peaks
          else
            peak_loop fuel' rms duration threshold rearm_threshold min_gap_samples
              (S i) (bool_decide (val < rearm_threshold)) last_peak_sample peaks
      end
  end.

Definition min_gap_samples_of (num_samples : Z) (duration min_gap_seconds : Qc) : Z :=
  let samples_per_second :=
    if bool_decide (0 < duration) then Qc_of_Z num_samples / duration else 1 in
  py_int (min_gap_seconds * samples_per_second).

(** [waveform_data.get("rms", [])] *)
Definition rms_of (waveform_data : option WaveformData) : list Qc :=
  default [] (w ← waveform_data; w_rms w).

Definition detect_peaks (waveform_data : option WaveformData) (duration threshold_percent : Qc)
    (min_gap_seconds : Qc) (rearm_threshold_percent : option Qc) : option (list Qc) :=
  if no_waveform waveform_data then Some []
  else
    let rms := rms_of waveform_data in
    match rms with
    | [] => Some []
    | x :: rest =>
        let max_rms := list_max x rest in
        let min_rms := list_min x rest in
        let rms_range := max_rms - min_rms in
        if bool_decide (rms_range ≤ 0) then Some []
        else
          let threshold := min_rms + rms_range * threshold_percent / Qc_of_Z 100 in
          let rearm_percent :=
            default (threshold_percent * DEFAULT_REARM_RATIO) rearm_threshold_percent in
          let rearm_threshold := min_rms + rms_range * rearm_percent / Qc_of_Z 100 in
          let min_gap_samples := min_gap_samples_of (len rms) duration min_gap_seconds in
          peak_loop (length rms) rms duration threshold rearm_threshold min_gap_samples
            0 true (- min_gap_samples) []
    end.

(** ** ui/app.py: duplicate clean-up *)

(** [time_groups[key].append(note)] on a [defaultdict(list)], which iterates
    in the order in which the keys were first inserted. *)
Fixpoint group_append (groups : list (Qc * list ref)) (key : Qc) (note : ref)
    : list (Qc * list ref) :=
  match groups with
  | [] => [(key, [note])]
  | (k, g) :: groups' =>
      if bool_decide (k = key) then (k, g ++ [note]) :: groups'
      else (k, g) :: group_append groups' key note
  end.

Definition time_groups_of (h : Heap) (notes : list ref) : list (Qc * list ref) :=
  foldl (λ groups note, group_append groups (py_round (time (deref h note)) 3) note)
        [] notes.

Definition duplicates_of (h : Heap) (notes : list ref) : list ref :=
  foldl (λ notes_to_remove '(_, group),
           if bool_decide (len group > 1)%Z
           then notes_to_remove ++ tail (sort_by_level h group)
           else notes_to_remove)
        [] (time_groups_of h notes).

(** [_on_cleanup_duplicates]: the new session and the status message; [None]
    when the constructor of the command or [History.execute] raises. *)
Definition _on_cleanup_duplicates (s : Session) : option (Session * Description) :=
  let notes := _notes (beatmap s) in
  if bool_decide (notes = []) then Some (s, [Text "No markers to clean up"])
  else
    let notes_to_remove := duplicates_of (heap s) notes in
    if bool_decide (notes_to_remove = []) then Some (s, [Text "No duplicate markers found"])
    else
      '(h', cmd) ← new_CleanupDuplicatesCommand (heap s) notes_to_remove;
      s' ← History_execute cmd (mkSession h' (beatmap s) (history s));
      Some (s', [Text "Cleaned up "; Int (len notes_to_remove); Text " duplicate marker(s)"]).

(** ** ui/pattern_editor.py *)

Record PatternSlot := mkPatternSlot {
  slot_time : Qc;
  has_marker : bool;
  original_marker : bool;
  slot_note : option ref
}.

(** The editor's state.  The three callbacks are supplied by the owner of
    the editor; what is recorded here is whether each is set, and a call of
    one is an event returned by the operation that makes it.  The modal
    window is reduced to its existence. *)
Record PatternEditor := mkPatternEditor {
  pattern_slots : list PatternSlot;
  selected_notes : list ref;
  pe_lane_type : option string;
  pe_level : Z;
  _original_notes : list ref;
  _original_pattern : string;
  _grid_step : Qc;
  _modal_tag : bool;
  on_apply : bool;
  on_apply_to_all : bool;
  on_cancel : bool
}.

Inductive Callback :=
| OnApply (notes_added notes_removed : list ref)
| OnApplyToAll (notes_added notes_removed : list ref) (matches_count : Z)
| OnCancel.

Definition PatternEditor_new : PatternEditor :=
  mkPatternEditor [] [] None 1 [] "" 0 false false false false.

(** [sorted(grid_times)] *)
Fixpoint insert_Qc (x : Qc) (l : list Qc) : list Qc :=
  match l with
  | [] => [x]
  | y :: l' => if bool_decide (x ≤ y) then x :: y :: l' else y :: insert_Qc x l'
  end.

Definition sorted_Qc (l : list Qc) : list Qc := foldr insert_Qc [] l.

Definition pattern_string (marker : PatternSlot → bool) (slots : list PatternSlot) : string :=
  foldr (λ slot s, String (if marker slot then "o" else "x")%char s) ""%string slots.

Definition _get_original_pattern_string (pe : PatternEditor) : string :=
  pattern_string original_marker (pattern_slots pe).

Definition _get_pattern_string (pe : PatternEditor) : string :=
  pattern_string has_marker (pattern_slots pe).

(** [open]: the heap (the selection is copied), the editor and the returned
    flag; [None] when a copy raises. *)
Definition open (h : Heap) (pe : PatternEditor) (selected_notes : list ref)
    (grid_times : list Qc) : option (Heap * PatternEditor * bool) :=
  match selected_notes with
  | [] => Some (h, pe, false)
  | first :: _ =>
      let lanes := remove_dups (map (λ n, type (deref h n)) selected_notes) in
      if negb (bool_decide (len lanes = 1)%Z) then Some (h, pe, false)
      else
        '(h', originals) ← copy_notes h selected_notes;
        let sorted_grid := sorted_Qc grid_times in
        let grid_step :=
          match sorted_grid with
          | g0 :: g1 :: _ => py_round (g1 - g0) 6
          | _ => 0
          end in
        let note_times := map (λ n, py_round (time (deref h' n)) 3) selected_notes in
        let slots :=
          map (λ grid_time,
                 let rounded_time := py_round grid_time 3 in
                 let marker := bool_decide (rounded_time ∈ note_times) in
                 let note :=
                   find (λ n, bool_decide (py_round (time (deref h' n)) 3 = rounded_time))
                        selected_notes in
                 mkPatternSlot rounded_time marker marker note)
              sorted_grid in
        let pe1 :=
          mkPatternEditor slots selected_notes (Some (type (deref h first)))
            (level (deref h first)) originals (_original_pattern pe) grid_step
            (_modal_tag pe) (on_apply pe) (on_apply_to_all pe) (on_cancel pe) in
        match slots with
        | [] => Some (h', pe1, false)
        | _ =>
            Some (h',
                  mkPatternEditor slots selected_notes (pe_lane_type pe1) (pe_level pe1)
                    originals (_get_original_pattern_string pe1) grid_step true
                    (on_apply pe) (on_apply_to_all pe) (on_cancel pe),
                  true)
        end
  end.

Definition _close (pe : PatternEditor) : PatternEditor :=
  mkPatternEditor [] [] (pe_lane_type pe) (pe_level pe) [] (_original_pattern pe)
    (_grid_step pe) false (on_apply pe) (on_apply_to_all pe) (on_cancel pe).

(** The body of the loop that collects the changes of the selection itself
    (it opens both [_on_apply] and [_on_apply_to_all]). *)
Definition collect_change (pe : PatternEditor) (acc : Heap * list ref * list ref)
    (slot : PatternSlot) : option (Heap * list ref * list ref) :=
  let '(h, notes_added, notes_removed) := acc in
  if has_marker slot && negb (original_marker slot) then
    match slot_note slot with
    | Some n => '(h1, c) ← copy_note h n; Some (h1, notes_added ++ [c], notes_removed)
    | None => Some (h, notes_added, notes_removed)
    end
  else if negb (has_marker slot) && original_marker slot then
    match find (λ o, bool_decide (py_round (time (deref h o)) 3
                                  = py_round (slot_time slot) 3))
               (_original_notes pe) with
    | Some o => '(h1, c) ← copy_note h o; Some (h1, notes_added, notes_removed ++ [c])
    | None => Some (h, notes_added, notes_removed)
    end
  else Some (h, notes_added, notes_removed).

(** The loop; [None] when a copy raises. *)
Definition collect_changes (h : Heap) (pe : PatternEditor)
    : option (Heap * list ref * list ref) :=
  foldl (λ acc slot, acc ← acc; collect_change pe acc slot)
        (Some (h, [], [])) (pattern_slots pe).

(** What an apply action leaves behind: the heap, the beatmap, the editor
    and the callback made, if any. *)
Definition Applied : Type := Heap * Beatmap * PatternEditor * option Callback.

(** [_on_apply]; [None] when a copy raises. *)
Definition _on_apply (h : Heap) (b : Beatmap) (pe : PatternEditor) : option Applied :=
  '(h', notes_added, notes_removed) ← collect_changes h pe;
  Some (h', b, _close pe,
        if on_apply pe then Some (OnApply notes_added notes_removed) else None).

(** The state of the search of [_on_apply_to_all]. *)
Record Search := mkSearch {
  s_heap : Heap;
  s_notes : list ref;
  s_added : list ref;
  s_removed : list ref;
  all_note_times : gmap Qc ref;
  matches_count : Z
}.

Definition check_time (pe : PatternEditor) (current_time : Qc) (i : nat) : Qc :=
  py_round (current_time + Qc_of_Z (Z.of_nat i) * _grid_step pe) 3.

Definition enumerate {A} (l : list A) : list (nat * A) := zip (seq 0 (length l)) l.

(** The transformation of one matching occurrence; [None] is the
    [ValueError] of the [Note] constructor, called directly or by a copy. *)
Definition apply_occurrence (pe : PatternEditor) (current_time : Qc) (st : Search)
    : option Search :=
  foldl (λ acc '(i, slot),
           st ← acc;
           let t := check_time pe current_time i in
           if has_marker slot && negb (original_marker slot) then
             match all_note_times st !! t with
             | None =>
                 n ← Note_new t (pe_level pe) (default ""%string (pe_lane_type pe));
                 let '(h1, new_note) := alloc (s_heap st) n in
                 '(h2, c) ← copy_note h1 new_note;
                 Some (mkSearch h2 (s_notes st ++ [new_note]) (s_added st ++ [c])
                         (s_removed st) (<[t := new_note]> (all_note_times st))
                         (matches_count st))
             | Some _ => Some st
             end
           else if negb (has_marker slot) && original_marker slot then
             match all_note_times st !! t with
             | Some note_to_remove =>
                 if contains (s_heap st) (s_notes st) note_to_remove then
                   '(h1, c) ← copy_note (s_heap st) note_to_remove;
                   Some (mkSearch h1 (list_remove (s_heap st) (s_notes st) note_to_remove)
                           (s_added st) (s_removed st ++ [c])
                           (delete t (all_note_times st)) (matches_count st))
                 else Some st
             | None => Some st
             end
           else Some st)
        (Some st) (enumerate (pattern_slots pe)).

Definition search_step (pe : PatternEditor) (current_min_time current_max_time
    pattern_duration : Qc) (acc : option Search) (current_time : Qc) : option Search :=
  st ← acc;
  let pattern_end := current_time + pattern_duration in
  if negb (bool_decide (pattern_end < current_min_time)
           || bool_decide (current_max_time < current_time))
  then Some st
  else
    let matches :=
      forallb (λ '(i, slot),
                 bool_decide (bool_decide (is_Some (all_note_times st
                                              !! check_time pe current_time i))
                              = original_marker slot))
              (enumerate (pattern_slots pe)) in
    if matches then
      apply_occurrence pe current_time
        (mkSearch (s_heap st) (s_notes st) (s_added st) (s_removed st)
           (all_note_times st) (matches_count st + 1))
    else Some st.

(** The start positions visited by [while current_time + pattern_duration <=
    duration], with [current_time] stepping from 0 by [grid_step > 0]. *)
Definition start_times (duration pattern_duration grid_step : Qc) : list Qc :=
  if bool_decide (pattern_duration ≤ duration) then
    map (λ k, Qc_of_Z (Z.of_nat k) * grid_step)
        (seq 0 (Z.to_nat (Qfloor (this ((duration - pattern_duration) / grid_step)) + 1)))
  else [].

(** [_on_apply_to_all]; [None] when the [Note] constructor raises. *)
Definition _on_apply_to_all (h : Heap) (b : Beatmap) (pe : PatternEditor) : option Applied :=
  let pattern_length := len (pattern_slots pe) in
  if bool_decide (pattern_length = 0)%Z || bool_decide (_grid_step pe ≤ 0)
  then _on_apply h b pe
  else
    '(h1, notes_added, notes_removed) ← collect_changes h pe;
    let all_notes_in_lane :=
      filter (λ n, Some (type (deref h1 n)) = pe_lane_type pe) (_notes b) in
    let times :=
      foldl (λ (m : gmap Qc ref) n, <[py_round (time (deref h1 n)) 3 := n]> m)
            ∅ all_notes_in_lane in
    let slot_times := map slot_time (pattern_slots pe) in
    let current_min_time := list_min (default 0 (head slot_times)) slot_times - Q2Qc (1 # 1000) in
    let current_max_time := list_max (default 0 (head slot_times)) slot_times + Q2Qc (1 # 1000) in
    let pattern_duration := Qc_of_Z (pattern_length - 1) * _grid_step pe in
    st ← foldl (search_step pe current_min_time current_max_time pattern_duration)
               (Some (mkSearch h1 (_notes b) notes_added notes_removed times 0))
               (start_times (total_duration (meta b)) pattern_duration (_grid_step pe));
    let b' := set_list b (sort_by_time (s_heap st) (s_notes st)) in
    Some (s_heap st, b', _close pe,
          if on_apply_to_all pe
          then Some (OnApplyToAll (s_added st) (s_removed st) (matches_count st))
          else if on_apply pe then Some (OnApply (s_added st) (s_removed st))
          else None).

Definition set_slots (pe : PatternEditor) (slots : list PatternSlot) : PatternEditor :=
  mkPatternEditor slots (selected_notes pe) (pe_lane_type pe) (pe_level pe)
    (_original_notes pe) (_original_pattern pe) (_grid_step pe) (_modal_tag pe)
    (on_apply pe) (on_apply_to_all pe) (on_cancel pe).

(** [_update_live_preview]: the markers of the slots switched off leave the
    beatmap, then a marker is created for every slot switched on that has
    none; [None] is the [ValueError] of the [Note] constructor. *)
Definition _update_live_preview (h : Heap) (b : Beatmap) (pe : PatternEditor)
    : option (Heap * Beatmap * PatternEditor) :=
  let '(l1, slots1) :=
    foldl (λ '(l, slots) slot,
             match slot_note slot with
             | Some n =>
                 if negb (has_marker slot) then
                   (if contains h l n then list_remove h l n else l,
                    slots ++ [mkPatternSlot (slot_time slot) (has_marker slot)
                                (original_marker slot) None])
                 else (l, slots ++ [slot])
             | None => (l, slots ++ [slot])
             end)
          (_notes b, []) (pattern_slots pe) in
  '(h2, l2, slots2) ←
    foldl (λ acc slot,
             '(h, l, slots) ← acc;
             if has_marker slot && bool_decide (slot_note slot = None) then
               n ← Note_new (slot_time slot) (pe_level pe)
                    (default ""%string (pe_lane_type pe));
               let '(h1, new_note) := alloc h n in
               Some (set_selected h1 new_note true, sort_by_time h1 (l ++ [new_note]),
                     slots ++ [mkPatternSlot (slot_time slot) (has_marker slot)
                                 (original_marker slot) (Some new_note)])
             else Some (h, l, slots ++ [slot]))
          (Some (h, l1, [])) slots1;
  Some (h2, set_list b l2, set_slots pe slots2).

(** [_toggle_slot] *)
Definition _toggle_slot (h : Heap) (b : Beatmap) (pe : PatternEditor) (index : nat)
    : option (Heap * Beatmap * PatternEditor) :=
  match pattern_slots pe !! index with
  | Some slot =>
      _update_live_preview h b
        (set_slots pe
           (<[index := mkPatternSlot (slot_time slot) (negb (has_marker slot))
                         (original_marker slot) (slot_note slot)]> (pattern_slots pe)))
  | None => Some (h, b, pe)
  end.

(** ** core/beatmap.py: queries and selection *)

(** [get_note_at]: the first note of the list within the tolerance. *)
Definition get_note_at (h : Heap) (b : Beatmap) (t tolerance : Qc) : option ref :=
  find (λ r, bool_decide (Qc_abs (time (deref h r) - t) ≤ tolerance)) (_notes b).

Definition get_notes_in_range (h : Heap) (b : Beatmap) (start_time end_time : Qc) : list ref :=
  filter (λ r, start_time ≤ time (deref h r) ∧ time (deref h r) ≤ end_time) (_notes b).

Definition get_notes_by_type (h : Heap) (b : Beatmap) (note_type : string) : list ref :=
  filter (λ r, type (deref h r) = note_type) (_notes b).

Definition get_notes_by_level (h : Heap) (b : Beatmap) (lv : Z) : list ref :=
  filter (λ r, level (deref h r) = lv) (_notes b).

Definition get_selected_notes (h : Heap) (b : Beatmap) : list ref :=
  filter (λ r, selected (deref h r) = true) (_notes b).

Definition clear_selection (h : Heap) (b : Beatmap) : Heap :=
  foldl (λ h r, set_selected h r false) h (_notes b).

(** The body of the loop of [select_notes_in_range]; [note_type] is [None]
    when the argument is left out. *)
Definition select_if_in_range (start_time end_time : Qc) (note_type : option string)
    (h : Heap) (r : ref) : Heap :=
  let in_range :=
    bool_decide (start_time ≤ time (deref h r) ∧ time (deref h r) ≤ end_time) in
  let type_match :=
    match note_type with
    | None => true
    | Some ty => bool_decide (type (deref h r) = ty)
    end in
  if in_range && type_match then set_selected h r true else h.

Definition select_notes_in_range (h : Heap) (b : Beatmap) (start_time end_time : Qc)
    (note_type : option string) : Heap :=
  foldl (select_if_in_range start_time end_time note_type) h (_notes b).

(** ** core/history.py: the descriptions of the next commands *)

Definition undo_description (s : Session) : option Description :=
  if bool_decide (_undo_stack (history s) = []) then None
  else description (heap s) <$> last (_undo_stack (history s)).

Definition redo_description (s : Session) : option Description :=
  if bool_decide (_redo_stack (history s) = []) then None
  else description (heap s) <$> last (_redo_stack (history s)).

(** ** utils/grid.py: grid indices *)

Definition SUBDIVISION_SIXTEENTH : Z := 16.

(** [time_to_grid_index]; [None] is the [ZeroDivisionError] of a zero tempo
    or a zero subdivision. *)
Definition time_to_grid_index (t bpm : Qc) (subdivision : Z) : option Z :=
  if bool_decide (bpm = 0) then None
  else if bool_decide (subdivision = 0)%Z then None
  else
    let beat_duration := Qc_of_Z 60 / bpm in
    let subdivision_duration := beat_duration / Qc_of_Z subdivision in
    Some (round_half_even (this (t / subdivision_duration))).

Definition grid_index_to_time (index : Z) (bpm : Qc) (subdivision : Z) : option Qc :=
  if bool_decide (bpm = 0) then None
  else if bool_decide (subdivision = 0)%Z then None
  else
    let beat_duration := Qc_of_Z 60 / bpm in
    let subdivision_duration := beat_duration / Qc_of_Z subdivision in
    Some (Qc_of_Z index * subdivision_duration).

(** [get_beat_number]; [//] and [%] round toward minus infinity, as
    [Z.div] and [Z.modulo] do for a positive divisor. *)
Definition get_beat_number (t bpm : Qc) : option (Z * Z) :=
  if bool_decide (bpm = 0) then None
  else
    let beat_duration := Qc_of_Z 60 / bpm in
    let subdivision_duration := beat_duration / Qc_of_Z SUBDIVISION_SIXTEENTH in
    let total_subdivisions := round_half_even (this (t / subdivision_duration)) in
    Some ((total_subdivisions `div` SUBDIVISION_SIXTEENTH)%Z,
          (total_subdivisions `mod` SUBDIVISION_SIXTEENTH)%Z).

(** ** core/constants.py and utils/peaks.py: lanes and waveforms *)

Definition WAVEFORMS : list string := ["main"; "drums"; "bass"; "vocals"; "other"]%string.

Definition LANE_TO_WAVEFORM : gmap string string :=
  list_to_map [("base", "main"); ("drum", "drums"); ("bass", "bass");
               ("vocal", "vocals"); ("lead", "other")]%string.

Definition WAVEFORM_TO_LANE : gmap string string :=
  list_to_map [("main", "base"); ("drums", "drum"); ("bass", "bass");
               ("vocals", "vocal"); ("other", "lead")]%string.

(** [LANE_TO_WAVEFORM.get(lane_name, "main")] *)
Definition lane_to_waveform_key (lane_name : string) : string :=
  default "main"%string (LANE_TO_WAVEFORM !! lane_name).

(** [WAVEFORM_TO_LANE.get(waveform_name, "base")] *)
Definition waveform_to_lane_key (waveform_name : string) : string :=
  default "base"%string (WAVEFORM_TO_LANE !! waveform_name).

(** ** ui/app.py: handlers of the editing actions *)

(** [Project.bpm] and [Project.duration] read the metadata of the beatmap. *)
Definition project_bpm (s : Session) : Qc := bpm (meta (beatmap s)).

Definition project_duration (s : Session) : Qc := total_duration (meta (beatmap s)).

(** [_on_delete_selected]: the new session and the status message, if one is
    set; [text_input_focused] is the answer of [is_text_input_focused()];
    [None] when the constructor of the command or [History.execute]
    raises. *)
Definition _on_delete_selected (text_input_focused : bool) (s : Session)
    : option (Session * option Description) :=
  if text_input_focused then Some (s, None)
  else
    let selected := get_selected_notes (heap s) (beatmap s) in
    if bool_decide (selected = []) then Some (s, None)
    else
      '(h', cmd) ← new_RemoveNotesCommand (heap s) selected;
      s' ← History_execute cmd (mkSession h' (beatmap s) (history s));
      Some (s', Some [Text "Deleted "; Int (len selected); Text " marker(s)"]).

(** [_on_marker_double_click]: the level cycles 1 -> 2 -> 3 -> 1. *)
Definition _on_marker_double_click (note : ref) (s : Session)
    : option (Session * Description) :=
  let new_level := (level (deref (heap s) note) `mod` 3 + 1)%Z in
  let cmd := new_ChangeLevelCommand (heap s) note new_level in
  s' ← History_execute cmd s;
  Some (s', [Text "Changed level to "; Int new_level]).

(** [_on_snap_selection]; [None] when [generate_beat_grid] or
    [History.execute] raises. *)
Definition _on_snap_selection (subdivision : Z) (s : Session)
    : option (Session * Description) :=
  let selected := get_selected_notes (heap s) (beatmap s) in
  if bool_decide (selected = []) then Some (s, [Text "No markers selected to snap"])
  else if bool_decide (project_bpm s ≤ 0)
  then Some (s, [Text "No BPM set - cannot snap to beat"])
  else
    grid ← generate_beat_grid (project_bpm s) (project_duration s) subdivision;
    if bool_decide (len grid = 0)%Z then Some (s, [Text "No grid positions available"])
    else
      let new_times := map (λ r, snap_to_grid (time (deref (heap s) r)) grid) selected in
      let moved_count :=
        len (filter (λ r, Q2Qc (1 # 1000)
                          < Qc_abs (snap_to_grid (time (deref (heap s) r)) grid
                                    - time (deref (heap s) r)))
                    selected) in
      if bool_decide (moved_count = 0)%Z
      then Some (s, [Text "All selected markers already on grid"])
      else
        let cmd := new_SnapNotesCommand (heap s) selected new_times in
        s' ← History_execute cmd s;
        let sub_label :=
          if bool_decide (subdivision = 1)%Z then [Text "whole beat"]
          else if bool_decide (subdivision = 2)%Z then [Text "1/2 beat"]
          else [Text "1/"; Int subdivision; Text " beat"] in
        Some (s', [Text "Snapped "; Int moved_count; Text " marker(s) to "] ++ sub_label).

(** ** ui/timeline.py: moving the selection with the keyboard *)

(** [max(a, b)] and [min(a, b)] of two numbers: the first of the two when
    they compare equal. *)
Definition py_max (a b : Qc) : Qc := if bool_decide (a < b) then b else a.

Definition py_min (a b : Qc) : Qc := if bool_decide (b < a) then b else a.

(** [LANES.index(note.type) if note.type in LANES else 0] *)
Definition lane_index (ty : string) : Z :=
  if bool_decide (ty ∈ LANES)
  then Z.of_nat (default 0%nat (fst <$> list_find (λ lane, lane = ty) LANES))
  else 0%Z.

(** The lane [direction] lanes further, clamped to the range of lanes. *)
Definition shifted_lane (direction : Z) (ty : string) : string :=
  let new_lane_index := (lane_index ty + direction)%Z in
  let new_lane_index := Z.max 0 (Z.min new_lane_index (len LANES - 1)) in
  default ""%string (LANES !! Z.to_nat new_lane_index).

(** [_move_selection_to_lane]; [None] when [History.execute] raises. *)
Definition _move_selection_to_lane (direction : Z) (s : Session) : option Session :=
  let selected := get_selected_notes (heap s) (beatmap s) in
  if bool_decide (selected = []) then Some s
  else
    let new_types := map (λ r, shifted_lane direction (type (deref (heap s) r))) selected in
    if forallb (λ '(r, new_type), bool_decide (type (deref (heap s) r) = new_type))
               (zip selected new_types)
    then Some s
    else
      let cmd :=
        new_MoveNotesCommand (heap s) selected None (Some new_types)
          ("Move " +:+ pretty (len selected) +:+ " notes "
           +:+ (if bool_decide (direction < 0)%Z then "up" else "down") +:+ " lane") in
      History_execute cmd s.

(** The grid step of the keyboard moves: a sixteenth of a beat, or 100 ms
    without a tempo. *)
Definition keyboard_grid_step (s : Session) : Qc :=
  if bool_decide (0 < project_bpm s) then Qc_of_Z 60 / project_bpm s / Qc_of_Z 16
  else Q2Qc (1 # 10).

(** [max(0, min(new_time, self.project.duration))] *)
Definition clamp_time (s : Session) (new_time : Qc) : Qc :=
  py_max 0 (py_min new_time (project_duration s)).

(** [_move_selected_markers]; [shift_down] is the answer of
    [is_shift_down()]. *)
Definition _move_selected_markers (direction : Z) (shift_down : bool) (s : Session)
    : option Session :=
  let selected := get_selected_notes (heap s) (beatmap s) in
  if bool_decide (selected = []) then Some s
  else
    let steps := if shift_down then 4%Z else 1%Z in
    let time_delta := Qc_of_Z (direction * steps)%Z * keyboard_grid_step s in
    let new_times :=
      map (λ r, py_round (clamp_time s (time (deref (heap s) r) + time_delta)) 3) selected in
    let cmd :=
      new_MoveNotesCommand (heap s) selected (Some new_times) None
        ("Move " +:+ pretty (len selected) +:+ " notes "
         +:+ (if bool_decide (direction < 0)%Z then "left" else "right")) in
    History_execute cmd s.

(** [_snap_selection_to_beat] *)
Definition _snap_selection_to_beat (direction : Z) (s : Session) : option Session :=
  let selected := get_selected_notes (heap s) (beatmap s) in
  if bool_decide (selected = []) then Some s
  else if bool_decide (project_bpm s ≤ 0) then Some s
  else
    let beat_duration := Qc_of_Z 60 / project_bpm s in
    let quarter_beat := beat_duration / Qc_of_Z 4 in
    let new_times :=
      map (λ r,
             let snapped_time :=
               Qc_of_Z (round_half_even (this (time (deref (heap s) r) / quarter_beat)))
               * quarter_beat in
             let new_time := snapped_time + Qc_of_Z direction * quarter_beat in
             py_round (clamp_time s new_time) 3)
          selected in
    let cmd :=
      new_MoveNotesCommand (heap s) selected (Some new_times) None
        ("Snap and move " +:+ pretty (len selected) +:+ " notes "
         +:+ (if bool_decide (direction < 0)%Z then "left" else "right")) in
    History_execute cmd s.

(** ** ui/app.py: adding markers and setting levels *)

(** [_set_selected_level]; [text_input_focused] is the answer of
    [is_text_input_focused()]. *)
Definition _set_selected_level (text_input_focused : bool) (lv : Z) (s : Session)
    : option (Session * option Description) :=
  if text_input_focused then Some (s, None)
  else
    let selected := get_selected_notes (heap s) (beatmap s) in
    if bool_decide (selected = []) then Some (s, None)
    else
      let cmd := new_ChangeLevelsCommand (heap s) selected lv in
      s' ← History_execute cmd s;
      Some (s', Some [Text "Set "; Int (len selected); Text " marker(s) to level "; Int lv]).

(** [_on_add_marker]: the time is snapped to the 1/16 grid when a tempo is
    set; [None] when the [Note] constructor or [History.execute] raises. *)
Definition _on_add_marker (t : Qc) (lane_type : string) (s : Session)
    : option (Session * Description) :=
  t ← (if bool_decide (0 < project_bpm s) then
         grid ← generate_beat_grid (project_bpm s) (project_duration s)
                  SUBDIVISION_SIXTEENTH;
         Some (snap_to_grid t grid)
       else Some t);
  n ← Note_new (py_round t 3) 1 lane_type;
  let '(h1, note) := alloc (heap s) n in
  s' ← History_execute (new_AddNoteCommand note) (mkSession h1 (beatmap s) (history s));
  Some (s', [Text "Added "; Text lane_type; Text " marker at "; Float3 t; Text "s"]).

Definition _on_insert_marker_at_playhead (playhead : Qc) (s : Session)
    : option (Session * Description) :=
  _on_add_marker playhead "base" s.

(** The loop of [_on_insert_beat_markers] over the grid times: a time
    whose rounding is not among the existing times gets a new note and
    joins the existing times; [None] is the [ValueError] of the [Note]
    constructor. *)
Definition insert_markers_loop (lane_type : string) (lv : Z) (grid : list Qc)
    (h : Heap) (existing_times : gset Qc) : option (Heap * gset Qc * list ref) :=
  foldl (λ acc time,
           '(h, existing_times, notes_to_add) ← acc;
           let snapped_time := py_round time 3 in
           if bool_decide (snapped_time ∈ existing_times)
           then Some (h, existing_times, notes_to_add)
           else
             n ← Note_new snapped_time lv lane_type;
             let '(h1, note) := alloc h n in
             Some (h1, {[snapped_time]} ∪ existing_times, notes_to_add ++ [note]))
        (Some (h, existing_times, [])) grid.

(** The grid of [_on_insert_beat_markers]; [None] is the
    [ZeroDivisionError] of an interval of zero beats. *)
Definition insert_markers_grid (beats_interval : Qc) (start_from_playhead : bool)
    (playhead : Qc) (s : Session) : option (list Qc) :=
  let beat_duration := Qc_of_Z 60 / project_bpm s in
  let interval_duration := beat_duration * beats_interval in
  if bool_decide (interval_duration = 0) then None
  else
    let start_time :=
      if start_from_playhead then
        let grid_index := py_int (playhead / interval_duration) in
        let start_time := Qc_of_Z grid_index * interval_duration in
        if bool_decide (start_time < playhead) then start_time + interval_duration
        else start_time
      else 0 in
    let num_markers :=
      Qceiling (this ((project_duration s - start_time) / interval_duration)) in
    let grid := map (λ i, start_time + Qc_of_Z (Z.of_nat i) * interval_duration)
                    (seq 0 (Z.to_nat num_markers)) in
    Some (filter (λ t, t < project_duration s) grid).

(** [_on_insert_beat_markers]: the new session and the number of markers
    added, as the status message reports it ([None] with the message that no
    audio is loaded); the text of the status message, which formats floats,
    is left out.  The outer [None] is an exception: the
    [ZeroDivisionError] of an interval of zero beats, the [ValueError] of the
    [Note] constructor, or the [IndexError] of [History.execute]. *)
Definition _on_insert_beat_markers (lane_type : string) (beats_interval : Qc) (lv : Z)
    (start_from_playhead : bool) (playhead : Qc) (s : Session)
    : option (Session * option Z) :=
  if bool_decide (project_bpm s ≤ 0) || bool_decide (project_duration s ≤ 0)
  then Some (s, None)
  else
    grid ← insert_markers_grid beats_interval start_from_playhead playhead s;
    let existing_times : gset Qc :=
      list_to_set (map (λ r, py_round (time (deref (heap s) r)) 3)
                       (filter (λ r, type (deref (heap s) r) = lane_type)
                               (_notes (beatmap s)))) in
    let h1 := clear_selection (heap s) (beatmap s) in
    '(h2, _, notes_to_add) ← insert_markers_loop lane_type lv grid h1 existing_times;
    if bool_decide (notes_to_add = [])
    then Some (mkSession h2 (beatmap s) (history s), Some 0%Z)
    else
      s' ← History_execute (new_AddNotesCommand notes_to_add)
             (mkSession h2 (beatmap s) (history s));
      let h3 := foldl (λ h r, set_selected h r true) (heap s') notes_to_add in
      Some (mkSession h3 (beatmap s') (history s'), Some (len notes_to_add)).

(** ** Concrete sessions, for the examples *)

(** A heap without objects (the content of unallocated cells is immaterial). *)
Definition Heap_empty : Heap := mkHeap (λ _, mkNote 0 1 "base" false) 0%nat.

Definition Session_new (max_size : Z) : Session :=
  mkSession Heap_empty (Beatmap_new None) (History_new max_size).

(** A new note object of the session (the [Note] constructor, without its
    validation). *)
Definition Session_note (s : Session) (t : Qc) (lv : Z) (ty : string) : Session * ref :=
  let '(h, r) := alloc (heap s) (mkNote t lv ty false) in
  (mkSession h (beatmap s) (history s), r).

Definition execute_all (cmds : list Command) (s : Session) : option Session :=
  foldl (λ acc cmd, s ← acc; History_execute cmd s) (Some s) cmds.

(** [n] calls of [History.undo], with the descriptions they return. *)
Fixpoint undo_times (n : nat) (s : Session) : Session * list (option Description) :=
  match n with
  | O => (s, [])
  | S n' =>
      let '(s1, d) := History_undo s in
      let '(s2, ds) := undo_times n' s1 in
      (s2, d :: ds)
  end.


(** ** Notions used to state the properties *)

(** *** Decidable equalities, and statements decided by computation *)

#[global] Instance NoteDict_eq_dec : EqDecision NoteDict.
Proof. solve_decision. Defined.

#[global] Instance MetaDict_eq_dec : EqDecision MetaDict.
Proof. solve_decision. Defined.

#[global] Instance BeatmapDict_eq_dec : EqDecision BeatmapDict.
Proof. solve_decision. Defined.

#[global] Instance Piece_eq_dec : EqDecision Piece.
Proof. solve_decision. Defined.

(** A closed statement decided by computation. *)
Ltac by_computation := apply (bool_decide_unpack _); vm_compute; exact I.

(** *** Notes as values *)

(** A note as the equality of notes sees it. *)
Definition Key : Type := Qc * Z * string.

Definition key_time (k : Key) : Qc := k.1.1.

Definition key_level (k : Key) : Z := k.1.2.

(** The stable sort by time, on the values of the notes. *)
Fixpoint insert_key (x : Key) (l : list Key) : list Key :=
  match l with
  | [] => [x]
  | y :: l' =>
      if bool_decide (key_time x ≤ key_time y) then x :: y :: l' else y :: insert_key x l'
  end.

Definition sort_keys (l : list Key) : list Key := foldr insert_key [] l.

(** The removal of the first occurrence of a value. *)
Fixpoint remove_first (k : Key) (l : list Key) : list Key :=
  match l with
  | [] => []
  | y :: l' => if bool_decide (k = y) then l' else y :: remove_first k l'
  end.

(** The removal, one after the other, of the first occurrences of values. *)
Definition remove_keys (l : list Key) (ks : list Key) : list Key :=
  foldl (λ l k, remove_first k l) l ks.

(** The number of occurrences of a value. *)
Definition count (k : Key) (l : list Key) : nat := length (filter (λ y, y = k) l).

Definition round_key (k : Key) : Key := (py_round (key_time k) 3, key_level k, k.2).

(** A note as its persistent form shows it. *)
Definition key_to_dict (k : Key) : NoteDict :=
  mkNoteDict (py_round (key_time k) 3) (key_level k) k.2.

(** *** Heaps and note sequences *)

(** The note sequence of a beatmap is sorted ascending by time. *)
Definition time_sorted (h : Heap) (l : list ref) : Prop :=
  Sorted Qcle (note_times h l).

(** The state of a beatmap and its notes is sorted by time. *)
Definition sorted_state (s : Heap * Beatmap) : Prop := time_sorted s.1 (_notes s.2).

(** Every reference of the list designates an allocated object. *)
Definition allocated (h : Heap) (l : list ref) : Prop :=
  Forall (λ r, (r < next_ref h)%nat) l.

(** Two heaps hold the same notes. *)
Definition heap_eq (h1 h2 : Heap) : Prop := ∀ r, deref h1 r = deref h2 r.

(** The heap [h2] differs from [h] at most in one field (the one that [put]
    writes) of the notes [rs]. *)
Definition differs_in {V} (put : V → Note → Note) (h h2 : Heap) (rs : list ref) : Prop :=
  (∀ x, ∃ v, deref h2 x = put v (deref h x)) ∧ (∀ x, x ∉ rs → deref h2 x = deref h x).

Definition put_level (lv : Z) (n : Note) : Note := mkNote (time n) lv (type n) (selected n).

Definition put_time (t : Qc) (n : Note) : Note := mkNote t (level n) (type n) (selected n).

Definition put_time_type (v : Qc * string) (n : Note) : Note :=
  mkNote v.1 (level n) v.2 (selected n).

(** *** The persistent form *)

(** The note that a dictionary describes, as it is written. *)
Definition note_of_dict (d : NoteDict) : Note :=
  mkNote (d_time d) (d_level d) (d_type d) false.

(** The beatmap that a persistent form describes, every note as it is
    written: one new object per entry, in stable time order. *)
Definition beatmap_of_dict (h : Heap) (d : BeatmapDict) : Heap * Beatmap :=
  let '(h', rs) := alloc_notes h (map note_of_dict (default [] (d_notes d))) in
  (h', mkBeatmap (BeatmapMeta_from_dict (default empty_MetaDict (d_meta d)))
         (sort_by_time h' rs) false).

(** The note passes the validation of the constructor. *)
Definition valid_note (n : Note) : Prop := level n ∈ [1; 2; 3]%Z ∧ type n ∈ NOTE_TYPES.

Definition valid_dict (d : NoteDict) : Prop := d_level d ∈ [1; 2; 3]%Z ∧ d_type d ∈ NOTE_TYPES.

#[global] Instance valid_note_dec n : Decision (valid_note n).
Proof. unfold valid_note. apply _. Defined.

#[global] Instance valid_dict_dec d : Decision (valid_dict d).
Proof. unfold valid_dict. apply _. Defined.

(** Every note of the list passes the validation of the constructor. *)
Definition valid_notes (h : Heap) (l : list ref) : Prop :=
  Forall (λ r, valid_note (deref h r)) l.

(** The beatmap read back from its own persistent form; [None] when
    [Beatmap.from_dict] raises. *)
Definition round_trip (h : Heap) (b : Beatmap) : option (Heap * Beatmap) :=
  Beatmap_from_dict h (Beatmap_to_dict h b).

(** The persistent form of the beatmap read back. *)
Definition round_trip_dict (h : Heap) (b : Beatmap) : option BeatmapDict :=
  '(h', b') ← round_trip h b; Some (Beatmap_to_dict h' b').



(** *** Peaks *)


(** Strictly ascending times: every time is less than every later one. *)
Definition strictly_ascending (l : list Qc) : Prop := StronglySorted Qclt l.

(** All the samples of an envelope are equal. *)
Definition constant (l : list Qc) : Prop := ∀ a b, a ∈ l → b ∈ l → a = b.

(** The time of the sample of index [k]. *)
Definition sample_time (num_samples : Z) (duration : Qc) (k : nat) : Qc :=
  Qc_of_Z (Z.of_nat k) / Qc_of_Z num_samples * duration.

(** The sample indices of two peaks accepted one after the other, the later
    one first. *)
Definition index_gap (min_gap_samples : Z) (a b : nat) : Prop :=
  (b < a)%nat ∧ (min_gap_samples ≤ Z.of_nat a - Z.of_nat b)%Z.

(** *** The duplicate clean-up *)

(** The note of a group that the clean-up keeps, in the words of the
    specification: the one of lowest level, the first one if levels tie. *)
Fixpoint lowest_level_first (g : list Key) : option Key :=
  match g with
  | [] => None
  | x :: g' =>
      match lowest_level_first g' with
      | None => Some x
      | Some y => if bool_decide (key_level x ≤ key_level y)%Z then Some x else Some y
      end
  end.

(** The notes of a sequence that share the rounded time [t]. *)
Definition group_of (t : Qc) (l : list Key) : list Key :=
  filter (λ k, py_round (key_time k) 3 = t) l.

(** The notes of a group, in an insertion-ordered dictionary of groups. *)
Definition members (key : Qc) (groups : list (Qc * list ref)) : list ref :=
  default [] (snd <$> find (λ p, bool_decide (p.1 = key)) groups).

(** The notes that the clean-up marks in a dictionary of groups: all but the
    first of each group sorted by level. *)
Definition marked (h : Heap) (groups : list (Qc * list ref)) : list ref :=
  concat (map (λ p, tail (sort_by_level h p.2)) groups).

(** *** Runs of commands *)

(** The commands that add or remove notes without changing a note in place. *)
Definition adds_or_removes (c : Command) : bool :=
  match c with
  | AddNoteCommand _ | AddNotesCommand _ | RemoveNoteCommand _
  | RemoveNotesCommand _ | CleanupDuplicatesCommand _ => true
  | _ => false
  end.

(** Every note that the command is to remove is found in the list when its
    turn comes. *)
Fixpoint all_found (h : Heap) (l : list ref) (notes : list ref) : bool :=
  match notes with
  | [] => true
  | n :: notes' => contains h l n && all_found h (list_remove h l n) notes'
  end.

Definition removes_present (h : Heap) (b : Beatmap) (c : Command) : bool :=
  match c with
  | RemoveNoteCommand note => contains h (_notes b) note
  | RemoveNotesCommand notes | CleanupDuplicatesCommand notes => all_found h (_notes b) notes
  | _ => true
  end.


(** The commands that edit notes in place. *)
Definition edits_in_place (c : Command) : bool :=
  match c with
  | MoveNoteCommand _ _ _ _ _ | ChangeLevelCommand _ _ _ | ChangeLevelsCommand _ _ _
  | SnapNotesCommand _ _ _ | MoveNotesCommand _ _ _ _ _ _ => true
  | _ => false
  end.

(** The old values that the command holds are the values of its notes in the
    heap: the command is as its constructor builds it on this heap. *)
Definition built_on (h : Heap) (c : Command) : bool :=
  match c with
  | MoveNoteCommand note old_time _ old_type _ =>
      bool_decide (old_time = time (deref h note) ∧ old_type = type (deref h note))
  | ChangeLevelCommand note old_level _ => bool_decide (old_level = level (deref h note))
  | ChangeLevelsCommand notes old_levels _ =>
      bool_decide (old_levels = map (λ r, level (deref h r)) notes)
  | SnapNotesCommand notes old_times _ =>
      bool_decide (old_times = map (λ r, time (deref h r)) notes)
  | MoveNotesCommand notes old_times old_types _ _ _ =>
      bool_decide (old_times = map (λ r, time (deref h r)) notes
                   ∧ old_types = map (λ r, type (deref h r)) notes)
  | _ => true
  end.


(** *** Examples *)

(** The beatmap of the clean-up example: two notes at time 1.000 in the lane
    base, the first of level 2, the second of level 1. *)
Definition two_notes_session : Session :=
  let '(s1, n1) := Session_note (Session_new MAX_HISTORY_SIZE) 1 2 "base" in
  let '(s2, n2) := Session_note s1 1 1 "base" in
  mkSession (heap s2) (add_note (heap s2) (add_note (heap s2) (beatmap s2) n1) n2)
    (history s2).

(** A beatmap with one note, at 1/32 s. *)
Definition one_note_session : Session :=
  let '(s1, n1) := Session_note (Session_new MAX_HISTORY_SIZE) (Q2Qc (1 # 32)) 1 "base" in
  mkSession (heap s1) (add_note (heap s1) (beatmap s1) n1) (history s1).




(** A session with notes at the times 1 and 2, and a run of two commands on
    it: the removal of the first note, then the addition of a note at time 3. *)
Definition add_remove_example : Session * list Command :=
  let '(s1, n1) := Session_note (Session_new MAX_HISTORY_SIZE) 1 1 "base" in
  let '(s2, n2) := Session_note s1 (Qc_of_Z 2) 2 "drum" in
  let '(s3, n3) := Session_note s2 (Qc_of_Z 3) 3 "bass" in
  let b := add_note (heap s3) (add_note (heap s3) (beatmap s3) n1) n2 in
  match new_RemoveNoteCommand (heap s3) n1 with
  | Some (h, c) => (mkSession h b (history s3), [c; AddNoteCommand n3])
  | None => (mkSession (heap s3) b (history s3), [])
  end.


(** An envelope with two spikes, [[0, 10, 0, 10, 0]]. *)
Definition two_spikes : option WaveformData :=
  Some (mkWaveformData None None (Some (map Qc_of_Z [0; 10; 0; 10; 0]%Z))).

(** The envelope of the specification's example,
    [[0,0,0,10,10,10,0,0,0,10,10,10,0]]. *)
Definition two_plateaus : option WaveformData :=
  Some (mkWaveformData None None
          (Some (map Qc_of_Z [0; 0; 0; 10; 10; 10; 0; 0; 0; 10; 10; 10; 0]%Z))).

(** The pattern editor opened on the two notes at time 1, with the single
    grid time 1. *)
Definition opened_example : Heap * PatternEditor * bool :=
  default (heap two_notes_session, PatternEditor_new, false)
    (open (heap two_notes_session) PatternEditor_new
       (_notes (beatmap two_notes_session)) [1]).

(** A lane with markers at 0, 2, 4 and 6 s over 8 s: the pattern "oxox"
    twice, with grid step 1 s.  The first occurrence is selected and opened
    in the editor, with all callbacks set, then its second slot is switched
    on, which adds a marker at 1 s. *)
Definition pattern_example : Heap * Beatmap * PatternEditor :=
  let h := foldl (λ h t, (alloc h (mkNote (Qc_of_Z t) 1 "base" false)).1)
                 Heap_empty [0; 2; 4; 6]%Z in
  let b := mkBeatmap (mkBeatmapMeta BEATMAP_VERSION "" "" "" 0 (Qc_of_Z 60) (Qc_of_Z 8))
             [0; 1; 2; 3]%nat false in
  let pe0 := mkPatternEditor [] [] None 1 [] "" 0 false true true true in
  default (h, b, pe0)
    ('(h1, pe, _) ← open h pe0 [0; 1]%nat (map Qc_of_Z [0; 1; 2; 3]%Z);
     _toggle_slot h1 b pe 1).

(** *** Notions used to state the further properties *)

(** The condition under which [select_notes_in_range] selects a note. *)
Definition in_selection_range (h : Heap) (start_time end_time : Qc)
    (note_type : option string) (r : ref) : Prop :=
  start_time ≤ time (deref h r) ∧ time (deref h r) ≤ end_time
  ∧ match note_type with
    | None => True
    | Some ty => type (deref h r) = ty
    end.

#[global] Instance in_selection_range_dec h s e ty r :
  Decision (in_selection_range h s e ty r).
Proof. unfold in_selection_range. destruct ty; apply _. Defined.

(** The command is one for which undo takes back what execute did, on the
    state [(h, b)]: it adds notes or removes notes that are there, or it
    edits in place the notes whose old values it holds. *)
Definition reversible_on (h : Heap) (b : Beatmap) (c : Command) : bool :=
  adds_or_removes c && removes_present h b c || edits_in_place c && built_on h c.

(** The duration of one subdivision of a beat. *)
Definition subdivision_duration (bpm : Qc) (subdivision : Z) : Qc :=
  Qc_of_Z 60 / bpm / Qc_of_Z subdivision.

(** The threshold that [detect_peaks] derives from a percentage: that
    percentage of the range of the envelope, above its minimum. *)
Definition threshold_of (rms : list Qc) (percent : Qc) : Qc :=
  match rms with
  | [] => 0
  | x :: rest =>
      list_min x rest + (list_max x rest - list_min x rest) * percent / Qc_of_Z 100
  end.

(** The sample of index [k] is the peak of a region of the envelope, as the
    forward search of [detect_peaks] finds it: the region is a run [lo .. hi - 1]
    of samples at or above the threshold that cannot be extended to the right
    (it ends with the envelope or before a sample below the threshold) and
    that begins where the detector, armed, meets the threshold (at the first
    sample, or after a sample below the threshold or below the re-arm
    threshold); the sample [k] is the first maximum of the region. *)
Definition region_peak (rms : list Qc) (threshold rearm_threshold : Qc) (k : nat) : Prop :=
  ∃ lo hi v,
    (lo ≤ k < hi)%nat ∧ (hi ≤ length rms)%nat ∧ rms !! k = Some v
    ∧ (∀ m w, (lo ≤ m < hi)%nat → rms !! m = Some w → threshold ≤ w ∧ w ≤ v)
    ∧ (∀ m w, (lo ≤ m < k)%nat → rms !! m = Some w → w < v)
    ∧ (∀ w, rms !! hi = Some w → w < threshold)
    ∧ (∀ w, lo ≠ 0%nat → rms !! (lo - 1)%nat = Some w →
            w < threshold ∨ w < rearm_threshold).

(** Between the samples of indices [b] and [a], the envelope falls below the
    re-arm threshold. *)
Definition dips_between (rms : list Qc) (rearm_threshold : Qc) (a b : nat) : Prop :=
  ∃ m v, (b < m < a)%nat ∧ rms !! m = Some v ∧ v < rearm_threshold.

(** The two notes at time 1, both selected. *)
Definition both_selected_session : Session :=
  let s := two_notes_session in
  mkSession (select_notes_in_range (heap s) (beatmap s) 0 (Qc_of_Z 2) None)
    (beatmap s) (history s).

(** [n] double clicks on the same marker. *)
Fixpoint double_clicks (n : nat) (note : ref) (s : Session) : option Session :=
  match n with
  | O => Some s
  | S n' => s' ← fst <$> _on_marker_double_click note s; double_clicks n' note s'
  end.

(** A note of the list is moved by a snap to the grid, by more than the
    millisecond that [_on_snap_selection] tolerates. *)
Definition moved_by_snap (h : Heap) (grid : list Qc) (r : ref) : Prop :=
  Q2Qc (1 # 1000) < Qc_abs (snap_to_grid (time (deref h r)) grid - time (deref h r)).

(** A session with the tempo 120 and the duration 4 s, and one selected note
    at 0.3 s. *)
Definition off_grid_session : Session :=
  let '(h, r) := alloc Heap_empty (mkNote (Q2Qc (3 # 10)) 1 "base" true) in
  mkSession h
    (mkBeatmap (mkBeatmapMeta BEATMAP_VERSION "" "" "" 0 (Qc_of_Z 120) (Qc_of_Z 4)) [r] false)
    (History_new MAX_HISTORY_SIZE).

(** What a keyboard move of the selection leaves: the selected notes of [s]
    have in [s'] a time with three decimals between 0 and the (rounded)
    duration, nothing else of any note is changed. *)
Definition moved_within_duration (s s' : Session) : Prop :=
  ∀ r,
    if decide (r ∈ get_selected_notes (heap s) (beatmap s))
    then
      deref (heap s') r = put_time (time (deref (heap s') r)) (deref (heap s) r)
      ∧ 0 ≤ time (deref (heap s') r)
      ∧ time (deref (heap s') r) ≤ py_round (py_max 0 (project_duration s)) 3
      ∧ py_round (time (deref (heap s') r)) 3 = time (deref (heap s') r)
    else deref (heap s') r = deref (heap s) r.

(** The session of the selection examples, with the tempo 120 and the
    duration 4 s. *)
Definition timed_selection_session : Session :=
  let s := both_selected_session in
  mkSession (heap s)
    (mkBeatmap (mkBeatmapMeta BEATMAP_VERSION "" "" "" 0 (Qc_of_Z 120) (Qc_of_Z 4))
       (_notes (beatmap s)) false)
    (history s).



(** *** The pattern editor *)

(** The slots clicked one after the other; [None] when a click raises. *)
Definition toggle_slots (idxs : list nat) (st : Heap * Beatmap * PatternEditor)
    : option (Heap * Beatmap * PatternEditor) :=
  foldl (λ acc i, '(h, b, pe) ← acc; _toggle_slot h b pe i) (Some st) idxs.

(** The slots of the editor that were switched on, and those that were
    switched off. *)
Definition switched_on (pe : PatternEditor) : list PatternSlot :=
  filter (λ sl, has_marker sl = true ∧ original_marker sl = false) (pattern_slots pe).

Definition switched_off (pe : PatternEditor) : list PatternSlot :=
  filter (λ sl, has_marker sl = false ∧ original_marker sl = true) (pattern_slots pe).

(** The notes that an apply is to report as added: for every slot switched
    on, a note at the time of the slot, of the level and the lane of the
    editor. *)
Definition added_keys (pe : PatternEditor) : list Key :=
  map (λ sl, (slot_time sl, pe_level pe, default ""%string (pe_lane_type pe)))
      (switched_on pe).

(** A slot of the editor between two live previews: a slot without marker
    refers to no note, and a slot switched on refers to the note that the
    preview made for it. *)
Definition slot_ok (h : Heap) (lv : Z) (lane : string) (sl : PatternSlot) : Prop :=
  (has_marker sl = false → slot_note sl = None)
  ∧ (has_marker sl = true → original_marker sl = false →
     ∃ n, slot_note sl = Some n ∧ (n < next_ref h)%nat
          ∧ note_key (deref h n) = (slot_time sl, lv, lane)).

(** What does not change in a slot. *)
Definition same_slot (sl sl' : PatternSlot) : Prop :=
  slot_time sl' = slot_time sl ∧ original_marker sl' = original_marker sl.

(** What the first loop of the live preview does to a slot: a slot without
    marker loses its note. *)
Definition clear_off (sl : PatternSlot) : PatternSlot :=
  match slot_note sl with
  | Some n =>
      if negb (has_marker sl)
      then mkPatternSlot (slot_time sl) (has_marker sl) (original_marker sl) None
      else sl
  | None => sl
  end.

(** What the second loop of the live preview does to a slot: a slot with a
    marker and without note gets a new note, at the time of the slot. *)
Definition filled (lv : Z) (lane : string) (h h' : Heap) (sl sl' : PatternSlot) : Prop :=
  slot_time sl' = slot_time sl ∧ has_marker sl' = has_marker sl
  ∧ original_marker sl' = original_marker sl
  ∧ if has_marker sl && bool_decide (slot_note sl = None)
    then ∃ n, slot_note sl' = Some n ∧ (next_ref h ≤ n < next_ref h')%nat
              ∧ note_key (deref h' n) = (slot_time sl, lv, lane)
    else slot_note sl' = slot_note sl.


(** A slot as a click leaves it, before the live preview: a note to which a
    slot switched on refers is the note that an earlier preview made. *)
Definition slot_pre (h : Heap) (lv : Z) (lane : string) (sl : PatternSlot) : Prop :=
  has_marker sl = true → original_marker sl = false →
  ∀ n, slot_note sl = Some n →
       (n < next_ref h)%nat ∧ note_key (deref h n) = (slot_time sl, lv, lane).

(** The heap [h'] holds the objects of [h], unchanged, and maybe more. *)
Definition extends (h h' : Heap) : Prop :=
  (next_ref h ≤ next_ref h')%nat ∧ ∀ r, (r < next_ref h)%nat → deref h' r = deref h r.

(** The slots that [open] builds: one for each grid time, in ascending
    order, at the grid time rounded to the millisecond. *)
Definition opened_slots (h : Heap) (selected : list ref) (grid_times : list Qc)
    : list PatternSlot :=
  map (λ grid_time,
         let rounded_time := py_round grid_time 3 in
         let marker :=
           bool_decide (rounded_time ∈ map (λ n, py_round (time (deref h n)) 3) selected) in
         mkPatternSlot rounded_time marker marker
           (find (λ n, bool_decide (py_round (time (deref h n)) 3 = rounded_time)) selected))
      (sorted_Qc grid_times).

(** The copies [originals], in the heap [h], of the notes [selected] as
    they were in the heap [h0]. *)
Definition originals_of (h0 : Heap) (selected : list ref) (h : Heap) (originals : list ref)
    : Prop :=
  allocated h originals
  ∧ valid_notes h originals
  ∧ Forall2 (λ n o, note_key (deref h o) = note_key (deref h0 n)) selected originals.

(** The first note of the selection that rounds to the time of the slot. *)
Definition slot_original (h : Heap) (selected : list ref) (sl : PatternSlot) : option ref :=
  find (λ n, bool_decide (py_round (time (deref h n)) 3 = py_round (slot_time sl) 3))
       selected.

(** The notes that an apply is to report as removed: for every slot switched
    off, the first note of the selection, as it was when the editor was
    opened on the heap [h], that rounds to the time of the slot. *)
Definition removed_keys (h : Heap) (selected : list ref) (pe : PatternEditor) : list Key :=
  omap (λ sl, (λ n, note_key (deref h n)) <$> slot_original h selected sl)
       (switched_off pe).

(** * Properties *)

(** ** Order on times *)

#[global] Instance Qcle_transitive : Transitive Qcle.
Proof. intros x y z. apply Qcle_trans. Qed.

Lemma Qcle_or_gt (x y : Qc) : x ≤ y ∨ y < x.
Proof. destruct (Qclt_le_dec y x); auto. Qed.

Lemma Qcnot_le_le (x y : Qc) : ¬ x ≤ y → y ≤ x.
Proof. intros H. apply Qclt_le_weak, Qcnot_le_lt, H. Qed.

(** ** Heap updates *)

Lemma deref_update h r n r' :
  deref (update h r n) r' = if (r' =? r)%nat then n else deref h r'.
Proof. reflexivity. Qed.

Lemma time_set_level h r lv x : time (deref (set_level h r lv) x) = time (deref h x).
Proof.
  unfold set_level. rewrite deref_update.
  destruct (Nat.eqb_spec x r) as [->|]; reflexivity.
Qed.

Lemma note_times_ext h h' l :
  (∀ x, time (deref h' x) = time (deref h x)) → note_times h' l = note_times h l.
Proof. intros E. unfold note_times. apply map_ext. intros; apply E. Qed.

Lemma note_times_set_levels h notes levels l :
  note_times (set_levels h notes levels) l = note_times h l.
Proof.
  unfold set_levels. revert h.
  induction (zip notes levels) as [|[r lv] z IH]; intros h; simpl; [done|].
  rewrite IH. apply note_times_ext. intros; apply time_set_level.
Qed.

Lemma note_times_set_level_all h notes lv l :
  note_times (foldl (λ h r, set_level h r lv) h notes) l = note_times h l.
Proof.
  revert h. induction notes as [|r notes IH]; intros h; simpl; [done|].
  rewrite IH. apply note_times_ext. intros; apply time_set_level.
Qed.

(** ** The sort by time *)

Lemma insert_by_time_hd h a x l :
  time (deref h a) ≤ time (deref h x) →
  HdRel Qcle (time (deref h a)) (note_times h l) →
  HdRel Qcle (time (deref h a)) (note_times h (insert_by_time h x l)).
Proof.
  intros Hx Hl. destruct l as [|y l]; simpl; [by constructor|].
  case_bool_decide; simpl; constructor; [done|].
  by inversion Hl.
Qed.

Lemma insert_by_time_sorted h x l :
  time_sorted h l → time_sorted h (insert_by_time h x l).
Proof.
  unfold time_sorted. induction l as [|y l IH]; simpl; intros Hs.
  - repeat constructor.
  - apply Sorted_inv in Hs as [Hs Hhd].
    case_bool_decide as Hle; simpl.
    + constructor; [by constructor|by constructor].
    + constructor; [by apply IH|].
      apply insert_by_time_hd; [by apply Qcnot_le_le|done].
Qed.

Lemma sort_by_time_sorted h l : time_sorted h (sort_by_time h l).
Proof.
  induction l as [|x l IH]; simpl; [constructor|].
  by apply insert_by_time_sorted.
Qed.

Lemma list_remove_sorted h l x : time_sorted h l → time_sorted h (list_remove h l x).
Proof.
  unfold time_sorted. intros Hs. apply Sorted_StronglySorted in Hs; [|apply _].
  apply StronglySorted_Sorted.
  induction l as [|y l IH]; simpl; [constructor|].
  simpl in Hs. apply StronglySorted_inv in Hs as [Hs Hall].
  destruct (same_note h x y); [done|]. simpl.
  constructor; [by apply IH|].
  clear -Hall. induction l as [|z l IH]; simpl in *; [constructor|].
  apply Forall_cons in Hall as [Hz Hall].
  destruct (same_note h x z); [done|]. simpl. constructor; auto.
Qed.

Lemma remove_notes_sorted h b notes :
  time_sorted h (_notes b) → time_sorted h (_notes (remove_notes h b notes)).
Proof.
  unfold remove_notes; simpl. generalize (_notes b) as l.
  induction notes as [|n notes IH]; intros l Hs; simpl; [done|].
  apply IH. destruct (contains h l n); [by apply list_remove_sorted|done].
Qed.

Lemma remove_note_sorted h b note :
  time_sorted h (_notes b) → time_sorted h (_notes (remove_note h b note)).
Proof.
  unfold remove_note. intros Hs.
  destruct (contains h (_notes b) note); [by apply list_remove_sorted|done].
Qed.

Lemma add_notes_sorted h b notes :
  time_sorted h (_notes b) → time_sorted h (_notes (foldl (add_note h) b notes)).
Proof.
  revert b. induction notes as [|n notes IH]; intros b Hs; simpl; [done|].
  apply IH. apply sort_by_time_sorted.
Qed.

(** ** Induction on commands, through the lists of composite commands *)

Lemma Command_nested_ind (P : Command → Prop)
    (Hcomposite : ∀ commands d, Forall P commands → P (CompositeCommand commands d))
    (Hother : ∀ c, (∀ commands d, c ≠ CompositeCommand commands d) → P c) :
  ∀ c, P c.
Proof.
  fix IH 1. intros c. destruct c; try (apply Hother; discriminate).
  apply Hcomposite.
  induction commands as [|c cs IHcs]; constructor; [apply IH|apply IHcs].
Qed.

(** ** Sortedness is kept by every command *)

Lemma pattern_edit_sorted h b adds rems :
  sorted_state
    (let l1 := pattern_remove h (_notes b) rems in
     let '(h', l2) := pattern_append h l1 adds in
     (h', mark_dirty (sort_notes h' (set_list b l2)))).
Proof.
  simpl. destruct (pattern_append _ _ _) as [h' l2].
  unfold sorted_state; simpl. apply sort_by_time_sorted.
Qed.

Lemma execute_sorted c : ∀ s, sorted_state s → sorted_state (execute c s).
Proof.
  induction c as [cs d IH|c Hc] using Command_nested_ind; intros [h b] Hs.
  - simpl. revert h b Hs. induction IH as [|c cs Hc _ IHcs]; intros h b Hs; simpl; [done|].
    specialize (Hc (h, b) Hs). destruct (execute c (h, b)) as [h1 b1]. by apply IHcs.
  - unfold sorted_state in *; simpl in Hs.
    destruct c; simpl; try apply sort_by_time_sorted.
    + by apply add_notes_sorted.
    + by apply remove_note_sorted.
    + by apply remove_notes_sorted.
    + unfold time_sorted. erewrite note_times_ext; [exact Hs|]. intros; apply time_set_level.
    + unfold time_sorted. by rewrite note_times_set_level_all.
    + by destruct (Hc commands _description).
    + by apply remove_notes_sorted.
    + apply pattern_edit_sorted.
Qed.

Lemma undo_sorted c : ∀ s, sorted_state s → sorted_state (undo c s).
Proof.
  induction c as [cs d IH|c Hc] using Command_nested_ind; intros [h b] Hs.
  - simpl. revert h b Hs. induction IH as [|c cs Hc _ IHcs]; intros h b Hs; simpl; [done|].
    apply Hc. by apply IHcs.
  - unfold sorted_state in *; simpl in Hs.
    destruct c; simpl; try apply sort_by_time_sorted.
    + by apply remove_note_sorted.
    + by apply remove_notes_sorted.
    + by apply add_notes_sorted.
    + unfold time_sorted. erewrite note_times_ext; [exact Hs|]. intros; apply time_set_level.
    + unfold time_sorted. by rewrite note_times_set_levels.
    + by destruct (Hc commands _description).
    + by apply add_notes_sorted.
    + apply pattern_edit_sorted.
Qed.

(** C6: every mutating operation of the beatmap ([add_note], [remove_note],
    [remove_notes], [set_notes], [clear]) and the [execute] and [undo] of
    every command, composite ones included, map a note sequence sorted
    ascending by time to a note sequence sorted ascending by time. *)
Theorem sorted_by_time_is_invariant (h : Heap) (b : Beatmap) :
  time_sorted h (_notes b) →
  (∀ note, time_sorted h (_notes (add_note h b note)))
  ∧ (∀ note, time_sorted h (_notes (remove_note h b note)))
  ∧ (∀ notes, time_sorted h (_notes (remove_notes h b notes)))
  ∧ (∀ notes, time_sorted h (_notes (set_notes h b notes)))
  ∧ time_sorted h (_notes (clear b))
  ∧ (∀ c, time_sorted (execute c (h, b)).1 (_notes (execute c (h, b)).2))
  ∧ (∀ c, time_sorted (undo c (h, b)).1 (_notes (undo c (h, b)).2)).
Proof.
  intros Hs. repeat split; intros.
  - apply sort_by_time_sorted.
  - by apply remove_note_sorted.
  - by apply remove_notes_sorted.
  - apply sort_by_time_sorted.
  - constructor.
  - by apply (execute_sorted c (h, b)).
  - by apply (undo_sorted c (h, b)).
Qed.

Lemma sorted_by_time_is_invariant_witness :
  time_sorted (heap two_notes_session) (_notes (beatmap two_notes_session))
  ∧ ∀ c, time_sorted (execute c (heap two_notes_session, beatmap two_notes_session)).1
           (_notes (execute c (heap two_notes_session, beatmap two_notes_session)).2).
Proof.
  assert (Hs : time_sorted (heap two_notes_session) (_notes (beatmap two_notes_session))).
  { apply (bool_decide_unpack _). vm_compute. exact I. }
  split; [exact Hs|].
  apply (sorted_by_time_is_invariant (heap two_notes_session) (beatmap two_notes_session) Hs).
Defined.

(** ** The dirty flag *)

Lemma remove_absent_notes h l notes :
  Forall (λ n, contains h l n = false) notes →
  foldl (λ l note, if contains h l note then list_remove h l note else l) l notes = l.
Proof.
  induction 1 as [|n notes Hn _ IH]; simpl; [done|]. by rewrite Hn.
Qed.

(** C10: [remove_notes] leaves the dirty flag set whatever the list of notes
    is, also when the list is empty or holds only notes that the beatmap does
    not contain, in which case nothing but the flag changes; [remove_note]
    sets the flag only when it removes a note and otherwise leaves the
    beatmap, flag included, as it is. *)
Theorem remove_notes_always_marks_dirty (h : Heap) (b : Beatmap) (notes : list ref)
    (note : ref) :
  _dirty (remove_notes h b notes) = true
  ∧ remove_notes h b [] = mark_dirty b
  ∧ (Forall (λ n, contains h (_notes b) n = false) notes →
     remove_notes h b notes = mark_dirty b)
  ∧ _dirty (remove_note h b note) = (if contains h (_notes b) note then true else _dirty b)
  ∧ (if contains h (_notes b) note then _notes (remove_note h b note) ≠ _notes b
     else remove_note h b note = b).
Proof.
  split; [done|]. split; [done|]. split.
  { intros Hn. unfold remove_notes, mark_dirty. by rewrite remove_absent_notes. }
  unfold remove_note. destruct (contains h (_notes b) note) eqn:Hc; simpl; [|done].
  split; [done|]. intros Heq. apply (f_equal length) in Heq. revert Heq.
  unfold contains in Hc. induction (_notes b) as [|y l IH]; simpl in *; [done|].
  destruct (same_note h note y); simpl in *; [lia|]. intros Heq. apply IH; [done|lia].
Qed.

Lemma remove_notes_always_marks_dirty_witness :
  _dirty (remove_notes Heap_empty (Beatmap_new None) [0%nat]) = true
  ∧ remove_notes Heap_empty (Beatmap_new None) [0%nat] = mark_dirty (Beatmap_new None).
Proof.
  pose proof (remove_notes_always_marks_dirty Heap_empty (Beatmap_new None) [0%nat] 0%nat)
    as (H1 & _ & H3 & _).
  split; [exact H1|]. apply H3. repeat constructor.
Defined.

(** ** The history *)

Lemma trim_drop (m : nat) (l : list Command) :
  trim (Z.of_nat m) l = Some (drop (length l - m) l).
Proof.
  induction l as [|c l IH]; simpl.
  - rewrite bool_decide_false; [done|]. unfold len; simpl. lia.
  - case_bool_decide as Hlen; unfold len in Hlen; simpl in Hlen.
    + rewrite IH. replace (S (length l) - m)%nat with (S (length l - m)) by lia. done.
    + replace (S (length l) - m)%nat with 0%nat by lia. done.
Qed.

Lemma drop_app_drop {A} (n : nat) (l k : list A) :
  drop (length (drop (length l - n) l ++ k) - n) (drop (length l - n) l ++ k)
  = drop (length (l ++ k) - n) (l ++ k).
Proof.
  rewrite <- (drop_app_le l k) by lia.
  rewrite drop_drop. f_equal. rewrite length_drop, !length_app. lia.
Qed.

Lemma History_execute_Some (N : nat) c s :
  _max_size (history s) = Z.of_nat N →
  History_execute c s
  = Some (run (execute c) s
            (mkHistory (drop (length (_undo_stack (history s) ++ [c]) - N)
                          (_undo_stack (history s) ++ [c])) [] (Z.of_nat N))).
Proof.
  intros HN. unfold History_execute, _trim_stack; simpl.
  rewrite HN, trim_drop. reflexivity.
Qed.

Lemma run_history f s hi : history (run f s hi) = hi.
Proof. unfold run. by destruct (f _). Qed.

Lemma run_state f s hi : (heap (run f s hi), beatmap (run f s hi)) = f (heap s, beatmap s).
Proof. unfold run. by destruct (f _). Qed.

Lemma execute_all_bounded (N : nat) cmds : ∀ s,
  _max_size (history s) = Z.of_nat N →
  (length (_undo_stack (history s)) ≤ N)%nat →
  ∃ s', execute_all cmds s = Some s'
    ∧ _max_size (history s') = Z.of_nat N
    ∧ _undo_stack (history s')
      = drop (length (_undo_stack (history s) ++ cmds) - N) (_undo_stack (history s) ++ cmds)
    ∧ (heap s', beatmap s') = foldl (λ st c, execute c st) (heap s, beatmap s) cmds.
Proof.
  unfold execute_all. induction cmds as [|c cmds IH]; intros s HN Hlen; simpl.
  - exists s. split; [done|]. split; [done|]. split; [|done].
    rewrite app_nil_r. by replace (length (_undo_stack (history s)) - N)%nat with 0%nat by lia.
  - rewrite (History_execute_Some N) by done.
    destruct (IH (run (execute c) s
                (mkHistory (drop (length (_undo_stack (history s) ++ [c]) - N)
                   (_undo_stack (history s) ++ [c])) [] (Z.of_nat N))))
      as (s' & Hs' & Hmax & Hstack & Hst).
    { by rewrite run_history. }
    { rewrite run_history; simpl. rewrite length_drop. lia. }
    exists s'. split; [done|]. split; [done|]. split.
    + rewrite Hstack, run_history; simpl.
      rewrite drop_app_drop. by rewrite <- app_assoc.
    + by rewrite Hst, run_state.
Qed.

Lemma execute_all_Some (N : nat) c cmds s :
  _max_size (history s) = Z.of_nat N →
  ∃ s', execute_all (c :: cmds) s = Some s'
    ∧ _max_size (history s') = Z.of_nat N
    ∧ _undo_stack (history s')
      = drop (length (_undo_stack (history s) ++ c :: cmds) - N)
          (_undo_stack (history s) ++ c :: cmds)
    ∧ (heap s', beatmap s') = foldl (λ st c, execute c st) (heap s, beatmap s) (c :: cmds).
Proof.
  intros HN. unfold execute_all; simpl. rewrite (History_execute_Some N) by done.
  destruct (execute_all_bounded N cmds (run (execute c) s
                (mkHistory (drop (length (_undo_stack (history s) ++ [c]) - N)
                   (_undo_stack (history s) ++ [c])) [] (Z.of_nat N))))
    as (s' & Hs' & Hmax & Hstack & Hst).
  { by rewrite run_history. }
  { rewrite run_history; simpl. rewrite length_drop. lia. }
  exists s'. split; [done|]. split; [done|]. split.
  - rewrite Hstack, run_history; simpl.
    rewrite drop_app_drop. by rewrite <- app_assoc.
  - by rewrite Hst, run_state.
Qed.

Lemma pop_snoc {A} (l : list A) (x : A) : pop (l ++ [x]) = Some (l, x).
Proof. unfold pop. rewrite rev_app_distr; simpl. by rewrite rev_involutive. Qed.

Lemma History_undo_snoc s stack c :
  _undo_stack (history s) = stack ++ [c] →
  ∃ s' d, History_undo s = (s', Some d)
    ∧ _undo_stack (history s') = stack
    ∧ _max_size (history s') = _max_size (history s)
    ∧ (heap s', beatmap s') = undo c (heap s, beatmap s).
Proof.
  intros Hst. unfold History_undo. rewrite Hst, pop_snoc.
  eexists _, _. split; [reflexivity|].
  rewrite run_history, run_state. done.
Qed.

Lemma History_undo_empty s :
  _undo_stack (history s) = [] → History_undo s = (s, None).
Proof. intros Hst. unfold History_undo. by rewrite Hst. Qed.

Lemma undo_times_stack cmds : ∀ pre s,
  _undo_stack (history s) = pre ++ cmds →
  ∃ s' ds, undo_times (length cmds) s = (s', ds)
    ∧ length ds = length cmds ∧ Forall is_Some ds
    ∧ _undo_stack (history s') = pre
    ∧ _max_size (history s') = _max_size (history s)
    ∧ (heap s', beatmap s') = foldr undo (heap s, beatmap s) cmds.
Proof.
  induction cmds as [|c cmds IH] using rev_ind; intros pre s Hst.
  - exists s, []. rewrite app_nil_r in Hst. simpl. by repeat split.
  - rewrite length_app, Nat.add_comm; simpl.
    rewrite app_assoc in Hst.
    destruct (History_undo_snoc s _ c Hst) as (s1 & d & Hu & Hst1 & Hmax1 & Hs1).
    destruct (IH pre s1 Hst1) as (s' & ds & Hus & Hlen & Hall & Hst' & Hmax' & Hs').
    exists s', (Some d :: ds). rewrite Hu, Hus. split; [done|].
    split; [simpl; lia|]. split; [by constructor|]. split; [done|].
    split; [congruence|].
    by rewrite Hs', Hs1, foldr_app.
Qed.

(** C2: with a history of size bound [N], whatever its undo stack holds
    before, after [N + 5] commands executed through [History.execute] the
    undo stack holds the last [N] of them (the five oldest are gone), [undo]
    returns a description [N] times and the call after that returns [None]. *)
Theorem undo_succeeds_exactly_bound_times (N : nat) (cmds : list Command) (s : Session) :
  _max_size (history s) = Z.of_nat N →
  length cmds = (N + 5)%nat →
  ∃ s', execute_all cmds s = Some s'
    ∧ _undo_stack (history s') = drop 5 cmds
    ∧ ∃ ds, (undo_times (S N) s').2 = ds ++ [None]
        ∧ length ds = N ∧ Forall is_Some ds.
Proof.
  intros HN Hlen. destruct cmds as [|c cmds]; [simpl in Hlen; lia|].
  destruct (execute_all_Some N c cmds s HN) as (s' & Hs' & Hmax & Hstack & _).
  assert (Hdrop : _undo_stack (history s') = drop 5 (c :: cmds)).
  { rewrite Hstack, length_app, Hlen.
    replace (length (_undo_stack (history s)) + (N + 5) - N)%nat
      with (length (_undo_stack (history s)) + 5)%nat by lia.
    by rewrite drop_app_add. }
  exists s'. split; [done|]. split; [done|].
  destruct (undo_times_stack (drop 5 (c :: cmds)) [] s' Hdrop)
    as (s2 & ds & Hu & Hl & Hall & Hst2 & _).
  rewrite length_drop, Hlen in Hu, Hl.
  replace (N + 5 - 5)%nat with N in Hu, Hl by lia.
  exists ds. split; [|done].
  replace (S N) with (N + 1)%nat by lia.
  clear -Hu Hst2. revert s' Hu. generalize N as n.
  induction n as [|n IH] in ds |- *; intros s' Hu; simpl in *.
  - injection Hu as -> <-. by rewrite History_undo_empty.
  - destruct (History_undo s') as [s1 d]. 
    destruct (undo_times n s1) as [s3 ds'] eqn:Hn.
    injection Hu as -> <-. specialize (IH _ _ Hn).
    destruct (undo_times (n + 1) s1) as [s4 ds4]. simpl in *. by rewrite IH.
Qed.

Lemma undo_succeeds_exactly_bound_times_witness :
  ∃ s', execute_all (replicate 7 (AddNoteCommand 0%nat)) (Session_new 2) = Some s'
    ∧ _undo_stack (history s') = drop 5 (replicate 7 (AddNoteCommand 0%nat))
    ∧ ∃ ds, (undo_times 3 s').2 = ds ++ [None] ∧ length ds = 2%nat ∧ Forall is_Some ds.
Proof.
  apply (undo_succeeds_exactly_bound_times 2 (replicate 7 (AddNoteCommand 0%nat)) (Session_new 2));
    reflexivity.
Defined.

(** ** The grid *)

Lemma Qc_abs_nonneg (x : Qc) : 0 ≤ Qc_abs x.
Proof.
  unfold Qc_abs. case_bool_decide as H; [done|].
  apply Qcnot_le_lt in H. apply Qclt_le_weak in H.
  apply Qcopp_le_compat in H. by replace (- 0) with 0 in H by ring.
Qed.

Lemma Qc_abs_zero (x : Qc) : Qc_abs x ≤ 0 → x = 0.
Proof.
  unfold Qc_abs. case_bool_decide as H; intros H0.
  - by apply Qcle_antisym.
  - apply Qcnot_le_lt in H. apply Qcopp_le_compat in H0.
    replace (- - x) with x in H0 by ring. replace (- 0) with 0 in H0 by ring.
    exfalso. by apply (Qclt_not_le _ _ H).
Qed.

Lemma Qc_abs_self (x : Qc) : Qc_abs (x - x) = 0.
Proof. replace (x - x) with 0 by ring. reflexivity. Qed.

Lemma argmin_from_spec l : ∀ i bi best,
  ∃ v, (argmin_from l i bi best = bi ∧ v = best
        ∨ ∃ j, argmin_from l i bi best = (i + j)%nat ∧ l !! j = Some v)
    ∧ v ≤ best ∧ Forall (λ y, v ≤ y) l.
Proof.
  induction l as [|x l IH]; intros i bi best; simpl.
  - exists best. split; [by left|]. split; [apply Qcle_refl|constructor].
  - case_bool_decide as Hlt.
    + destruct (IH (S i) i x) as (v & Hv & Hle & Hall).
      exists v. split; [|split].
      * right. destruct Hv as [[-> ->]|(j & -> & Hj)].
        -- exists 0%nat. split; [lia|done].
        -- exists (S j). split; [lia|done].
      * apply Qclt_le_weak. by eapply Qcle_lt_trans.
      * by constructor.
    + destruct (IH (S i) bi best) as (v & Hv & Hle & Hall).
      exists v. split; [|split; [done|]].
      * destruct Hv as [[-> ->]|(j & -> & Hj)]; [by left|].
        right. exists (S j). split; [lia|done].
      * constructor; [|done]. etrans; [exact Hle|]. by apply Qcnot_lt_le.
Qed.

Lemma argmin_spec x l :
  ∃ v, (x :: l) !! argmin (x :: l) = Some v ∧ Forall (λ y, v ≤ y) (x :: l).
Proof.
  unfold argmin. destruct (argmin_from_spec l 1 0 x) as (v & Hv & Hle & Hall).
  exists v. split; [|by constructor].
  destruct Hv as [[-> ->]|(j & -> & Hj)]; done.
Qed.

Lemma snap_to_grid_in t x grid :
  ∃ k, (x :: grid) !! k = Some (snap_to_grid t (x :: grid)).
Proof.
  unfold snap_to_grid. rewrite bool_decide_false by (unfold len; simpl; lia).
  destruct (argmin_spec (Qc_abs (x - t)) (map (λ g, Qc_abs (g - t)) grid)) as (v & Hv & _).
  change (Qc_abs (x - t) :: map (λ g, Qc_abs (g - t)) grid)
    with (map (λ g, Qc_abs (g - t)) (x :: grid)) in *.
  set (k := argmin _) in *. exists k.
  rewrite list_lookup_fmap in Hv. destruct ((x :: grid) !! k) as [g|]; [done|discriminate].
Qed.

(** C8: [snap_to_grid] is idempotent, on every time and every grid, the
    empty one included. *)
Theorem snap_to_grid_idempotent (t : Qc) (grid : list Qc) :
  snap_to_grid (snap_to_grid t grid) grid = snap_to_grid t grid.
Proof.
  destruct grid as [|x grid]; [reflexivity|].
  destruct (snap_to_grid_in t x grid) as (k & Hk).
  set (s := snap_to_grid t (x :: grid)) in *.
  unfold snap_to_grid at 1. rewrite bool_decide_false by (unfold len; simpl; lia).
  destruct (argmin_spec (Qc_abs (x - s)) (map (λ g, Qc_abs (g - s)) grid)) as (v & Hv & Hall).
  change (Qc_abs (x - s) :: map (λ g, Qc_abs (g - s)) grid)
    with (map (λ g, Qc_abs (g - s)) (x :: grid)) in *.
  set (k' := argmin _) in *.
  rewrite list_lookup_fmap in Hv.
  destruct ((x :: grid) !! k') as [g|] eqn:Hg; [|discriminate].
  injection Hv as <-. simpl.
  rewrite Forall_forall in Hall.
  assert (Hle : Qc_abs (g - s) ≤ Qc_abs (s - s)).
  { apply Hall. apply list_elem_of_lookup. exists k.
    by rewrite list_lookup_fmap, Hk. }
  rewrite Qc_abs_self in Hle. apply Qc_abs_zero in Hle.
  replace g with ((g - s) + s) by ring. rewrite Hle. ring.
Qed.

(** ** The peak detector *)

Lemma Qc_of_Z_pos (z : Z) : (0 < z)%Z → 0 < Qc_of_Z z.
Proof. intros H. rewrite <- Z2Qc_inj_0. by apply (proj1 (Z2Qc_inj_lt 0 z)). Qed.

Lemma Qc_of_Z_nonneg (z : Z) : (0 ≤ z)%Z → 0 ≤ Qc_of_Z z.
Proof. intros H. rewrite <- Z2Qc_inj_0. by apply (proj1 (Z2Qc_inj_le 0 z)). Qed.

Lemma Qcdiv_pos (x y : Qc) : 0 < x → 0 < y → 0 < x / y.
Proof. intros Hx Hy. apply Qcmult_pos_pos; [done|by apply Qcinv_pos]. Qed.


(** Truncation toward zero loses less than one. *)
Lemma py_int_gt (x : Qc) : x - 1 < Qc_of_Z (py_int x).
Proof.
  unfold py_int. case_bool_decide as H.
  - apply Qclt_minus_iff. unfold Qclt, Qcplus, Qcminus, Qcopp; simpl.
    rewrite !Qred_correct.
    pose proof (Qlt_floor (this x)) as Hf. rewrite inject_Z_plus in Hf.
    change (inject_Z 1) with 1%Q in Hf. change (this 0) with 0%Q.
    change (this 1) with 1%Q. change (Qfloor x # 1)%Q with (inject_Z (Qfloor x)). lra.
  - apply Qclt_minus_iff. unfold Qclt, Qcplus, Qcminus, Qcopp; simpl.
    rewrite !Qred_correct.
    pose proof (Qle_ceiling (this x)) as Hf.
    change (this 0) with 0%Q. change (this 1) with 1%Q.
    change (Qceiling x # 1)%Q with (inject_Z (Qceiling x)). lra.
Qed.

Lemma peak_region_spec thr rest : ∀ j pv pidx,
  (pidx < j)%nat →
  (pidx ≤ (peak_region thr rest j pv pidx).1.2)%nat
  ∧ ((peak_region thr rest j pv pidx).1.2 < (peak_region thr rest j pv pidx).2)%nat
  ∧ (j ≤ (peak_region thr rest j pv pidx).2)%nat.
Proof.
  induction rest as [|x rest IH]; intros j pv pidx Hlt; simpl; [lia|].
  case_bool_decide; [|simpl; lia].
  case_bool_decide.
  - destruct (IH (S j) x j) as (H1 & H2 & H3); lia.
  - destruct (IH (S j) pv pidx) as (H1 & H2 & H3); lia.
Qed.

Section peak_loop.
Variables (rms : list Qc) (duration threshold rearm_threshold : Qc) (min_gap_samples : Z).

Let peak_time (k : nat) : Qc :=
  Qc_of_Z (Z.of_nat k) / Qc_of_Z (len rms) * duration.

Let loop fuel i armed last peaks :=
  peak_loop fuel rms duration threshold rearm_threshold min_gap_samples i armed last peaks.

(** The loop ends within its fuel; the peaks it appends are the times of
    sample indices that ascend, each at least [min_gap_samples] after the
    one before. *)
Lemma peak_loop_spec fuel : ∀ i armed last accepted,
  (length rms ≤ fuel + i)%nat →
  Sorted (index_gap min_gap_samples) accepted →
  match accepted with
  | [] => True
  | a :: _ => last = Z.of_nat a ∧ (a < i)%nat
  end →
  ∃ more,
    loop fuel i armed last (map peak_time (reverse accepted))
    = Some (map peak_time (reverse (more ++ accepted)))
    ∧ Sorted (index_gap min_gap_samples) (more ++ accepted).
Proof.
  unfold loop.
  induction fuel as [|fuel IH]; intros i armed last accepted Hfuel Hsorted Hlast.
  - exists []. split; [|done]. simpl.
    destruct (rms !! i) eqn:Hi; [|done].
    apply lookup_lt_Some in Hi. lia.
  - simpl. destruct (rms !! i) as [val|] eqn:Hi; [|by exists []].
    apply lookup_lt_Some in Hi.
    destruct armed.
    + case_bool_decide as Hthr.
      * pose proof (peak_region_spec threshold (drop (S i) rms) (S i) val i
                      ltac:(lia)) as (H1 & H2 & H3).
        destruct (peak_region threshold (drop (S i) rms) (S i) val i)
          as [[pv pidx] j]; simpl in H1, H2, H3.
        case_bool_decide as Hgap.
        -- destruct (IH j false (Z.of_nat pidx) (pidx :: accepted)) as (more & Hl & Hs).
           { lia. }
           { constructor; [done|]. destruct accepted as [|a acc]; constructor.
             destruct Hlast as [-> Ha]. split; lia. }
           { split; [done|lia]. }
           exists (more ++ [pidx]). rewrite <- app_assoc. simpl.
           rewrite reverse_cons, map_app in Hl. simpl in Hl. done.
        -- apply IH; [lia|done|]. destruct accepted; [done|]. split; [tauto|lia].
      * apply IH; [lia|done|]. destruct accepted; [done|]. split; [tauto|lia].
    + apply IH; [lia|done|]. destruct accepted; [done|]. split; [tauto|lia].
Qed.

(** When armed and before any peak, the loop accepts the maximum of the
    first region that reaches the threshold. *)
Lemma peak_loop_finds fuel : ∀ i,
  (length rms ≤ fuel + i)%nat →
  (∃ k v, (i ≤ k)%nat ∧ rms !! k = Some v ∧ threshold ≤ v) →
  ∃ l, loop fuel i true (- min_gap_samples) [] = Some l ∧ l ≠ [].
Proof.
  unfold loop. induction fuel as [|fuel IH]; intros i Hfuel (k & v & Hk & Hv & Hthr).
  { apply lookup_lt_Some in Hv. lia. }
  simpl. destruct (rms !! i) as [val|] eqn:Hi.
  2:{ apply lookup_ge_None in Hi. apply lookup_lt_Some in Hv. lia. }
  case_bool_decide as Hval.
  - pose proof (peak_region_spec threshold (drop (S i) rms) (S i) val i
                  ltac:(lia)) as (H1 & H2 & H3).
    destruct (peak_region threshold (drop (S i) rms) (S i) val i)
      as [[pv pidx] j]; simpl in H1, H2, H3.
    rewrite bool_decide_true by lia.
    destruct (peak_loop_spec fuel j false (Z.of_nat pidx) [pidx]) as (more & Hl & _).
    { apply lookup_lt_Some in Hi. lia. }
    { repeat constructor. }
    { split; [done|lia]. }
    unfold loop, peak_time in Hl. simpl in Hl. simpl. rewrite Hl.
    eexists. split; [done|].
    rewrite reverse_app. simpl. done.
  - apply IH; [lia|]. exists k, v. split; [|done].
    destruct (decide (k = i)) as [Heq|]; [|lia]. subst k.
    rewrite Hi in Hv. injection Hv as <-. done.
Qed.


End peak_loop.

Lemma list_max_ge l : ∀ x y, y ∈ x :: l → y ≤ list_max x l.
Proof.
  unfold list_max. induction l as [|z l IH]; intros x y Hy; simpl.
  - apply list_elem_of_singleton in Hy as ->. apply Qcle_refl.
  - case_bool_decide as Hlt.
    + apply elem_of_cons in Hy as [->|Hy]; [|by apply IH].
      etrans; [apply Qclt_le_weak, Hlt|]. apply IH. by left.
    + apply elem_of_cons in Hy as [->|Hy]; [apply IH; by left|].
      apply elem_of_cons in Hy as [->|Hy]; [|apply IH; by right].
      etrans; [apply Qcnot_lt_le, Hlt|]. apply IH. by left.
Qed.

Lemma list_max_in l : ∀ x, list_max x l ∈ x :: l.
Proof.
  unfold list_max. induction l as [|z l IH]; intros x; simpl; [by left|].
  case_bool_decide.
  - right. apply IH.
  - specialize (IH x). apply elem_of_cons in IH as [->|IH]; [by left|by do 2 right].
Qed.

Lemma list_min_le l : ∀ x y, y ∈ x :: l → list_min x l ≤ y.
Proof.
  unfold list_min. induction l as [|z l IH]; intros x y Hy; simpl.
  - apply list_elem_of_singleton in Hy as ->. apply Qcle_refl.
  - case_bool_decide as Hlt.
    + apply elem_of_cons in Hy as [->|Hy]; [|by apply IH].
      etrans; [|apply Qclt_le_weak, Hlt]. apply IH. by left.
    + apply elem_of_cons in Hy as [->|Hy]; [apply IH; by left|].
      apply elem_of_cons in Hy as [->|Hy]; [|apply IH; by right].
      etrans; [|apply Qcnot_lt_le, Hlt]. apply IH. by left.
Qed.

Lemma list_min_in l : ∀ x, list_min x l ∈ x :: l.
Proof.
  unfold list_min. induction l as [|z l IH]; intros x; simpl; [by left|].
  case_bool_decide.
  - right. apply IH.
  - specialize (IH x). apply elem_of_cons in IH as [->|IH]; [by left|by do 2 right].
Qed.

Lemma Qcle_minus_nonpos (x y : Qc) : x - y ≤ 0 ↔ x ≤ y.
Proof.
  rewrite (Qcplus_le_mono_r (x - y) 0 y).
  by replace (x - y + y) with x by ring; rewrite Qcplus_0_l.
Qed.

Lemma constant_range x l : constant (x :: l) ↔ list_max x l - list_min x l ≤ 0.
Proof.
  rewrite Qcle_minus_nonpos. split.
  - intros Hc. rewrite (Hc (list_max x l) (list_min x l)); [apply Qcle_refl| |].
    + apply list_max_in.
    + apply list_min_in.
  - intros Hle a b Ha Hb.
    assert (Heq : ∀ y, y ∈ x :: l → y = list_min x l).
    { intros y Hy. apply Qcle_antisym; [|by apply list_min_le].
      etrans; [by apply list_max_ge|done]. }
    by rewrite (Heq a), (Heq b).
Qed.








(** C3 fails as stated: with duration 0 the envelope [[0, 10, 0, 10, 0]]
    yields the times 0 and 0, which neither ascend strictly nor lie a
    minimum gap of 2.5 s apart. *)
Lemma detect_peaks_zero_duration_not_ascending :
  detect_peaks two_spikes 0 (Qc_of_Z 50) (Q2Qc (5 # 2)) None = Some [0; 0]
  ∧ ¬ strictly_ascending [0; 0]
  ∧ ¬ (Q2Qc (5 # 2) ≤ 0 - 0).
Proof.
  split; [by_computation|]. split; [|by_computation].
  intros Hs. apply StronglySorted_inv in Hs as [_ Hall].
  apply Forall_cons in Hall as [Hlt _]. by apply Qclt_not_eq in Hlt.
Qed.


(** ** Allocation *)

Lemma alloc_spec h n h1 r :
  alloc h n = (h1, r) →
  r = next_ref h ∧ next_ref h1 = S (next_ref h) ∧ deref h1 r = n
  ∧ ∀ r', (r' < next_ref h)%nat → deref h1 r' = deref h r'.
Proof.
  unfold alloc. intros [= <- <-]. unfold deref; simpl.
  rewrite Nat.eqb_refl. repeat split.
  intros r' Hr'. destruct (Nat.eqb_spec r' (next_ref h)); [lia|done].
Qed.

Lemma alloc_notes_cons h n ns :
  alloc_notes h (n :: ns)
  = let '(h1, r) := alloc h n in
    let '(h2, rs) := alloc_notes h1 ns in (h2, r :: rs).
Proof. reflexivity. Qed.

Lemma alloc_notes_spec ns : ∀ h h' rs,
  alloc_notes h ns = (h', rs) →
  rs = seq (next_ref h) (length ns)
  ∧ next_ref h' = (next_ref h + length ns)%nat
  ∧ (∀ r, (r < next_ref h)%nat → deref h' r = deref h r)
  ∧ map (deref h') rs = ns.
Proof.
  induction ns as [|n ns IH]; intros h h' rs Heq.
  - injection Heq as <- <-. repeat split; simpl; lia.
  - rewrite alloc_notes_cons in Heq.
    destruct (alloc h n) as [h1 r] eqn:Ha.
    destruct (alloc_notes h1 ns) as [h2 rs'] eqn:Hns.
    injection Heq as <- <-.
    apply alloc_spec in Ha as (-> & Hnext1 & Hnew1 & Hold1).
    apply IH in Hns as (Hrs & Hnext & Hold & Hnew).
    simpl. split; [by rewrite Hrs, Hnext1|]. split; [lia|]. split.
    + intros r Hr. rewrite Hold by lia. by apply Hold1.
    + rewrite Hnew. f_equal. rewrite Hold by lia. done.
Qed.

(** ** The sort by time, on the values *)

Lemma note_keys_insert h x l :
  note_keys h (insert_by_time h x l) = insert_key (note_key (deref h x)) (note_keys h l).
Proof.
  induction l as [|y l IH]; simpl; [done|].
  change (key_time (note_key (deref h x))) with (time (deref h x)).
  change (key_time (note_key (deref h y))) with (time (deref h y)).
  case_bool_decide; simpl; [done|]. by rewrite IH.
Qed.

Lemma note_keys_sort h l : note_keys h (sort_by_time h l) = sort_keys (note_keys h l).
Proof.
  induction l as [|x l IH]; simpl; [done|]. by rewrite note_keys_insert, IH.
Qed.

Lemma sort_keys_sorted l : Sorted Qcle (map key_time l) → sort_keys l = l.
Proof.
  induction l as [|x l IH]; simpl; [done|]. intros Hs.
  apply Sorted_inv in Hs as [Hs Hhd]. rewrite IH by done.
  destruct l as [|y l]; simpl; [done|].
  inversion Hhd; subst. by rewrite bool_decide_true.
Qed.

Lemma note_times_keys h l : note_times h l = map key_time (note_keys h l).
Proof. unfold note_times, note_keys. rewrite map_map. done. Qed.

(** ** The persistent form *)

Lemma Note_new_spec (t : Qc) (lv : Z) (ty : string) :
  Note_new t lv ty
  = if decide (lv ∈ [1; 2; 3]%Z ∧ ty ∈ NOTE_TYPES) then Some (mkNote t lv ty false) else None.
Proof.
  unfold Note_new. destruct (decide _) as [[Hl Ht]|Hn].
  - by rewrite !bool_decide_true.
  - case_bool_decide as Hl; [|done]. case_bool_decide as Ht; [|done]. by destruct Hn.
Qed.

Lemma mapM_from_dict (ds : list NoteDict) :
  mapM Note_from_dict ds
  = if decide (Forall valid_dict ds) then Some (map note_of_dict ds) else None.
Proof.
  induction ds as [|d ds IH]; [reflexivity|].
  cbn [mapM]. rewrite IH. unfold Note_from_dict at 1. rewrite Note_new_spec.
  fold (valid_dict d).
  destruct (decide (valid_dict d)) as [Hd|Hd]; cbn [mbind option_bind].
  - destruct (decide (Forall valid_dict ds)) as [Hall|Hall]; cbn [mbind option_bind mret].
    + rewrite decide_True by (by constructor). reflexivity.
    + rewrite decide_False by (intros [_ ?]%Forall_cons; contradiction). reflexivity.
  - rewrite decide_False by (intros [? _]%Forall_cons; contradiction). reflexivity.
Qed.

(** [Beatmap.from_dict] raises exactly when some note of the form is not
    valid; otherwise every note is taken as it is written. *)
Lemma Beatmap_from_dict_spec h d :
  Beatmap_from_dict h d
  = if decide (Forall valid_dict (default [] (d_notes d)))
    then Some (beatmap_of_dict h d) else None.
Proof.
  unfold Beatmap_from_dict, beatmap_of_dict. rewrite mapM_from_dict.
  destruct (decide _); [|reflexivity].
  cbn [mbind option_bind]. by destruct (alloc_notes _ _).
Qed.

Lemma to_dict_valid h b :
  Forall valid_dict (default [] (d_notes (Beatmap_to_dict h b))) ↔ valid_notes h (_notes b).
Proof.
  cbn [Beatmap_to_dict d_notes default]. unfold valid_notes.
  change (Forall valid_dict ((λ r, Note_to_dict (deref h r)) <$> _notes b)
          ↔ Forall (λ r, valid_note (deref h r)) (_notes b)).
  rewrite Forall_fmap. apply Forall_iff. intros r. reflexivity.
Qed.

Lemma round_trip_spec h b :
  round_trip h b
  = if decide (valid_notes h (_notes b))
    then Some (beatmap_of_dict h (Beatmap_to_dict h b)) else None.
Proof.
  unfold round_trip. rewrite Beatmap_from_dict_spec.
  destruct (decide (valid_notes _ _)) as [Hv|Hv].
  - rewrite decide_True; [done | by apply to_dict_valid].
  - rewrite decide_False; [done | by rewrite to_dict_valid].
Qed.

Lemma beatmap_of_dict_notes h b :
  note_keys (beatmap_of_dict h (Beatmap_to_dict h b)).1
            (_notes (beatmap_of_dict h (Beatmap_to_dict h b)).2)
  = sort_keys (map round_key (note_keys h (_notes b))).
Proof.
  unfold beatmap_of_dict, Beatmap_to_dict; simpl.
  destruct (alloc_notes h _) as [h' rs] eqn:Ha; simpl.
  apply alloc_notes_spec in Ha as (_ & _ & _ & Hnew).
  rewrite note_keys_sort. f_equal.
  unfold note_keys. rewrite <- (map_map (deref h') note_key), Hnew, !map_map. done.
Qed.





(** A note of level 5 is written, but not read back. *)
Example round_trip_invalid_level :
  let '(h, r) := alloc Heap_empty (mkNote 1 5 "base" false) in
  round_trip h (mkBeatmap BeatmapMeta_default [r] false) = None.
Proof. by_computation. Qed.

(** ** Notes as values *)

Lemma same_note_key h x y :
  same_note h x y = true ↔ note_key (deref h x) = note_key (deref h y).
Proof.
  unfold same_note, note_eqb. rewrite orb_true_iff, bool_decide_eq_true, Nat.eqb_eq.
  split; [intros [->|]; done|by right].
Qed.

Lemma note_keys_list_remove h l x :
  note_keys h (list_remove h l x) = remove_first (note_key (deref h x)) (note_keys h l).
Proof.
  induction l as [|y l IH]; simpl; [done|].
  destruct (same_note h x y) eqn:Hs.
  - apply same_note_key in Hs. by rewrite bool_decide_true.
  - rewrite bool_decide_false; [simpl; by rewrite IH|].
    intros Heq. apply same_note_key in Heq. congruence.
Qed.

Lemma contains_key h l x :
  contains h l x = true ↔ note_key (deref h x) ∈ note_keys h l.
Proof.
  unfold contains. induction l as [|y l IH]; simpl.
  - split; [done|by intros ?%elem_of_nil].
  - rewrite orb_true_iff, elem_of_cons, IH, same_note_key. done.
Qed.

Lemma remove_first_absent k l : k ∉ l → remove_first k l = l.
Proof.
  induction l as [|y l IH]; simpl; [done|]. intros Hn.
  apply not_elem_of_cons in Hn as [Hne Hn].
  rewrite bool_decide_false by done. by rewrite IH.
Qed.

Lemma note_keys_remove_if h l x :
  note_keys h (if contains h l x then list_remove h l x else l)
  = remove_first (note_key (deref h x)) (note_keys h l).
Proof.
  destruct (contains h l x) eqn:Hc; [apply note_keys_list_remove|].
  rewrite remove_first_absent; [done|].
  intros Hin. apply contains_key in Hin. congruence.
Qed.

Lemma note_keys_remove_notes h b notes :
  note_keys h (_notes (remove_notes h b notes))
  = remove_keys (note_keys h (_notes b)) (note_keys h notes).
Proof.
  unfold remove_notes, remove_keys; simpl. generalize (_notes b) as l.
  induction notes as [|n notes IH]; intros l; simpl; [done|].
  by rewrite IH, note_keys_remove_if.
Qed.

Lemma note_keys_remove_note h b note :
  note_keys h (_notes (remove_note h b note))
  = remove_first (note_key (deref h note)) (note_keys h (_notes b)).
Proof.
  rewrite <- note_keys_remove_if. unfold remove_note.
  by destruct (contains h (_notes b) note).
Qed.

Lemma note_keys_add_note h b note :
  note_keys h (_notes (add_note h b note))
  = sort_keys (note_keys h (_notes b) ++ [note_key (deref h note)]).
Proof.
  unfold add_note; simpl. rewrite note_keys_sort. unfold note_keys. by rewrite map_app.
Qed.

(** ** Counting *)

Lemma count_cons k y l : count k (y :: l) = ((if decide (y = k) then 1 else 0) + count k l)%nat.
Proof. unfold count. rewrite filter_cons. by destruct (decide (y = k)). Qed.

Lemma count_app k l1 l2 : count k (l1 ++ l2) = (count k l1 + count k l2)%nat.
Proof. unfold count. by rewrite filter_app, length_app. Qed.

Lemma count_perm k l1 l2 : l1 ≡ₚ l2 → count k l1 = count k l2.
Proof. unfold count. by intros ->. Qed.

Lemma count_zero k l : k ∉ l → count k l = 0%nat.
Proof.
  induction l as [|y l IH]; [done|]. intros [Hne Hn]%not_elem_of_cons.
  rewrite count_cons, IH by done. by rewrite decide_False.
Qed.

Lemma count_pos k l : k ∈ l → (0 < count k l)%nat.
Proof.
  induction 1 as [y l|y z l _ IH]; rewrite count_cons.
  - rewrite decide_True by done. lia.
  - lia.
Qed.

Lemma count_remove_first k k' l :
  count k (remove_first k' l)
  = (count k l - (if decide (k' = k) then 1 else 0))%nat.
Proof.
  induction l as [|y l IH]; simpl; [done|].
  case_bool_decide as Hy.
  - subst y. rewrite count_cons. destruct (decide (k' = k)); lia.
  - rewrite !count_cons, IH. destruct (decide (y = k)) as [->|]; [|done].
    rewrite decide_False by done. lia.
Qed.

Lemma count_remove_keys k ks : ∀ l,
  count k (remove_keys l ks) = (count k l - count k ks)%nat.
Proof.
  unfold remove_keys. induction ks as [|k' ks IH]; intros l; simpl.
  - unfold count at 3. simpl. lia.
  - rewrite IH, count_remove_first, (count_cons k k'). lia.
Qed.

Lemma count_tail k l :
  count k (tail l) = (count k l - (if decide (head l = Some k) then 1 else 0))%nat.
Proof.
  destruct l as [|y l]; simpl; [done|]. rewrite count_cons.
  destruct (decide (y = k)) as [->|Hne].
  - rewrite decide_True by done. lia.
  - rewrite decide_False by congruence. lia.
Qed.

(** A list in which one value occurs once and no other value occurs. *)
Lemma count_singleton (o : option Key) l :
  (∀ k, count k l = if decide (o = Some k) then 1 else 0)%nat → l = option_list o.
Proof.
  intros Hc. destruct l as [|x l].
  - destruct o as [k|]; [|done]. specialize (Hc k).
    rewrite decide_True in Hc by done. done.
  - pose proof (Hc x) as Hx. rewrite count_cons, decide_True in Hx by done.
    destruct (decide (o = Some x)) as [->|]; [|lia]. simpl. f_equal.
    destruct l as [|y l]; [done|]. exfalso.
    destruct (decide (y = x)) as [->|Hne].
    + rewrite count_cons, decide_True in Hx by done. lia.
    + specialize (Hc y). rewrite !count_cons in Hc.
      rewrite (decide_True (P := y = y)) in Hc by done.
      rewrite (decide_False (P := x = y)) in Hc by congruence.
      rewrite (decide_False (P := Some x = Some y)) in Hc by congruence. lia.
Qed.

(** ** Copies *)

Lemma Note_copy_spec (n : Note) :
  Note_copy n
  = if decide (valid_note n) then Some (mkNote (time n) (level n) (type n) false) else None.
Proof. unfold Note_copy. apply Note_new_spec. Qed.

Lemma copy_note_Some h r h1 c :
  copy_note h r = Some (h1, c) →
  valid_note (deref h r)
  ∧ c = next_ref h ∧ next_ref h1 = S (next_ref h)
  ∧ deref h1 c = mkNote (time (deref h r)) (level (deref h r)) (type (deref h r)) false
  ∧ ∀ r', (r' < next_ref h)%nat → deref h1 r' = deref h r'.
Proof.
  unfold copy_note. rewrite Note_copy_spec.
  destruct (decide (valid_note (deref h r))) as [Hv|]; [|discriminate].
  cbn [mbind option_bind]. intros Ha. apply (inj Some) in Ha.
  apply alloc_spec in Ha as (-> & Hnext & Hnew & Hold). done.
Qed.

Lemma copy_note_valid h r :
  valid_note (deref h r) → ∃ h1 c, copy_note h r = Some (h1, c).
Proof.
  intros Hv. unfold copy_note. rewrite Note_copy_spec, decide_True by done.
  cbn [mbind option_bind]. destruct (alloc h _) as [h1 c]. eauto.
Qed.

Lemma copy_note_invalid h r : ¬ valid_note (deref h r) → copy_note h r = None.
Proof. intros Hv. unfold copy_note. by rewrite Note_copy_spec, decide_False. Qed.

(** The copies of allocated notes are new objects with the values of the
    notes; the notes themselves are left as they are. *)
Lemma copy_notes_spec rs : ∀ h h' cs,
  allocated h rs →
  copy_notes h rs = Some (h', cs) →
  note_keys h' cs = note_keys h rs
  ∧ (next_ref h ≤ next_ref h')%nat
  ∧ (∀ r, (r < next_ref h)%nat → deref h' r = deref h r)
  ∧ cs = seq (next_ref h) (length rs)
  ∧ next_ref h' = (next_ref h + length rs)%nat
  ∧ Forall (λ c, selected (deref h' c) = false) cs.
Proof.
  induction rs as [|r rs IH]; intros h h' cs Hal Heq.
  - injection Heq as <- <-. cbn. split_and!; try done; lia.
  - cbn [copy_notes] in Heq.
    destruct (copy_note h r) as [[h1 c]|] eqn:Hc; [|discriminate].
    cbn [mbind option_bind] in Heq.
    destruct (copy_notes h1 rs) as [[h2 cs']|] eqn:Hcs; [|discriminate].
    cbn [mbind option_bind] in Heq. injection Heq as <- <-.
    apply copy_note_Some in Hc as (_ & -> & Hnext1 & Hnew1 & Hold1).
    apply Forall_cons in Hal as [Hr Hal].
    apply IH in Hcs as (Hkeys & Hnext & Hold & Hseq & Hnext' & Hsel).
    2:{ eapply Forall_impl; [exact Hal|]. simpl. intros; lia. }
    split_and!.
    + simpl. rewrite Hkeys, Hold, Hnew1 by lia. f_equal.
      unfold note_keys. apply Forall_fmap_ext_1.
      eapply Forall_impl; [exact Hal|]. simpl. intros r' Hr'. by rewrite Hold1.
    + lia.
    + intros r' Hr'. rewrite Hold by lia. by apply Hold1.
    + cbn [length seq]. by rewrite Hseq, Hnext1.
    + cbn [length]. lia.
    + constructor; [|done]. rewrite Hold, Hnew1 by lia. done.
Qed.

(** Copying allocated notes raises exactly when one of them is not valid. *)
Lemma copy_notes_valid rs : ∀ h,
  allocated h rs →
  if decide (valid_notes h rs) then ∃ h' cs, copy_notes h rs = Some (h', cs)
  else copy_notes h rs = None.
Proof.
  induction rs as [|r rs IH]; intros h Hal.
  - rewrite decide_True by constructor. by exists h, [].
  - apply Forall_cons in Hal as [Hr Hal]. cbn [copy_notes].
    destruct (decide (valid_note (deref h r))) as [Hv|Hv].
    + destruct (copy_note_valid h r Hv) as (h1 & c & Hc). rewrite Hc.
      cbn [mbind option_bind].
      apply copy_note_Some in Hc as (_ & -> & Hnext1 & _ & Hold1).
      assert (Hal1 : allocated h1 rs).
      { eapply Forall_impl; [exact Hal|]. simpl. intros; lia. }
      assert (Hiff : valid_notes h1 rs ↔ valid_notes h rs).
      { unfold valid_notes. rewrite !Forall_forall. unfold allocated in Hal.
        rewrite Forall_forall in Hal.
        split; intros H x Hx; specialize (H x Hx);
          rewrite Hold1 in * by (by apply Hal); done. }
      specialize (IH h1 Hal1).
      destruct (decide (valid_notes h1 rs)) as [Hv1|Hv1].
      * destruct IH as (h2 & cs & ->). cbn [mbind option_bind].
        rewrite decide_True; [eauto|]. constructor; [done | by apply Hiff].
      * rewrite IH. cbn [mbind option_bind].
        rewrite decide_False; [done|]. intros [_ ?]%Forall_cons. by apply Hv1, Hiff.
    + rewrite copy_note_invalid by done. cbn [mbind option_bind].
      rewrite decide_False; [done|]. by intros [? _]%Forall_cons.
Qed.

Lemma note_keys_heap_ext h h' l :
  (∀ r, r ∈ l → deref h' r = deref h r) → note_keys h' l = note_keys h l.
Proof.
  intros He. unfold note_keys. apply Forall_fmap_ext_1, Forall_forall.
  intros r Hr. by rewrite He.
Qed.

(** ** The groups of the clean-up *)

Section groups.
Variable h : Heap.

Let rounded (r : ref) : Qc := py_round (time (deref h r)) 3.

Lemma group_append_keys_in groups key x :
  key ∈ map fst groups → map fst (group_append groups key x) = map fst groups.
Proof.
  induction groups as [|[k g] groups IH]; simpl; [by intros ?%elem_of_nil|].
  intros Hin. case_bool_decide as Hk; simpl; [done|]. rewrite IH; [done|].
  apply elem_of_cons in Hin as [?|?]; [congruence|done].
Qed.

Lemma group_append_keys_new groups key x :
  key ∉ map fst groups → map fst (group_append groups key x) = map fst groups ++ [key].
Proof.
  induction groups as [|[k g] groups IH]; simpl; [done|].
  intros [Hne Hnin]%not_elem_of_cons. rewrite bool_decide_false by congruence.
  simpl. by rewrite IH.
Qed.

Lemma group_append_NoDup groups key x :
  NoDup (map fst groups) → NoDup (map fst (group_append groups key x)).
Proof.
  intros Hnd. destruct (decide (key ∈ map fst groups)) as [Hin|Hnin].
  - by rewrite group_append_keys_in.
  - rewrite group_append_keys_new by done.
    apply NoDup_app. split; [done|]. split; [|apply NoDup_singleton].
    intros k Hk ->%list_elem_of_singleton. done.
Qed.

Lemma members_cons k k0 g groups :
  members k ((k0, g) :: groups) = if bool_decide (k0 = k) then g else members k groups.
Proof. unfold members; simpl. by destruct (bool_decide (k0 = k)). Qed.

Lemma group_append_members groups key x k :
  members k (group_append groups key x)
  = members k groups ++ (if decide (key = k) then [x] else []).
Proof.
  induction groups as [|[k0 g] groups IH]; simpl.
  - rewrite members_cons. unfold members; simpl.
    destruct (decide (key = k)) as [->|Hne].
    + by rewrite bool_decide_true.
    + by rewrite bool_decide_false.
  - case_bool_decide as Hk0; rewrite !members_cons.
    + subst k0. destruct (decide (key = k)) as [->|Hne].
      * by rewrite bool_decide_true.
      * rewrite bool_decide_false by done. by rewrite app_nil_r.
    + case_bool_decide as Hk; [|exact IH].
      rewrite decide_False by congruence. by rewrite app_nil_r.
Qed.

Lemma time_groups_members l k :
  members k (time_groups_of h l) = filter (λ r, rounded r = k) l.
Proof.
  unfold time_groups_of. induction l as [|x l IH] using rev_ind; [done|].
  rewrite foldl_app; simpl. rewrite group_append_members, IH, filter_app.
  reflexivity.
Qed.

Lemma time_groups_NoDup l : NoDup (map fst (time_groups_of h l)).
Proof.
  unfold time_groups_of. induction l as [|x l IH] using rev_ind; [constructor|].
  rewrite foldl_app; simpl. by apply group_append_NoDup.
Qed.

Lemma members_of_group groups :
  NoDup (map fst groups) → Forall (λ p, p.2 = members p.1 groups) groups.
Proof.
  induction groups as [|[k g] groups IH]; simpl; [constructor|].
  intros [Hk Hnd]%NoDup_cons. constructor.
  - simpl. rewrite members_cons. by rewrite bool_decide_true.
  - specialize (IH Hnd). rewrite Forall_forall in IH. apply Forall_forall.
    intros [k' g'] Hin; simpl. rewrite members_cons.
    rewrite bool_decide_false; [by apply (IH (k', g'))|].
    intros ->. apply Hk. apply list_elem_of_fmap. by exists (k', g').
Qed.

Lemma time_groups_spec l :
  Forall (λ p, p.2 = filter (λ r, rounded r = p.1) l) (time_groups_of h l).
Proof.
  eapply Forall_impl; [apply members_of_group, time_groups_NoDup|].
  intros [k g]; simpl. intros ->. apply time_groups_members.
Qed.
End groups.

Section cleanup.
Variable h : Heap.

Let rounded (r : ref) : Qc := py_round (time (deref h r)) 3.

Let key_rounded (k : Key) : Qc := py_round (key_time k) 3.

Lemma insert_by_level_perm x l : insert_by_level h x l ≡ₚ x :: l.
Proof.
  induction l as [|y l IH]; simpl; [done|].
  case_bool_decide; [done|]. rewrite IH. apply Permutation_swap.
Qed.

Lemma sort_by_level_perm l : sort_by_level h l ≡ₚ l.
Proof.
  induction l as [|x l IH]; simpl; [done|]. by rewrite insert_by_level_perm, IH.
Qed.

Lemma head_insert_by_level x l :
  head (note_keys h (insert_by_level h x l))
  = match head (note_keys h l) with
    | None => Some (note_key (deref h x))
    | Some y =>
        if bool_decide (level (deref h x) ≤ key_level y)%Z
        then Some (note_key (deref h x)) else Some y
    end.
Proof.
  destruct l as [|y l]; simpl; [done|].
  change (key_level (note_key (deref h y))) with (level (deref h y)).
  by case_bool_decide.
Qed.

Lemma head_sort_by_level l :
  head (note_keys h (sort_by_level h l)) = lowest_level_first (note_keys h l).
Proof.
  induction l as [|x l IH]; simpl; [done|].
  rewrite head_insert_by_level, IH.
  destruct (lowest_level_first (note_keys h l)); done.
Qed.

Lemma lowest_level_first_in g k : lowest_level_first g = Some k → k ∈ g.
Proof.
  revert k. induction g as [|x g IH]; simpl; [done|]. intros k.
  destruct (lowest_level_first g) as [y|].
  - case_bool_decide; intros [= <-]; [by left|]. right. by apply IH.
  - intros [= <-]. by left.
Qed.

Lemma note_keys_tail l : note_keys h (tail l) = tail (note_keys h l).
Proof. by destruct l. Qed.

Lemma note_keys_group l t :
  note_keys h (filter (λ r, rounded r = t) l) = group_of t (note_keys h l).
Proof.
  unfold group_of. induction l as [|x l IH]; [done|].
  simpl note_keys. rewrite !filter_cons.
  change (py_round (key_time (note_key (deref h x))) 3) with (rounded x).
  destruct (decide (rounded x = t)); simpl; by rewrite IH.
Qed.

(** The occurrences of a value among the notes marked in one group. *)
Lemma count_marked_in_group v g :
  count v (note_keys h (tail (sort_by_level h g)))
  = (count v (note_keys h g)
     - if decide (lowest_level_first (note_keys h g) = Some v) then 1 else 0)%nat.
Proof.
  rewrite note_keys_tail, count_tail, head_sort_by_level.
  f_equal. apply count_perm. unfold note_keys. by rewrite sort_by_level_perm.
Qed.

Lemma count_marked_other v g :
  (∀ r, r ∈ g → rounded r ≠ key_rounded v) →
  count v (note_keys h (tail (sort_by_level h g))) = 0%nat.
Proof.
  intros Hg. rewrite count_marked_in_group.
  rewrite (count_zero v (note_keys h g)); [lia|].
  intros Hin. apply list_elem_of_fmap in Hin as (r & -> & Hr).
  by apply (Hg r Hr).
Qed.

Lemma duplicates_fold groups : ∀ acc,
  foldl (λ notes_to_remove '(_, group),
           if bool_decide (len group > 1)%Z
           then notes_to_remove ++ tail (sort_by_level h group)
           else notes_to_remove) acc groups
  = acc ++ marked h groups.
Proof.
  unfold marked. induction groups as [|[k g] groups IH]; intros acc; simpl.
  - by rewrite app_nil_r.
  - rewrite IH. case_bool_decide as Hlen; [by rewrite app_assoc|].
    f_equal. destruct g as [|x [|y g]]; [done|done|].
    exfalso. apply Hlen. unfold len; simpl. lia.
Qed.

Lemma duplicates_marked l : duplicates_of h l = marked h (time_groups_of h l).
Proof. unfold duplicates_of. by rewrite duplicates_fold. Qed.

Lemma members_absent key groups : key ∉ map fst groups → members key groups = [].
Proof.
  induction groups as [|[k g] groups IH]; [done|]. simpl.
  intros [Hne Hnin]%not_elem_of_cons. rewrite members_cons.
  rewrite bool_decide_false by congruence. by apply IH.
Qed.

Lemma count_marked_groups v l groups :
  NoDup (map fst groups) →
  Forall (λ p, p.2 = filter (λ r, rounded r = p.1) l) groups →
  count v (note_keys h (marked h groups))
  = if decide (key_rounded v ∈ map fst groups)
    then count v (note_keys h (tail (sort_by_level h
                                      (filter (λ r, rounded r = key_rounded v) l))))
    else 0%nat.
Proof.
  unfold marked. induction groups as [|[k g] groups IH]; intros Hnd Hall.
  - cbn [map concat]. destruct (decide _) as [Hin|]; [by apply elem_of_nil in Hin|done].
  - apply NoDup_cons in Hnd as [Hk Hnd]. apply Forall_cons in Hall as [Hg Hall].
    simpl in Hg. cbn [map concat fst snd]. unfold note_keys at 1.
    rewrite map_app. fold (note_keys h (tail (sort_by_level h g))).
    fold (note_keys h (concat (map (λ p, tail (sort_by_level h p.2)) groups))).
    rewrite count_app, IH by done.
    destruct (decide (k = key_rounded v)) as [Hkv|Hkv].
    + subst k.
      rewrite (decide_True (P := key_rounded v ∈ key_rounded v :: map fst groups))
        by (by left).
      rewrite decide_False by done. rewrite Hg. lia.
    + rewrite count_marked_other.
      2:{ intros r Hr. rewrite Hg in Hr. apply list_elem_of_filter in Hr as [Hr _].
          congruence. }
      destruct (decide (key_rounded v ∈ map fst groups)) as [Hin|Hnin].
      * rewrite (decide_True (P := key_rounded v ∈ k :: map fst groups)) by (by right).
        done.
      * rewrite (decide_False (P := key_rounded v ∈ k :: map fst groups)); [done|].
        intros [?|?]%elem_of_cons; [congruence|done].
Qed.

(** The occurrences of a value among the notes that the clean-up marks:
    all those of its group, less one if it is the value to keep. *)
Lemma count_duplicates v l :
  count v (note_keys h (duplicates_of h l))
  = (count v (group_of (key_rounded v) (note_keys h l))
     - if decide (lowest_level_first (group_of (key_rounded v) (note_keys h l)) = Some v)
       then 1 else 0)%nat.
Proof.
  rewrite duplicates_marked.
  rewrite (count_marked_groups v l) by (apply time_groups_NoDup || apply time_groups_spec).
  rewrite <- note_keys_group. case_decide as Hin.
  - apply count_marked_in_group.
  - assert (Hm : filter (λ r, rounded r = key_rounded v) l = []).
    { rewrite <- (members_absent (key_rounded v) (time_groups_of h l)) by done.
      symmetry. apply time_groups_members. }
    rewrite Hm. done.
Qed.

Lemma count_group v t l :
  count v (group_of t l) = if decide (key_rounded v = t) then count v l else 0%nat.
Proof.
  unfold group_of. induction l as [|x l IH]; simpl.
  - by case_decide.
  - rewrite filter_cons. destruct (decide (py_round (key_time x) 3 = t)) as [Hx|Hx].
    + rewrite !count_cons, IH. case_decide; [done|].
      rewrite decide_False; [done|]. intros ->. done.
    + rewrite IH, count_cons. case_decide as Hv; [|done].
      rewrite decide_False; [done|]. intros ->. done.
Qed.

(** After the marked notes are removed, each group is reduced to the note
    to keep. *)
Lemma group_after_cleanup l t :
  group_of t (remove_keys (note_keys h l) (note_keys h (duplicates_of h l)))
  = option_list (lowest_level_first (group_of t (note_keys h l))).
Proof.
  apply count_singleton. intros v.
  rewrite count_group. case_decide as Hv.
  - rewrite count_remove_keys, count_duplicates, Hv.
    pose proof (count_group v t (note_keys h l)) as Hg.
    rewrite decide_True in Hg by done. rewrite <- Hg.
    case_decide as Hkeep; [|lia].
    apply lowest_level_first_in, count_pos in Hkeep. lia.
  - rewrite decide_False; [done|]. intros Hkeep.
    apply lowest_level_first_in in Hkeep.
    apply list_elem_of_filter in Hkeep as [Hkeep _]. done.
Qed.

Lemma duplicates_in l r : r ∈ duplicates_of h l → r ∈ l.
Proof.
  rewrite duplicates_marked. unfold marked.
  pose proof (time_groups_spec h l) as Hspec. revert Hspec.
  generalize (time_groups_of h l) as groups.
  induction groups as [|[k g] groups IH]; simpl; [by intros _ ?%elem_of_nil|].
  intros [Hg Hall]%Forall_cons Hin. apply elem_of_app in Hin as [Hin|Hin]; [|by apply IH].
  simpl in Hg. assert (Hr : r ∈ sort_by_level h g).
  { destruct (sort_by_level h g); [by apply elem_of_nil in Hin|by right]. }
  rewrite sort_by_level_perm, Hg in Hr. by apply list_elem_of_filter in Hr as [_ Hr].
Qed.
End cleanup.

Lemma run_heap f s hi : heap (run f s hi) = (f (heap s, beatmap s)).1.
Proof. unfold run. by destruct (f _). Qed.

Lemma run_beatmap f s hi : beatmap (run f s hi) = (f (heap s, beatmap s)).2.
Proof. unfold run. by destruct (f _). Qed.

Lemma list_remove_sublist h l x : list_remove h l x `sublist_of` l.
Proof.
  induction l as [|y l IH]; cbn [list_remove]; [done|].
  destruct (same_note h x y); [by apply sublist_cons | by apply sublist_skip].
Qed.

Lemma remove_notes_sublist h b notes : _notes (remove_notes h b notes) `sublist_of` _notes b.
Proof.
  unfold remove_notes. cbn [_notes]. generalize (_notes b) as l.
  induction notes as [|n notes IH]; intros l; cbn [foldl]; [done|].
  destruct (contains h l n); [|apply IH].
  etrans; [apply IH|]. apply list_remove_sublist.
Qed.

(** The clean-up on notes to remove that are all valid. *)
Lemma cleanup_notes (s : Session) :
  (0 ≤ _max_size (history s))%Z →
  allocated (heap s) (_notes (beatmap s)) →
  valid_notes (heap s) (duplicates_of (heap s) (_notes (beatmap s))) →
  ∃ s' msg, _on_cleanup_duplicates s = Some (s', msg)
    ∧ note_keys (heap s') (_notes (beatmap s'))
      = remove_keys (note_keys (heap s) (_notes (beatmap s)))
          (note_keys (heap s) (duplicates_of (heap s) (_notes (beatmap s))))
    ∧ _notes (beatmap s') `sublist_of` _notes (beatmap s)
    ∧ ∀ r, (r < next_ref (heap s))%nat → deref (heap s') r = deref (heap s) r.
Proof.
  intros Hmax Hal Hv. unfold _on_cleanup_duplicates.
  case_bool_decide as Hnil.
  { exists s, [Text "No markers to clean up"]. split; [done|]. by rewrite Hnil. }
  case_bool_decide as Hdup.
  { exists s, [Text "No duplicate markers found"]. split; [done|]. by rewrite Hdup. }
  unfold new_CleanupDuplicatesCommand.
  assert (Hald : allocated (heap s) (duplicates_of (heap s) (_notes (beatmap s)))).
  { apply Forall_forall. intros r Hr%duplicates_in.
    unfold allocated in Hal. rewrite Forall_forall in Hal. by apply Hal. }
  pose proof (copy_notes_valid _ _ Hald) as Hc. rewrite decide_True in Hc by done.
  destruct Hc as (h' & cs & Hcopy). rewrite Hcopy. cbn [mbind option_bind].
  apply copy_notes_spec in Hcopy as (Hkeys & Hnext & Hold & _); [|done].
  rewrite (History_execute_Some (Z.to_nat (_max_size (history s)))) by (simpl; lia).
  cbn [mbind option_bind]. eexists _, _. split; [reflexivity|].
  rewrite run_heap, run_beatmap. cbn [execute fst snd heap beatmap].
  split_and!.
  - rewrite note_keys_remove_notes, Hkeys. f_equal.
    apply note_keys_heap_ext. intros r Hr. apply Hold.
    unfold allocated in Hal. rewrite Forall_forall in Hal. by apply Hal.
  - apply remove_notes_sublist.
  - exact Hold.
Qed.

Lemma cleanup_raises (s : Session) :
  allocated (heap s) (_notes (beatmap s)) →
  ¬ valid_notes (heap s) (duplicates_of (heap s) (_notes (beatmap s))) →
  _on_cleanup_duplicates s = None.
Proof.
  intros Hal Hv. unfold _on_cleanup_duplicates.
  assert (Hdup : duplicates_of (heap s) (_notes (beatmap s)) ≠ []).
  { intros Hd. apply Hv. rewrite Hd. constructor. }
  rewrite (bool_decide_false (_notes (beatmap s) = [])).
  2:{ intros Hn. apply Hdup. by rewrite Hn. }
  rewrite bool_decide_false by done.
  unfold new_CleanupDuplicatesCommand.
  assert (Hald : allocated (heap s) (duplicates_of (heap s) (_notes (beatmap s)))).
  { apply Forall_forall. intros r Hr%duplicates_in.
    unfold allocated in Hal. rewrite Forall_forall in Hal. by apply Hal. }
  pose proof (copy_notes_valid _ _ Hald) as Hc. rewrite decide_False in Hc by done.
  by rewrite Hc.
Qed.

(** C7: the duplicate clean-up, run on a session whose notes are allocated
    objects and whose history has a size bound that is not negative, leaves
    of every group of notes that share a rounded time exactly one note, with
    the (time, level, lane) of the note of lowest level of the group, the
    first such note if levels tie; all other notes of the group are removed.
    The notes left are objects of the beatmap, in their former order and
    unchanged.  For the two notes of the example the note left is the one of
    level 1 (see the witness and [cleanup_example]).  This is so when the
    notes to remove have a level and a lane that the constructor accepts;
    otherwise the copy made for the undo raises, and nothing is removed. *)
Theorem cleanup_keeps_lowest_level (s : Session) :
  (0 ≤ _max_size (history s))%Z →
  allocated (heap s) (_notes (beatmap s)) →
  (valid_notes (heap s) (duplicates_of (heap s) (_notes (beatmap s))) →
   ∃ s' msg, _on_cleanup_duplicates s = Some (s', msg)
     ∧ (∀ t, group_of t (note_keys (heap s') (_notes (beatmap s')))
             = option_list (lowest_level_first
                              (group_of t (note_keys (heap s) (_notes (beatmap s))))))
     ∧ _notes (beatmap s') `sublist_of` _notes (beatmap s)
     ∧ ∀ r, r ∈ _notes (beatmap s) → deref (heap s') r = deref (heap s) r)
  ∧ (¬ valid_notes (heap s) (duplicates_of (heap s) (_notes (beatmap s))) →
     _on_cleanup_duplicates s = None).
Proof.
  intros Hmax Hal. split.
  - intros Hv.
    destruct (cleanup_notes s Hmax Hal Hv) as (s' & msg & Hs' & Hkeys & Hsub & Hold).
    exists s', msg. split_and!; [done | | done |].
    + intros t. rewrite Hkeys. apply group_after_cleanup.
    + intros r Hr. apply Hold. unfold allocated in Hal.
      rewrite Forall_forall in Hal. by apply Hal.
  - by apply cleanup_raises.
Qed.

Lemma cleanup_keeps_lowest_level_witness :
  (0 ≤ _max_size (history two_notes_session))%Z
  ∧ allocated (heap two_notes_session) (_notes (beatmap two_notes_session))
  ∧ note_keys (heap two_notes_session) (_notes (beatmap two_notes_session))
    = [(1, 2%Z, "base"%string); (1, 1%Z, "base"%string)]
  ∧ ∃ s' msg, _on_cleanup_duplicates two_notes_session = Some (s', msg)
      ∧ group_of 1 (note_keys (heap s') (_notes (beatmap s')))
        = [(1, 1%Z, "base"%string)].
Proof.
  assert (H1 : (0 ≤ _max_size (history two_notes_session))%Z) by by_computation.
  assert (H2 : allocated (heap two_notes_session) (_notes (beatmap two_notes_session)))
    by by_computation.
  assert (H3 : valid_notes (heap two_notes_session)
                 (duplicates_of (heap two_notes_session)
                    (_notes (beatmap two_notes_session)))) by by_computation.
  split; [exact H1|]. split; [exact H2|]. split; [by_computation|].
  destruct (proj1 (cleanup_keeps_lowest_level two_notes_session H1 H2) H3)
    as (s' & msg & Hs' & Hg & _).
  exists s', msg. split; [exact Hs'|]. rewrite (Hg 1). by_computation.
Defined.

(** The clean-up of the example, computed: the note of level 2 is removed,
    the note of level 1 is all that is left, and the action can be undone. *)
Example cleanup_example :
  ∃ s' msg, _on_cleanup_duplicates two_notes_session = Some (s', msg)
    ∧ note_keys (heap s') (_notes (beatmap s')) = [(1, 1%Z, "base"%string)]
    ∧ msg = [Text "Cleaned up "; Int 1; Text " duplicate marker(s)"]
    ∧ can_undo (history s') = true.
Proof.
  destruct (_on_cleanup_duplicates two_notes_session) as [[s' msg]|] eqn:Hc;
    [|by vm_compute in Hc].
  exists s', msg. split; [done|].
  assert (Hs : Some (note_keys (heap s') (_notes (beatmap s')), msg, can_undo (history s'))
               = (λ r, (note_keys (heap r.1) (_notes (beatmap r.1)), r.2,
                        can_undo (history r.1)))
                 <$> _on_cleanup_duplicates two_notes_session) by (by rewrite Hc).
  assert (Hv : ((λ r, (note_keys (heap r.1) (_notes (beatmap r.1)), r.2,
                        can_undo (history r.1)))
                 <$> _on_cleanup_duplicates two_notes_session)
               = Some ([(1, 1%Z, "base"%string)],
                       [Text "Cleaned up "; Int 1; Text " duplicate marker(s)"], true))
    by by_computation.
  rewrite Hv in Hs. by injection Hs as -> -> ->.
Qed.

(** ** Executing and undoing runs of commands *)


Lemma insert_key_perm x l : insert_key x l ≡ₚ x :: l.
Proof.
  induction l as [|y l IH]; simpl; [done|].
  case_bool_decide; [done|]. rewrite IH. apply Permutation_swap.
Qed.

Lemma sort_keys_perm l : sort_keys l ≡ₚ l.
Proof.
  induction l as [|x l IH]; simpl; [done|]. by rewrite insert_key_perm, IH.
Qed.

Lemma remove_first_in k l : k ∈ l → l ≡ₚ k :: remove_first k l.
Proof.
  induction l as [|y l IH]; simpl; [by intros ?%elem_of_nil|].
  intros Hin. case_bool_decide as Hk; [by subst|].
  apply elem_of_cons in Hin as [?|Hin]; [done|].
  rewrite (IH Hin) at 1. apply Permutation_swap.
Qed.

#[global] Instance remove_first_perm k : Proper ((≡ₚ) ==> (≡ₚ)) (remove_first k).
Proof.
  intros l1 l2 Hp. induction Hp as [|x l1 l2 Hp IH|x y l|l1 l2 l3 _ IH1 _ IH2]; simpl.
  - done.
  - case_bool_decide; [done|]. by rewrite IH.
  - repeat case_bool_decide; subst; try done. apply Permutation_swap.
  - by rewrite IH1.
Qed.

#[global] Instance remove_keys_perm : Proper ((≡ₚ) ==> (=) ==> (≡ₚ)) remove_keys.
Proof.
  intros l1 l2 Hp ks ? <-. unfold remove_keys. revert l1 l2 Hp.
  induction ks as [|k ks IH]; intros l1 l2 Hp; simpl; [done|].
  apply IH. by rewrite Hp.
Qed.

(** Removing what was added leaves the rest. *)
Lemma remove_keys_added ks : ∀ l rest, l ≡ₚ ks ++ rest → remove_keys l ks ≡ₚ rest.
Proof.
  unfold remove_keys. induction ks as [|k ks IH]; intros l rest Hp; simpl; [done|].
  apply IH. rewrite Hp. simpl. by rewrite bool_decide_true.
Qed.

Lemma note_keys_add_notes h notes : ∀ b,
  note_keys h (_notes (foldl (add_note h) b notes))
  ≡ₚ note_keys h (_notes b) ++ note_keys h notes.
Proof.
  induction notes as [|n notes IH]; intros b; simpl; [by rewrite app_nil_r|].
  rewrite IH, note_keys_add_note, sort_keys_perm. by rewrite <- app_assoc.
Qed.

Lemma all_found_perm h notes : ∀ l,
  all_found h l notes = true →
  note_keys h l ≡ₚ note_keys h notes ++ remove_keys (note_keys h l) (note_keys h notes).
Proof.
  induction notes as [|n notes IH]; intros l; simpl; [done|].
  intros [Hc Hall]%andb_true_iff.
  apply contains_key, remove_first_in in Hc. rewrite Hc at 1. constructor.
  rewrite <- note_keys_list_remove. rewrite (IH _ Hall) at 1.
  by rewrite note_keys_list_remove.
Qed.

(** The commands that add or remove notes leave the heap and the metadata
    alone. *)
Lemma execute_frame c h b :
  adds_or_removes c = true →
  (execute c (h, b)).1 = h ∧ meta (execute c (h, b)).2 = meta b.
Proof.
  destruct c; try discriminate; intros _; simpl; split; try done.
  - revert b. induction notes as [|n notes IH]; intros b; simpl; [done|]. by rewrite IH.
  - unfold remove_note. by destruct (contains _ _ _).
Qed.

Lemma undo_frame c h b :
  adds_or_removes c = true →
  (undo c (h, b)).1 = h ∧ meta (undo c (h, b)).2 = meta b.
Proof.
  destruct c; try discriminate; intros _; simpl; split; try done.
  - unfold remove_note. by destruct (contains _ _ _).
  - revert b. induction notes as [|n notes IH]; intros b; simpl; [done|]. by rewrite IH.
  - revert b. induction notes_to_remove as [|n notes IH]; intros b; simpl; [done|].
    by rewrite IH.
Qed.


(** ... and it takes back what the command did. *)
Lemma undo_execute_perm c h b :
  adds_or_removes c = true →
  removes_present h b c = true →
  note_keys h (_notes (undo c (execute c (h, b))).2) ≡ₚ note_keys h (_notes b).
Proof.
  destruct c; try discriminate; intros _ Hpres; cbn [undo execute fst snd] in *.
  - rewrite note_keys_remove_note, note_keys_add_note.
    apply (remove_keys_added [_]). by rewrite sort_keys_perm, Permutation_app_comm.
  - rewrite note_keys_remove_notes. apply remove_keys_added.
    by rewrite note_keys_add_notes, Permutation_app_comm.
  - rewrite note_keys_add_note, sort_keys_perm, note_keys_remove_note.
    apply contains_key, remove_first_in in Hpres.
    by rewrite Permutation_app_comm.
  - rewrite note_keys_add_notes, note_keys_remove_notes.
    apply all_found_perm in Hpres. by rewrite Permutation_app_comm.
  - rewrite note_keys_add_notes, note_keys_remove_notes.
    apply all_found_perm in Hpres. by rewrite Permutation_app_comm.
Qed.








(** ** Commands that edit notes in place *)

Section field_update.
Context {V : Type} (get : Note → V) (put : V → Note → Note).
Variable upd : Heap → ref → V → Heap.
Hypothesis put_get : ∀ n, put (get n) n = n.
Hypothesis put_put : ∀ v w n, put v (put w n) = put v n.
Hypothesis deref_upd :
  ∀ h r v x, deref (upd h r v) x = if (x =? r)%nat then put v (deref h r) else deref h x.

Lemma differs_in_refl h rs : differs_in put h h rs.
Proof. split; [|done]. intros x. exists (get (deref h x)). by rewrite put_get. Qed.

Lemma differs_in_upd h h2 rs r v :
  differs_in put h h2 rs → r ∈ rs → differs_in put h (upd h2 r v) rs.
Proof.
  intros [Hd Ho] Hr. split; intros x; [|intros Hx]; rewrite deref_upd.
  - destruct (Nat.eqb_spec x r) as [->|]; [|apply Hd].
    destruct (Hd r) as [w ->]. exists v. apply put_put.
  - destruct (Nat.eqb_spec x r) as [->|]; [done|by apply Ho].
Qed.

Lemma differs_in_heap_eq h h2 h2' rs :
  differs_in put h h2 rs → heap_eq h2' h2 → differs_in put h h2' rs.
Proof.
  intros [Hd Ho] He. split; intros x; [|intros Hx]; rewrite He; [apply Hd|by apply Ho].
Qed.

Lemma differs_in_zip h rs (vs : list V) :
  differs_in put h (foldl (λ h '(r, v), upd h r v) h (zip rs vs)) rs.
Proof.
  assert (H : ∀ pairs h2, differs_in put h h2 rs → Forall (λ p, p.1 ∈ rs) pairs →
                differs_in put h (foldl (λ h '(r, v), upd h r v) h2 pairs) rs).
  { induction pairs as [|[r v] pairs IH]; intros h2 Hd Hall; simpl; [done|].
    apply Forall_cons in Hall as [Hr Hall]. apply IH; [|done]. by apply differs_in_upd. }
  apply H; [apply differs_in_refl|].
  apply Forall_forall. intros [r v] Hin. simpl. by apply elem_of_zip_l in Hin.
Qed.

(** Writing back the values that the notes [rs] have in [h] turns a heap
    that differs from [h] in this field of these notes into [h]. *)
Lemma restore_field h rs : ∀ h2,
  differs_in put h h2 rs →
  heap_eq (foldl (λ h '(r, v), upd h r v) h2 (zip rs (map (λ r, get (deref h r)) rs))) h.
Proof.
  induction rs as [|r rs IH]; intros h2 [Hd Ho]; simpl.
  - intros x. apply Ho. by intros ?%elem_of_nil.
  - apply IH. split; intros x; [|intros Hx]; rewrite deref_upd.
    + destruct (Nat.eqb_spec x r) as [->|]; [|apply Hd].
      exists (get (deref h r)). destruct (Hd r) as [w ->]. apply put_put.
    + destruct (Nat.eqb_spec x r) as [->|Hne].
      * destruct (Hd r) as [w ->]. by rewrite put_put, put_get.
      * apply Ho. intros [?|?]%elem_of_cons; done.
Qed.
End field_update.

Lemma deref_set_level h r v x :
  deref (set_level h r v) x = if (x =? r)%nat then put_level v (deref h r) else deref h x.
Proof. reflexivity. Qed.

Lemma deref_set_time h r v x :
  deref (set_time h r v) x = if (x =? r)%nat then put_time v (deref h r) else deref h x.
Proof. reflexivity. Qed.

Lemma deref_set_time_type h r (v : Qc * string) x :
  deref (set_type (set_time h r v.1) r v.2) x
  = if (x =? r)%nat then put_time_type v (deref h r) else deref h x.
Proof.
  unfold set_type, set_time. rewrite !deref_update, Nat.eqb_refl.
  by destruct (x =? r)%nat.
Qed.

Lemma sort_by_time_perm h l : sort_by_time h l ≡ₚ l.
Proof.
  induction l as [|x l IH]; simpl; [done|]. rewrite <- IH at 2.
  generalize (sort_by_time h l) as l'. clear. intros l'.
  induction l' as [|y l' IH]; simpl; [done|].
  case_bool_decide; [done|]. rewrite IH. apply Permutation_swap.
Qed.

Lemma note_keys_heap_perm h1 h2 l1 l2 :
  heap_eq h1 h2 → l1 ≡ₚ l2 → note_keys h1 l1 ≡ₚ note_keys h2 l2.
Proof.
  intros He Hp. unfold note_keys. rewrite Hp. 
  erewrite map_ext; [done|]. intros r. simpl. by rewrite He.
Qed.

(** Such a command permutes the note sequence and leaves the metadata
    alone. *)
Lemma execute_in_place_notes c h b :
  edits_in_place c = true →
  _notes (execute c (h, b)).2 ≡ₚ _notes b ∧ meta (execute c (h, b)).2 = meta b.
Proof.
  destruct c; try discriminate; intros _; simpl; split; try done;
    apply sort_by_time_perm.
Qed.

Lemma undo_in_place_notes c h b :
  edits_in_place c = true →
  _notes (undo c (h, b)).2 ≡ₚ _notes b ∧ meta (undo c (h, b)).2 = meta b.
Proof.
  destruct c; try discriminate; intros _; simpl; split; try done;
    apply sort_by_time_perm.
Qed.

Lemma zip_times_types h (notes : list ref) :
  zip notes (zip (map (λ r, time (deref h r)) notes) (map (λ r, type (deref h r)) notes))
  = zip notes (map (λ r, (time (deref h r), type (deref h r))) notes).
Proof. induction notes as [|r notes IH]; simpl; [done|]. by rewrite IH. Qed.

(** The undo of a command built on [h], from any heap that holds what the
    command left, gives back the notes of [h]. *)
Lemma undo_in_place_heap c h b h' b' :
  edits_in_place c = true → built_on h c = true →
  heap_eq h' (execute c (h, b)).1 →
  heap_eq (undo c (h', b')).1 h.
Proof.
  destruct c; try discriminate; intros _ Hb He; simpl in *.
  - apply bool_decide_eq_true in Hb as [-> ->].
    pose proof (restore_field (λ n, (time n, type n)) put_time_type
                  (λ h r v, set_type (set_time h r v.1) r v.2)) as Hr.
    specialize (Hr ltac:(by intros []) ltac:(done) deref_set_time_type h [note] h').
    simpl in Hr. apply Hr.
    eapply differs_in_heap_eq; [|exact He].
    apply (differs_in_zip (λ n, (time n, type n)) put_time_type
             (λ h r v, set_type (set_time h r v.1) r v.2)
             ltac:(by intros []) ltac:(done) deref_set_time_type
             h [note] [(new_time, new_type)]).
  - apply bool_decide_eq_true in Hb as ->.
    pose proof (restore_field level put_level set_level
                  ltac:(by intros []) ltac:(done) deref_set_level h [note] h') as Hr.
    simpl in Hr. apply Hr.
    eapply differs_in_heap_eq; [|exact He].
    apply (differs_in_zip level put_level set_level
             ltac:(by intros []) ltac:(done) deref_set_level h [note] [new_level]).
  - apply bool_decide_eq_true in Hb as ->.
    apply (restore_field level put_level set_level
             ltac:(by intros []) ltac:(done) deref_set_level).
    eapply differs_in_heap_eq; [|exact He].
    assert (Hfold : ∀ rs h2, foldl (λ h r, set_level h r new_level) h2 rs
                     = foldl (λ h '(r, v), set_level h r v) h2
                         (zip rs (replicate (length rs) new_level))).
    { induction rs as [|r rs IH]; intros h2; simpl; [done|]. by rewrite IH. }
    rewrite Hfold.
    apply (differs_in_zip level put_level set_level
             ltac:(by intros []) ltac:(done) deref_set_level).
  - apply bool_decide_eq_true in Hb as ->.
    apply (restore_field time put_time set_time
             ltac:(by intros []) ltac:(done) deref_set_time).
    eapply differs_in_heap_eq; [|exact He].
    apply (differs_in_zip time put_time set_time
             ltac:(by intros []) ltac:(done) deref_set_time).
  - apply bool_decide_eq_true in Hb as [-> ->].
    unfold set_times_types in *. rewrite zip_times_types.
    assert (Hstep : ∀ pairs h2,
              foldl (λ h '(r, (t, ty)), set_type (set_time h r t) r ty) h2 pairs
              = foldl (λ h '(r, v), set_type (set_time h r v.1) r v.2) h2 pairs).
    { induction pairs as [|[r [t ty]] pairs IH]; intros h2; simpl; [done|]. by rewrite IH. }
    rewrite Hstep in *.
    apply (restore_field (λ n, (time n, type n)) put_time_type
             (λ h r v, set_type (set_time h r v.1) r v.2)
             ltac:(by intros []) ltac:(done) deref_set_time_type).
    eapply differs_in_heap_eq; [|exact He].
    apply (differs_in_zip (λ n, (time n, type n)) put_time_type
             (λ h r v, set_type (set_time h r v.1) r v.2)
             ltac:(by intros []) ltac:(done) deref_set_time_type).
Qed.





(** ** The examples of the specification, computed *)

Example detect_peaks_two_plateaus :
  detect_peaks two_plateaus (Qc_of_Z 13) (Qc_of_Z 50) MIN_PEAK_GAP_SECONDS None
  = Some [Qc_of_Z 3; Qc_of_Z 9].
Proof. by_computation. Qed.

Example detect_peaks_constant :
  detect_peaks (Some (mkWaveformData None None (Some (map Qc_of_Z [5; 5; 5; 5]%Z))))
    (Qc_of_Z 4) (Qc_of_Z 50) MIN_PEAK_GAP_SECONDS None
  = Some [].
Proof. by_computation. Qed.

Example generate_beat_grid_example :
  generate_beat_grid (Qc_of_Z 120) 1 4
  = Some [0; Q2Qc (1 # 8); Q2Qc (1 # 4); Q2Qc (3 # 8); Q2Qc (1 # 2); Q2Qc (5 # 8);
          Q2Qc (3 # 4); Q2Qc (7 # 8)].
Proof. by_computation. Qed.

Example snap_to_grid_tie : snap_to_grid (Q2Qc (1 # 2)) [0; 1; Qc_of_Z 2] = 0.
Proof. by_computation. Qed.

(** The pattern "oxox" edited to "ooox" and applied to all: the occurrence
    at 4 s is found (one match) and receives a marker at 5 s. *)
Example apply_to_all_example :
  _get_original_pattern_string pattern_example.2 = "oxox"%string
  ∧ _get_pattern_string pattern_example.2 = "ooox"%string
  ∧ (λ r : Applied, (note_times r.1.1.1 (_notes r.1.1.2),
                     match r.2 with
                     | Some (OnApplyToAll added removed n) =>
                         Some (note_times r.1.1.1 added, note_times r.1.1.1 removed, n)
                     | _ => None
                     end))
      <$> _on_apply_to_all pattern_example.1.1 pattern_example.1.2 pattern_example.2
    = Some (map Qc_of_Z [0; 1; 2; 4; 5; 6]%Z, Some (map Qc_of_Z [1; 5]%Z, [], 1%Z)).
Proof. split; [by_computation|]. split; by_computation. Qed.

Example round_examples :
  py_round (Q2Qc (1 # 16)) 3 = Q2Qc (62 # 1000)
  ∧ py_round (Q2Qc (3 # 16)) 3 = Q2Qc (188 # 1000)
  ∧ py_round (Q2Qc (-1 # 16)) 3 = Q2Qc (-62 # 1000)
  ∧ py_int (Q2Qc (5 # 2)) = 2%Z ∧ py_int (Q2Qc (-5 # 2)) = (-2)%Z.
Proof. repeat split; by_computation. Qed.

(** ** Rounding *)

Lemma round_half_even_Qeq (p q : Q) : (p == q)%Q → round_half_even p = round_half_even q.
Proof.
  intros Hpq. unfold round_half_even.
  assert (Hf : Qfloor p = Qfloor q) by (apply Qfloor_comp; exact Hpq).
  rewrite Hf.
  assert (Hc : ((p - inject_Z (Qfloor q)) ?= (1 # 2))%Q = ((q - inject_Z (Qfloor q)) ?= (1 # 2))%Q).
  { apply Qcompare_comp; [rewrite Hpq|]; reflexivity. }
  rewrite Hc. reflexivity.
Qed.

Lemma round_half_even_Z (z : Z) : round_half_even (inject_Z z) = z.
Proof.
  unfold round_half_even. rewrite Qfloor_Z.
  destruct (Qcompare_spec (inject_Z z - inject_Z z) (1 # 2)) as [H|H|H]; try reflexivity.
  - exfalso. lra.
  - exfalso. lra.
Qed.

Lemma round_half_even_bounds (q : Q) :
  (inject_Z (round_half_even q) - (1 # 2) <= q)%Q
  ∧ (q <= inject_Z (round_half_even q) + (1 # 2))%Q.
Proof.
  unfold round_half_even.
  pose proof (Qfloor_le q) as H1. pose proof (Qlt_floor q) as H2.
  rewrite inject_Z_plus in H2.
  destruct (Qcompare_spec (q - inject_Z (Qfloor q)) (1 # 2)) as [H|H|H];
    [destruct (Z.even (Qfloor q))|..]; rewrite ?inject_Z_plus;
    change (inject_Z 1) with 1%Q in *; split; lra.
Qed.

Lemma round_half_even_mono (p q : Q) :
  (p <= q)%Q → (round_half_even p ≤ round_half_even q)%Z.
Proof.
  intros Hpq. pose proof (Qfloor_resp_le _ _ Hpq) as Hf.
  unfold round_half_even.
  destruct (Z.eq_dec (Qfloor p) (Qfloor q)) as [He|Hne].
  - rewrite He.
    destruct (Qcompare_spec (p - inject_Z (Qfloor q)) (1 # 2)) as [H|H|H];
      destruct (Qcompare_spec (q - inject_Z (Qfloor q)) (1 # 2)) as [H'|H'|H'];
      try destruct (Z.even (Qfloor q)); try lia; exfalso; lra.
  - destruct (Qcompare_spec (p - inject_Z (Qfloor p)) (1 # 2)) as [H|H|H];
      destruct (Qcompare_spec (q - inject_Z (Qfloor q)) (1 # 2)) as [H'|H'|H'];
      try destruct (Z.even (Qfloor p)); try destruct (Z.even (Qfloor q)); lia.
Qed.

Lemma scale_pos (n : nat) : (0 < inject_Z (10 ^ Z.of_nat n))%Q.
Proof.
  change 0%Q with (inject_Z 0). rewrite <- Zlt_Qlt. apply Z.pow_pos_nonneg; lia.
Qed.

Lemma py_round_this (x : Qc) (n : nat) :
  (this (py_round x n) * inject_Z (10 ^ Z.of_nat n)
   == inject_Z (round_half_even (this x * inject_Z (10 ^ Z.of_nat n))))%Q.
Proof.
  unfold py_round. cbn [this Q2Qc]. rewrite Qred_correct.
  pose proof (scale_pos n). field. lra.
Qed.

Lemma py_round_idempotent (x : Qc) (n : nat) : py_round (py_round x n) n = py_round x n.
Proof.
  unfold py_round at 1. rewrite (round_half_even_Qeq _ _ (py_round_this x n)).
  rewrite round_half_even_Z. reflexivity.
Qed.

Lemma py_round_mono (x y : Qc) (n : nat) : x ≤ y → py_round x n ≤ py_round y n.
Proof.
  intros Hxy. unfold py_round, Qcle. cbn [this Q2Qc]. rewrite !Qred_correct.
  pose proof (scale_pos n) as Hs.
  assert (Hm : (round_half_even (this x * inject_Z (10 ^ Z.of_nat n))
                ≤ round_half_even (this y * inject_Z (10 ^ Z.of_nat n)))%Z).
  { apply round_half_even_mono. apply Qmult_le_compat_r; [exact Hxy | lra]. }
  rewrite Zle_Qle in Hm.
  apply Qmult_le_compat_r; [exact Hm|]. apply Qlt_le_weak, Qinv_lt_0_compat, Hs.
Qed.

Lemma py_round_Z (z : Z) (n : nat) : py_round (Qc_of_Z z) n = Qc_of_Z z.
Proof.
  unfold py_round. apply Qc_is_canon. cbn [this Q2Qc Qc_of_Z]. rewrite !Qred_correct.
  rewrite <- inject_Z_mult, round_half_even_Z, inject_Z_mult.
  pose proof (scale_pos n). field. lra.
Qed.

Lemma py_round_0 (n : nat) : py_round 0 n = 0.
Proof. rewrite <- Z2Qc_inj_0. apply py_round_Z. Qed.

Lemma py_round_error (x : Qc) (n : nat) :
  Qc_abs (py_round x n - x) * Qc_of_Z (10 ^ Z.of_nat n) ≤ Q2Qc (1 # 2).
Proof.
  pose proof (round_half_even_bounds (this x * inject_Z (10 ^ Z.of_nat n))) as [H1 H2].
  pose proof (py_round_this x n) as Ht. pose proof (scale_pos n) as Hs.
  rewrite <- Ht in H1, H2.
  unfold Qc_abs. case_bool_decide as Hc; unfold Qcle in *; cbn in *;
    rewrite ?Qred_correct in *; cbn; rewrite ?Qred_correct.
  - nra.
  - nra.
Qed.

(** ** Selection *)

Lemma deref_set_selected h r v x :
  deref (set_selected h r v) x
  = if (x =? r)%nat then mkNote (time (deref h r)) (level (deref h r)) (type (deref h r)) v
    else deref h x.
Proof. unfold set_selected. rewrite deref_update. reflexivity. Qed.

Lemma note_key_set_selected h r v x :
  note_key (deref (set_selected h r v) x) = note_key (deref h x).
Proof.
  rewrite deref_set_selected. destruct (Nat.eqb_spec x r) as [->|]; reflexivity.
Qed.

Lemma clear_selection_spec l : ∀ h x,
  note_key (deref (foldl (λ h r, set_selected h r false) h l) x) = note_key (deref h x)
  ∧ selected (deref (foldl (λ h r, set_selected h r false) h l) x)
    = (if decide (x ∈ l) then false else selected (deref h x)).
Proof.
  induction l as [|r l IH]; intros h x; cbn [foldl].
  - split; [reflexivity|]. rewrite decide_False; [reflexivity | apply not_elem_of_nil].
  - destruct (IH (set_selected h r false) x) as [Hk Hs]. rewrite Hk, Hs.
    split; [apply note_key_set_selected|].
    rewrite deref_set_selected.
    destruct (decide (x ∈ l)) as [Hin|Hin].
    + rewrite decide_True; [reflexivity | by apply list_elem_of_further].
    + destruct (Nat.eqb_spec x r) as [->|Hne].
      * rewrite decide_True; [reflexivity | apply list_elem_of_here].
      * rewrite decide_False; [reflexivity|].
        intros [->|?]%elem_of_cons; contradiction.
Qed.

Lemma select_if_in_range_spec s e ty h r x :
  note_key (deref (select_if_in_range s e ty h r) x) = note_key (deref h x)
  ∧ selected (deref (select_if_in_range s e ty h r) x)
    = (if decide (x = r ∧ in_selection_range h s e ty x) then true
       else selected (deref h x)).
Proof.
  unfold select_if_in_range, in_selection_range.
  destruct (decide (x = r ∧ _)) as [[-> (H1 & H2 & H3)]|Hn].
  - rewrite bool_decide_true by done.
    assert (Hm : match ty with
                 | Some ty0 => bool_decide (type (deref h r) = ty0)
                 | None => true
                 end = true).
    { destruct ty as [ty0|]; [|done]. by apply bool_decide_eq_true. }
    rewrite Hm. cbn [andb]. rewrite note_key_set_selected, deref_set_selected, Nat.eqb_refl.
    done.
  - destruct (_ && _) eqn:Hc; [|done].
    rewrite note_key_set_selected, deref_set_selected. split; [done|].
    destruct (Nat.eqb_spec x r) as [->|Hne]; [|done].
    exfalso. apply Hn. split; [done|].
    apply andb_true_iff in Hc as [Hc1 Hc2]. apply bool_decide_eq_true in Hc1 as [? ?].
    split_and!; [done..|]. destruct ty; [by apply bool_decide_eq_true in Hc2 | done].
Qed.

Lemma in_selection_range_ext h1 h s e ty y :
  note_key (deref h1 y) = note_key (deref h y) →
  in_selection_range h1 s e ty y ↔ in_selection_range h s e ty y.
Proof.
  intros Hy. unfold in_selection_range, note_key in *. injection Hy as Ht _ Hty.
  rewrite Ht, Hty. reflexivity.
Qed.

Lemma select_in_range_spec s e ty l : ∀ h x,
  note_key (deref (foldl (select_if_in_range s e ty) h l) x) = note_key (deref h x)
  ∧ selected (deref (foldl (select_if_in_range s e ty) h l) x)
    = (if decide (x ∈ l ∧ in_selection_range h s e ty x) then true
       else selected (deref h x)).
Proof.
  induction l as [|r l IH]; intros h x; cbn [foldl].
  - split; [reflexivity|]. rewrite decide_False; [reflexivity|].
    intros [[]%not_elem_of_nil _].
  - destruct (IH (select_if_in_range s e ty h r) x) as [Hk Hs]. rewrite Hk, Hs.
    destruct (select_if_in_range_spec s e ty h r x) as [Hk1 Hs1]. split; [exact Hk1|].
    pose proof (in_selection_range_ext _ _ s e ty x Hk1) as Hr1.
    rewrite Hs1.
    destruct (decide (x ∈ l ∧ _)) as [[Hin Hr]|Hn].
    { rewrite decide_True; [reflexivity|].
      split; [by apply list_elem_of_further | by apply Hr1]. }
    destruct (decide (x = r ∧ _)) as [[-> Hr]|Hn'].
    + rewrite decide_True; [reflexivity|]. split; [apply list_elem_of_here | done].
    + destruct (decide (x ∈ r :: l ∧ _)) as [[Hin Hr]|Hn'']; [|reflexivity].
      exfalso. apply elem_of_cons in Hin as [->|Hin]; [by apply Hn'|].
      apply Hn. split; [done | by apply Hr1].
Qed.

Lemma filter_ext_in {A} (P Q : A → Prop) `{∀ x, Decision (P x)} `{∀ x, Decision (Q x)}
    (l : list A) :
  (∀ x, x ∈ l → P x ↔ Q x) → filter P l = filter Q l.
Proof.
  induction l as [|a l IH]; intros Hl; [reflexivity|].
  rewrite !filter_cons. rewrite IH by (intros x Hx; apply Hl; by apply list_elem_of_further).
  pose proof (Hl a (list_elem_of_here _ _)) as Ha.
  destruct (decide (P a)), (decide (Q a)); tauto.
Qed.

Lemma filter_none {A} (P : A → Prop) `{∀ x, Decision (P x)} (l : list A) :
  (∀ x, x ∈ l → ¬ P x) → filter P l = [].
Proof.
  induction l as [|a l IH]; intros Hl; [reflexivity|].
  rewrite filter_cons, decide_False by (apply Hl, list_elem_of_here).
  apply IH. intros x Hx. apply Hl. by apply list_elem_of_further.
Qed.

(** X1: [clear_selection] deselects every note of the beatmap and changes no
    value of a note; [select_notes_in_range] then selects exactly the notes
    of the range (and of the lane, when one is given), so that
    [get_selected_notes] returns them in the order of the beatmap; without
    the clearing, the selection only grows. *)
Theorem select_notes_in_range_selects (h : Heap) (b : Beatmap) (s e : Qc)
    (ty : option string) :
  get_selected_notes (clear_selection h b) b = []
  ∧ (∀ x, note_key (deref (clear_selection h b) x) = note_key (deref h x))
  ∧ get_selected_notes (select_notes_in_range (clear_selection h b) b s e ty) b
    = filter (in_selection_range h s e ty) (_notes b)
  ∧ (∀ x, selected (deref h x) = true →
          selected (deref (select_notes_in_range h b s e ty) x) = true)
  ∧ (∀ x, note_key (deref (select_notes_in_range h b s e ty) x) = note_key (deref h x)).
Proof.
  assert (Hrange : ∀ x, in_selection_range (clear_selection h b) s e ty x
                        ↔ in_selection_range h s e ty x).
  { intros x. apply in_selection_range_ext, clear_selection_spec. }
  split_and!.
  - apply filter_none. intros x Hx.
    destruct (clear_selection_spec (_notes b) h x) as [_ Hs].
    unfold clear_selection. rewrite Hs, decide_True by done. discriminate.
  - intros x. apply clear_selection_spec.
  - unfold get_selected_notes. apply filter_ext_in. intros x Hx.
    destruct (select_in_range_spec s e ty (_notes b) (clear_selection h b) x) as [_ Hs].
    unfold select_notes_in_range. rewrite Hs.
    destruct (clear_selection_spec (_notes b) h x) as [_ Hc].
    unfold clear_selection in *. rewrite Hc, (decide_True (P := x ∈ _notes b)) by done.
    destruct (decide _) as [[_ Hr]|Hn].
    + split; [intros _; by apply Hrange | done].
    + split; [discriminate|]. intros Hr. exfalso. apply Hn. split; [done | by apply Hrange].
  - intros x Hx.
    destruct (select_in_range_spec s e ty (_notes b) h x) as [_ Hs].
    unfold select_notes_in_range. rewrite Hs, Hx. by destruct (decide _).
  - intros x. apply select_in_range_spec.
Qed.

(** What [find] returns is the first element of the list that passes the
    test. *)
Lemma find_first {A} (p : A → bool) (l : list A) (x : A) :
  find p l = Some x →
  ∃ i, l !! i = Some x ∧ p x = true ∧ ∀ j y, (j < i)%nat → l !! j = Some y → p y = false.
Proof.
  induction l as [|a l IH]; cbn [find]; [done|].
  destruct (p a) eqn:Ha.
  - intros [= ->]. exists 0%nat. split_and!; [done | done | intros; lia].
  - intros Hf. destruct (IH Hf) as (i & Hi & Hx & Hbefore).
    exists (S i). split_and!; [done | done |].
    intros [|j] y Hj Hy.
    + cbn in Hy. by injection Hy as <-.
    + cbn in Hy. apply (Hbefore j); [lia | done].
Qed.

(** X2: [get_note_at] returns the first note of the list that lies within
    the tolerance of the given time: the note stands at some position of the
    list, it lies within the tolerance, and every note at an earlier position
    lies outside; it returns [None] exactly when no note lies within the
    tolerance.  On a beatmap sorted by time the note returned is the earliest
    of the notes within the tolerance (which need not be the nearest one). *)
Theorem get_note_at_first (h : Heap) (b : Beatmap) (t tolerance : Qc) :
  match get_note_at h b t tolerance with
  | Some r =>
      (∃ i, _notes b !! i = Some r
            ∧ ∀ j r', (j < i)%nat → _notes b !! j = Some r' →
                      tolerance < Qc_abs (time (deref h r') - t))
      ∧ r ∈ _notes b ∧ Qc_abs (time (deref h r) - t) ≤ tolerance
      ∧ (time_sorted h (_notes b) →
         ∀ r', r' ∈ _notes b → Qc_abs (time (deref h r') - t) ≤ tolerance →
               time (deref h r) ≤ time (deref h r'))
  | None => ∀ r, r ∈ _notes b → tolerance < Qc_abs (time (deref h r) - t)
  end.
Proof.
  destruct (get_note_at h b t tolerance) as [r|] eqn:Hget.
  - split.
    { apply find_first in Hget as (i & Hi & _ & Hbefore). exists i. split; [done|].
      intros j r' Hj Hr'. specialize (Hbefore j r' Hj Hr').
      apply bool_decide_eq_false in Hbefore. by apply Qcnot_le_lt. }
    revert Hget. unfold get_note_at. induction (_notes b) as [|x l IH]; cbn [find]; [done|].
    case_bool_decide as Hx.
    + intros [= ->]. split_and!; [apply list_elem_of_here | exact Hx |].
      intros Hs r' Hr' _. apply elem_of_cons in Hr' as [->|Hr']; [apply Qcle_refl|].
      apply Sorted_StronglySorted in Hs; [|apply _].
      unfold note_times in Hs. cbn [map] in Hs. apply StronglySorted_inv in Hs as [_ Hall].
      rewrite List.Forall_forall in Hall. apply Hall.
      apply List.in_map_iff. exists r'. split; [done|]. by apply list_elem_of_In.
    + intros Hf. destruct (IH Hf) as (Hin & Hr & Hmin).
      split_and!; [by apply list_elem_of_further | done |].
      intros Hs r' Hr' Hc. apply elem_of_cons in Hr' as [->|Hr']; [contradiction|].
      apply Hmin; [|done..]. unfold time_sorted, note_times in *. cbn [map] in Hs.
      by apply Sorted_inv in Hs as [? _].
  - revert Hget. unfold get_note_at. induction (_notes b) as [|x l IH]; cbn [find].
    + intros _ r []%not_elem_of_nil.
    + case_bool_decide as Hx; [done|]. intros Hf r [Heq|Hr]%elem_of_cons; [subst r|by apply IH].
      destruct (Qcle_or_gt (Qc_abs (time (deref h x) - t)) tolerance); [contradiction|done].
Qed.

(** Of two notes at one time, [get_note_at] returns the one that stands
    first in the list. *)
Example get_note_at_tie :
  let '(h1, r1) := alloc Heap_empty (mkNote 1 2 "base" false) in
  let '(h2, r2) := alloc h1 (mkNote 1 1 "base" false) in
  get_note_at h2 (mkBeatmap BeatmapMeta_default [r1; r2] false) 1 (Q2Qc (1 # 100)) = Some r1
  ∧ get_note_at h2 (mkBeatmap BeatmapMeta_default [r2; r1] false) 1 (Q2Qc (1 # 100)) = Some r2.
Proof. split; by_computation. Qed.

(** The earliest note within the tolerance is not always the nearest one:
    with notes at 0.995 s and 1 s, the note at 0.995 s is found at 1 s. *)
Example get_note_at_not_nearest :
  let '(h1, r1) := alloc Heap_empty (mkNote (Q2Qc (995 # 1000)) 1 "base" false) in
  let '(h2, r2) := alloc h1 (mkNote 1 1 "base" false) in
  get_note_at h2 (mkBeatmap BeatmapMeta_default [r1; r2] false) 1 (Q2Qc (1 # 100)) = Some r1.
Proof. by_computation. Qed.

(** ** The persistent form, again *)

Lemma non_empty_default (s : string) : default ""%string (non_empty s) = s.
Proof. unfold non_empty. case_bool_decide; subst; reflexivity. Qed.

Lemma meta_from_to_dict (m : BeatmapMeta) :
  BeatmapMeta_from_dict (BeatmapMeta_to_dict m)
  = mkBeatmapMeta (version m) (filename m) (title m) (category m) (priority m)
      (py_round (bpm m) 1) (py_round (total_duration m) 1).
Proof.
  unfold BeatmapMeta_from_dict, BeatmapMeta_to_dict. cbn. rewrite !non_empty_default.
  reflexivity.
Qed.

Lemma meta_to_dict_stable (m : BeatmapMeta) :
  BeatmapMeta_to_dict (BeatmapMeta_from_dict (BeatmapMeta_to_dict m)) = BeatmapMeta_to_dict m.
Proof.
  rewrite meta_from_to_dict. unfold BeatmapMeta_to_dict. cbn.
  rewrite !py_round_idempotent. reflexivity.
Qed.

(** X3: the metadata read back from their own persistent form are the
    metadata with the tempo and the duration rounded to one decimal; an empty
    title or category, left out of the form, comes back as the empty string;
    a form without any key gives the default metadata.  Writing the metadata
    read back gives the same form again. *)
Theorem meta_round_trip (m : BeatmapMeta) :
  BeatmapMeta_from_dict (BeatmapMeta_to_dict m)
  = mkBeatmapMeta (version m) (filename m) (title m) (category m) (priority m)
      (py_round (bpm m) 1) (py_round (total_duration m) 1)
  ∧ BeatmapMeta_to_dict (BeatmapMeta_from_dict (BeatmapMeta_to_dict m))
    = BeatmapMeta_to_dict m
  ∧ m_title (BeatmapMeta_to_dict m) = (if bool_decide (title m = ""%string) then None
                                       else Some (title m))
  ∧ BeatmapMeta_from_dict empty_MetaDict = BeatmapMeta_default.
Proof.
  split_and!; [apply meta_from_to_dict | apply meta_to_dict_stable | done | done].
Qed.

Lemma key_to_dict_round k : key_to_dict (round_key k) = key_to_dict k.
Proof.
  unfold key_to_dict, round_key, key_time, key_level. cbn.
  rewrite py_round_idempotent. reflexivity.
Qed.

Lemma to_dict_keys h l :
  map (λ r, Note_to_dict (deref h r)) l = map key_to_dict (note_keys h l).
Proof. unfold note_keys. rewrite map_map. reflexivity. Qed.

Lemma rounded_keys_sorted l :
  Sorted Qcle (map key_time l) → Sorted Qcle (map key_time (map round_key l)).
Proof.
  intros Hs. rewrite map_map.
  replace (map (λ k, key_time (round_key k)) l)
    with ((λ t, py_round t 3) <$> map key_time l) by (rewrite <- list_fmap_compose; done).
  eapply Sorted_fmap; [|exact Hs]. intros x y Hxy. by apply py_round_mono.
Qed.

(** X4: saving, loading and saving again writes the same persistent form as
    the first save, for a beatmap whose notes are valid and sorted by time
    (what every operation of the beatmap keeps): the rounding of the first
    save is not repeated by the second. *)
Theorem save_load_save (h : Heap) (b : Beatmap) :
  time_sorted h (_notes b) →
  valid_notes h (_notes b) →
  round_trip_dict h b = Some (Beatmap_to_dict h b).
Proof.
  intros Hs Hv. unfold round_trip_dict. rewrite round_trip_spec, decide_True by done.
  cbn [mbind option_bind].
  pose proof (beatmap_of_dict_notes h b) as Hk.
  assert (Hm : meta (beatmap_of_dict h (Beatmap_to_dict h b)).2
               = BeatmapMeta_from_dict (BeatmapMeta_to_dict (meta b))).
  { unfold beatmap_of_dict, Beatmap_to_dict. cbn [d_meta d_notes default].
    by destruct (alloc_notes _ _). }
  destruct (beatmap_of_dict h (Beatmap_to_dict h b)) as [h' b']. cbn [fst snd] in *.
  f_equal. unfold Beatmap_to_dict at 1. rewrite Hm, meta_to_dict_stable.
  rewrite to_dict_keys, Hk.
  rewrite sort_keys_sorted
    by (apply rounded_keys_sorted; rewrite <- note_times_keys; exact Hs).
  rewrite map_map. unfold Beatmap_to_dict. f_equal. f_equal.
  rewrite to_dict_keys. apply map_ext. intros k. apply key_to_dict_round.
Qed.

Lemma save_load_save_witness :
  time_sorted (heap one_note_session) (_notes (beatmap one_note_session))
  ∧ valid_notes (heap one_note_session) (_notes (beatmap one_note_session))
  ∧ round_trip_dict (heap one_note_session) (beatmap one_note_session)
    = Some (Beatmap_to_dict (heap one_note_session) (beatmap one_note_session)).
Proof.
  assert (Hs : time_sorted (heap one_note_session) (_notes (beatmap one_note_session))).
  { apply sort_by_time_sorted. }
  assert (Hv : valid_notes (heap one_note_session) (_notes (beatmap one_note_session)))
    by by_computation.
  split; [exact Hs|]. split; [exact Hv | exact (save_load_save _ _ Hs Hv)].
Defined.

(** X5: reading a persistent form raises the [ValueError] of the [Note]
    constructor exactly when some note of the form has a level other than 1,
    2, 3 or a type that is no lane; otherwise every note is taken as it is
    written.  A beatmap whose notes are valid is always read back from its
    own persistent form. *)
Theorem from_dict_validates (h : Heap) (d : BeatmapDict) :
  Beatmap_from_dict h d
  = (if decide (Forall valid_dict (default [] (d_notes d)))
     then Some (beatmap_of_dict h d) else None)
  ∧ ∀ b, Forall (λ r, valid_note (deref h r)) (_notes b) →
         Beatmap_from_dict h (Beatmap_to_dict h b)
         = Some (beatmap_of_dict h (Beatmap_to_dict h b)).
Proof.
  split; [apply Beatmap_from_dict_spec|]. intros b Hb.
  rewrite Beatmap_from_dict_spec, decide_True; [reflexivity|].
  by apply to_dict_valid.
Qed.

(** ** The history, again *)

Lemma trim_negative (m : Z) (l : list Command) : (m < 0)%Z → trim m l = None.
Proof.
  intros Hm. induction l as [|c l IH]; cbn [trim].
  - rewrite bool_decide_true; [done|]. unfold len. cbn. lia.
  - rewrite bool_decide_true; [done|]. unfold len. lia.
Qed.

Lemma length_drop_bound {A} (l : list A) (n : nat) :
  length (drop (length l - n) l) = (length l `min` n)%nat.
Proof. rewrite length_drop. lia. Qed.

(** X6: [History.execute] and [History.record] raise (the [IndexError] of
    [_trim_stack]) exactly when the bound of the history is negative.
    Otherwise [execute] runs the command, empties the redo stack, and leaves
    on the undo stack the last commands up to the bound: the new command is
    the next one to undo when the bound is positive, and with the bound 0 it
    is executed but cannot be undone.  [record] does the same bookkeeping
    without touching the beatmap. *)
Theorem History_execute_bookkeeping (c : Command) (s : Session) :
  ((_max_size (history s) < 0)%Z → History_execute c s = None ∧ History_record c s = None)
  ∧ ((0 ≤ _max_size (history s))%Z →
     ∃ s' hi,
       History_execute c s = Some s'
       ∧ History_record c s = Some (mkSession (heap s) (beatmap s) hi)
       ∧ history s' = hi
       ∧ (heap s', beatmap s') = execute c (heap s, beatmap s)
       ∧ _redo_stack hi = [] ∧ _max_size hi = _max_size (history s)
       ∧ len (_undo_stack hi)
         = Z.min (len (_undo_stack (history s)) + 1) (_max_size (history s))
       ∧ _undo_stack hi `suffix_of` _undo_stack (history s) ++ [c]
       ∧ ((0 < _max_size (history s))%Z → last (_undo_stack hi) = Some c)
       ∧ (_max_size (history s) = 0%Z → can_undo hi = false)).
Proof.
  split.
  - intros Hneg. unfold History_execute, History_record, _trim_stack. cbn [_max_size _undo_stack].
    rewrite trim_negative by done. done.
  - intros Hpos. set (N := Z.to_nat (_max_size (history s))).
    assert (HN : _max_size (history s) = Z.of_nat N) by (unfold N; lia).
    set (stack := _undo_stack (history s) ++ [c]).
    exists (run (execute c) s (mkHistory (drop (length stack - N) stack) [] (Z.of_nat N))),
      (mkHistory (drop (length stack - N) stack) [] (Z.of_nat N)).
    split_and!.
    + by apply History_execute_Some.
    + unfold History_record, _trim_stack. cbn [_max_size _undo_stack _redo_stack].
      rewrite HN, trim_drop. done.
    + apply run_history.
    + apply run_state.
    + done.
    + done.
    + cbn [_undo_stack]. unfold len. rewrite length_drop_bound. unfold stack.
      rewrite length_app. cbn [length]. lia.
    + cbn [_undo_stack]. apply suffix_drop.
    + intros Hlt. cbn [_undo_stack]. unfold stack.
      assert (Hle : (length (_undo_stack (history s) ++ [c]) - N
                     ≤ length (_undo_stack (history s)))%nat)
        by (rewrite length_app; cbn [length]; lia).
      rewrite drop_app_le by exact Hle. apply last_snoc.
    + intros Hz. cbn [_undo_stack]. unfold can_undo. cbn [_undo_stack].
      apply bool_decide_eq_false. unfold len. rewrite length_drop_bound. lia.
Qed.

Lemma History_execute_bookkeeping_witness :
  (0 ≤ _max_size (history (Session_new 0)))%Z
  ∧ ∃ s' hi, History_execute (AddNoteCommand 0%nat) (Session_new 0) = Some s'
      ∧ history s' = hi ∧ can_undo hi = false.
Proof.
  split; [done|].
  destruct (proj2 (History_execute_bookkeeping (AddNoteCommand 0%nat) (Session_new 0)))
    as (s' & hi & He & _ & Hh & _ & _ & _ & _ & _ & _ & Hz); [done|].
  exists s', hi. split_and!; [exact He | exact Hh | by apply Hz].
Defined.

Lemma description_undo c h b :
  description (undo c (h, b)).1 c = description h c
  ∧ description (execute c (h, b)).1 c = description h c.
Proof. destruct c; cbn; done. Qed.

Lemma list_snoc_case {A} (l : list A) : l = [] ∨ ∃ l' x, l = l' ++ [x].
Proof.
  destruct l as [|a l] using rev_ind; [by left | right; eauto].
Qed.

(** X7: [undo_description] and [redo_description] announce exactly what the
    next call of [undo] and of [redo] returns: the description of a command
    reads nothing that undoing or executing the command changes. *)
Theorem descriptions_announce (s : Session) :
  (History_undo s).2 = undo_description s ∧ (History_redo s).2 = redo_description s.
Proof.
  split.
  - unfold History_undo, undo_description.
    destruct (list_snoc_case (_undo_stack (history s))) as [He|(l & c & He)]; rewrite He.
    + done.
    + rewrite pop_snoc, last_snoc. cbn [snd].
      rewrite bool_decide_false by (by destruct l).
      cbn [fmap option_fmap option_map]. f_equal. rewrite run_heap.
      apply description_undo.
  - unfold History_redo, redo_description.
    destruct (list_snoc_case (_redo_stack (history s))) as [He|(l & c & He)]; rewrite He.
    + done.
    + rewrite pop_snoc, last_snoc. cbn [snd].
      rewrite bool_decide_false by (by destruct l).
      cbn [fmap option_fmap option_map]. f_equal. rewrite run_heap.
      apply description_undo.
Qed.

(** The commands that add or remove notes act on the values of the notes, up
    to their order. *)
Lemma execute_perm c h b1 b2 :
  adds_or_removes c = true →
  note_keys h (_notes b1) ≡ₚ note_keys h (_notes b2) →
  note_keys h (_notes (execute c (h, b1)).2) ≡ₚ note_keys h (_notes (execute c (h, b2)).2).
Proof.
  destruct c; try discriminate; intros _ Hp; cbn [execute fst snd].
  - by rewrite !note_keys_add_note, !sort_keys_perm, Hp.
  - by rewrite !note_keys_add_notes, Hp.
  - by rewrite !note_keys_remove_note, Hp.
  - by rewrite !note_keys_remove_notes, Hp.
  - by rewrite !note_keys_remove_notes, Hp.
Qed.

Section heap_eq_update.
Context {V : Type} (put : V → Note → Note).
Variable upd : Heap → ref → V → Heap.
Hypothesis deref_upd :
  ∀ h r v x, deref (upd h r v) x = if (x =? r)%nat then put v (deref h r) else deref h x.

Lemma upd_heap_eq h1 h2 r v : heap_eq h1 h2 → heap_eq (upd h1 r v) (upd h2 r v).
Proof. intros He x. rewrite !deref_upd, !He. done. Qed.

Lemma foldl_upd_heap_eq (pairs : list (ref * V)) : ∀ h1 h2,
  heap_eq h1 h2 →
  heap_eq (foldl (λ h '(r, v), upd h r v) h1 pairs) (foldl (λ h '(r, v), upd h r v) h2 pairs).
Proof.
  induction pairs as [|[r v] pairs IH]; intros h1 h2 He; cbn [foldl]; [done|].
  by apply IH, upd_heap_eq.
Qed.

Lemma foldl_upd_const_heap_eq (rs : list ref) (v : V) : ∀ h1 h2,
  heap_eq h1 h2 →
  heap_eq (foldl (λ h r, upd h r v) h1 rs) (foldl (λ h r, upd h r v) h2 rs).
Proof.
  induction rs as [|r rs IH]; intros h1 h2 He; cbn [foldl]; [done|].
  by apply IH, upd_heap_eq.
Qed.

End heap_eq_update.

(** The commands that edit in place write the same values whatever the heap
    holds. *)
Lemma execute_in_place_heap_eq c h1 h2 b1 b2 :
  edits_in_place c = true → heap_eq h1 h2 →
  heap_eq (execute c (h1, b1)).1 (execute c (h2, b2)).1.
Proof.
  destruct c; try discriminate; intros _ He; cbn [execute fst].
  - apply (upd_heap_eq put_time_type (λ h r v, set_type (set_time h r v.1) r v.2)
             deref_set_time_type h1 h2 note (new_time, new_type) He).
  - by apply (upd_heap_eq put_level set_level deref_set_level).
  - by apply (foldl_upd_const_heap_eq put_level set_level deref_set_level).
  - by apply (foldl_upd_heap_eq put_time set_time deref_set_time).
  - unfold set_times_types.
    pose proof (foldl_upd_heap_eq put_time_type (λ h r v, set_type (set_time h r v.1) r v.2)
                  deref_set_time_type (zip notes (zip new_times new_types)) h1 h2 He) as H.
    intros x. specialize (H x).
    assert (Hf : ∀ h l, foldl (λ h0 '(r, (t, ty)), set_type (set_time h0 r t) r ty) h l
                        = foldl (λ h0 '(r, v), set_type (set_time h0 r v.1) r v.2) h l).
    { intros h l. revert h. induction l as [|[r [t ty]] l IH]; intros h; cbn [foldl];
        [done | apply IH]. }
    by rewrite !Hf.
Qed.

Lemma History_execute_last (c : Command) (s : Session) :
  (0 < _max_size (history s))%Z →
  ∃ s1 l,
    History_execute c s = Some s1
    ∧ _undo_stack (history s1) = l ++ [c]
    ∧ _redo_stack (history s1) = []
    ∧ (heap s1, beatmap s1) = execute c (heap s, beatmap s).
Proof.
  intros Hmax. set (N := Z.to_nat (_max_size (history s))).
  rewrite (History_execute_Some N) by (unfold N; lia).
  eexists _, (drop (length (_undo_stack (history s) ++ [c]) - N) (_undo_stack (history s))).
  split; [reflexivity|]. rewrite run_history, run_state. cbn [_undo_stack _redo_stack].
  split_and!; [|done|done].
  apply drop_app_le. rewrite length_app. cbn [length]. unfold N. lia.
Qed.

(** X8: once a command has been executed through the history (from a state
    on which it is reversible), undo followed by redo leaves the history as
    it was after the execution, both calls return a description, and the
    beatmap holds the same note values and metadata as after the execution
    (up to the order of the notes). *)
Theorem undo_then_redo (c : Command) (s : Session) :
  (0 < _max_size (history s))%Z →
  reversible_on (heap s) (beatmap s) c = true →
  ∃ s1 s2 s3 d2 d3,
    History_execute c s = Some s1
    ∧ History_undo s1 = (s2, Some d2)
    ∧ History_redo s2 = (s3, Some d3)
    ∧ history s3 = history s1
    ∧ meta (beatmap s3) = meta (beatmap s1)
    ∧ note_keys (heap s3) (_notes (beatmap s3)) ≡ₚ note_keys (heap s1) (_notes (beatmap s1)).
Proof.
  intros Hmax Hrev.
  destruct (History_execute_last c s Hmax) as (s1 & l & He & Hl & Hredo & Hst).
  set (hi2 := mkHistory l (_redo_stack (history s1) ++ [c]) (_max_size (history s1))).
  set (s2 := run (undo c) s1 hi2).
  set (hi3 := mkHistory (l ++ [c]) [] (_max_size (history s1))).
  set (s3 := run (execute c) s2 hi3).
  exists s1, s2, s3, (description (heap s2) c), (description (heap s3) c).
  assert (Hu : History_undo s1 = (s2, Some (description (heap s2) c))).
  { unfold History_undo. rewrite Hl, pop_snoc. done. }
  assert (Hr : History_redo s2 = (s3, Some (description (heap s3) c))).
  { unfold History_redo. unfold s2 at 1 2. rewrite run_history. unfold hi2 at 1.
    cbn [_redo_stack]. rewrite Hredo. cbn [app pop rev]. unfold s3, hi3, s2.
    rewrite !run_history. done. }
  split_and!; [done..| | |].
  - unfold s3. rewrite run_history. unfold hi3.
    destruct (history s1) as [u r m]. cbn in *. by subst.
  - unfold s3, s2. rewrite ?run_beatmap, ?run_heap, ?run_beatmap, ?run_heap,
      <- !surjective_pairing.
    destruct (undo c (heap s1, beatmap s1)) as [h2 b2] eqn:Hun.
    unfold reversible_on in Hrev. apply orb_true_iff in Hrev as [Hrev|Hrev];
      apply andb_true_iff in Hrev as [Hk _].
    + rewrite (proj2 (execute_frame c _ _ Hk)).
      pose proof (undo_frame c (heap s1) (beatmap s1) Hk) as [_ Hmeta].
      by rewrite Hun in Hmeta.
    + rewrite (proj2 (execute_in_place_notes c _ _ Hk)).
      pose proof (undo_in_place_notes c (heap s1) (beatmap s1) Hk) as [_ Hmeta].
      by rewrite Hun in Hmeta.
  - unfold s3, s2. rewrite ?run_beatmap, ?run_heap, ?run_beatmap, ?run_heap.
    assert (Hh1 : heap s1 = (execute c (heap s, beatmap s)).1) by (by rewrite <- Hst).
    assert (Hb1 : beatmap s1 = (execute c (heap s, beatmap s)).2) by (by rewrite <- Hst).
    rewrite Hh1, Hb1, <- !surjective_pairing.
    unfold reversible_on in Hrev. apply orb_true_iff in Hrev as [Hrev|Hrev];
      apply andb_true_iff in Hrev as [Hk Hp].
    + destruct (execute c (heap s, beatmap s)) as [h1 b1] eqn:Hex.
      pose proof (execute_frame c (heap s) (beatmap s) Hk) as [Hf1 _].
      rewrite Hex in Hf1. cbn in Hf1. subst h1.
      destruct (undo c (heap s, b1)) as [h2 b2] eqn:Hun.
      pose proof (undo_frame c (heap s) b1 Hk) as [Hf2 _].
      rewrite Hun in Hf2. cbn in Hf2. subst h2.
      assert (Hb2 : note_keys (heap s) (_notes b2) ≡ₚ note_keys (heap s) (_notes (beatmap s))).
      { pose proof (undo_execute_perm c (heap s) (beatmap s) Hk Hp) as H.
        by rewrite Hex, Hun in H. }
      pose proof (execute_perm c (heap s) b2 (beatmap s) Hk Hb2) as H.
      pose proof (execute_frame c (heap s) b2 Hk) as [Hf3 _].
      rewrite Hex in H. destruct (execute c (heap s, b2)) as [h3 b3].
      cbn [fst snd] in *. by subst h3.
    + destruct (execute c (heap s, beatmap s)) as [h1 b1] eqn:Hex.
      destruct (undo c (h1, b1)) as [h2 b2] eqn:Hun.
      assert (Hh2 : heap_eq h2 (heap s)).
      { pose proof (undo_in_place_heap c (heap s) (beatmap s) h1 b1 Hk Hp) as H.
        rewrite Hex, Hun in H. apply H. done. }
      pose proof (execute_in_place_heap_eq c h2 (heap s) b2 (beatmap s) Hk Hh2) as Hh3.
      pose proof (execute_in_place_notes c h2 b2 Hk) as [Hn3 _].
      pose proof (undo_in_place_notes c h1 b1 Hk) as [Hn _]. rewrite Hun in Hn.
      pose proof (execute_in_place_notes c (heap s) (beatmap s) Hk) as [Hn' _].
      rewrite Hex in Hh3, Hn'. destruct (execute c (h2, b2)) as [h3 b3].
      cbn [fst snd] in *.
      apply note_keys_heap_perm; [exact Hh3|]. by rewrite Hn3, Hn, Hn'.
Qed.

Lemma undo_then_redo_witness :
  (0 < _max_size (history add_remove_example.1))%Z
  ∧ reversible_on (heap add_remove_example.1) (beatmap add_remove_example.1)
      (AddNoteCommand 2%nat) = true
  ∧ ∃ s1 s2 s3 d2 d3,
      History_execute (AddNoteCommand 2%nat) add_remove_example.1 = Some s1
      ∧ History_undo s1 = (s2, Some d2)
      ∧ History_redo s2 = (s3, Some d3)
      ∧ history s3 = history s1.
Proof.
  assert (H1 : (0 < _max_size (history add_remove_example.1))%Z) by done.
  assert (H2 : reversible_on (heap add_remove_example.1) (beatmap add_remove_example.1)
                 (AddNoteCommand 2%nat) = true) by done.
  split_and!; [exact H1 | exact H2 |].
  destruct (undo_then_redo (AddNoteCommand 2%nat) add_remove_example.1 H1 H2)
    as (s1 & s2 & s3 & d2 & d3 & Ha & Hb & Hc & Hd & _).
  by exists s1, s2, s3, d2, d3.
Defined.

(** ** The grid, again *)

(** Statements on [Qc] are moved to [Q], where [lra] and [nra] work. *)
Lemma this_plus (x y : Qc) : (this (x + y) == this x + this y)%Q.
Proof. apply Qred_correct. Qed.

Lemma this_mult (x y : Qc) : (this (x * y) == this x * this y)%Q.
Proof. apply Qred_correct. Qed.

Lemma this_opp (x : Qc) : (this (- x) == - this x)%Q.
Proof. apply Qred_correct. Qed.

Lemma this_minus (x y : Qc) : (this (x - y) == this x - this y)%Q.
Proof. unfold Qcminus. rewrite this_plus, this_opp. reflexivity. Qed.

Lemma this_inv (x : Qc) : (this (/ x) == / this x)%Q.
Proof. apply Qred_correct. Qed.

Lemma this_div (x y : Qc) : (this (x / y) == this x / this y)%Q.
Proof. unfold Qcdiv. rewrite this_mult, this_inv. reflexivity. Qed.

Lemma this_of_Z (z : Z) : this (Qc_of_Z z) = inject_Z z.
Proof. reflexivity. Qed.

Lemma this_Q2Qc (q : Q) : (this (Q2Qc q) == q)%Q.
Proof. apply Qred_correct. Qed.

Lemma this_0 : this 0 = 0%Q.
Proof. reflexivity. Qed.

Lemma this_1 : this 1 = 1%Q.
Proof. reflexivity. Qed.

Lemma Qc_eq_Qeq (x y : Qc) : x = y ↔ (this x == this y)%Q.
Proof. split; [by intros -> | apply Qc_is_canon]. Qed.

Ltac this_Q :=
  repeat match goal with
         | H : @eq Qc _ _ |- _ => apply Qc_eq_Qeq in H
         | H : ¬ @eq Qc _ _ |- _ => rewrite Qc_eq_Qeq in H
         | |- @eq Qc _ _ => apply Qc_eq_Qeq
         end;
  unfold Qcle, Qclt in *;
  repeat (rewrite this_div in * || rewrite this_minus in * || rewrite this_plus in *
          || rewrite this_mult in * || rewrite this_opp in * || rewrite this_inv in *
          || rewrite this_of_Z in * || rewrite this_Q2Qc in *
          || rewrite this_0 in * || rewrite this_1 in * ).

Lemma Qc_pos_neq (x : Qc) : 0 < x → x ≠ 0.
Proof. intros H ->. by apply Qclt_not_eq in H. Qed.

Lemma subdivision_duration_pos bpm subdivision :
  0 < bpm → (0 < subdivision)%Z → 0 < subdivision_duration bpm subdivision.
Proof.
  intros Hb Hs. unfold subdivision_duration.
  apply Qcdiv_pos; [apply Qcdiv_pos; [by apply Qc_of_Z_pos | done] | by apply Qc_of_Z_pos].
Qed.

Lemma Qc_mult_div (x y : Qc) : y ≠ 0 → x / y * y = x.
Proof. intros Hy. unfold Qcdiv. rewrite <- Qcmult_assoc, (Qcmult_comm (/ y)), Qcmult_inv_r by done. apply Qcmult_1_r. Qed.

Lemma Qc_lt_div (x y z : Qc) : 0 < z → x < y / z ↔ x * z < y.
Proof.
  intros Hz. split; intros H.
  - rewrite <- (Qc_mult_div y z) by (by apply Qc_pos_neq).
    by apply Qcmult_lt_compat_r.
  - assert (Hi : 0 < / z) by (by apply Qcinv_pos).
    replace x with (x * z / z).
    + unfold Qcdiv. by apply Qcmult_lt_compat_r.
    + unfold Qcdiv. rewrite <- Qcmult_assoc, Qcmult_inv_r, Qcmult_1_r; [done|].
      by apply Qc_pos_neq.
Qed.

Lemma Qceiling_gt (x : Qc) (i : Z) : (i < Qceiling (this x))%Z → Qc_of_Z i < x.
Proof.
  intros Hi. pose proof (Qceiling_lt (this x)) as Hc.
  unfold Qclt. change (this (Qc_of_Z i)) with (inject_Z i). eapply Qle_lt_trans; [|exact Hc]. rewrite <- Zle_Qle. lia.
Qed.

Lemma generate_beat_grid_eq bpm duration subdivision :
  0 < bpm → (0 < subdivision)%Z →
  generate_beat_grid bpm duration subdivision
  = Some (map (λ i, Qc_of_Z (Z.of_nat i) * subdivision_duration bpm subdivision)
            (seq 0 (Z.to_nat (Qceiling (this (duration / subdivision_duration bpm subdivision)))))).
Proof.
  intros Hb Hs. unfold generate_beat_grid.
  rewrite bool_decide_false by (by apply Qc_pos_neq).
  rewrite bool_decide_false by lia.
  fold (subdivision_duration bpm subdivision). f_equal.
  pose proof (subdivision_duration_pos bpm subdivision Hb Hs) as Hsd.
  set (sd := subdivision_duration bpm subdivision) in *.
  set (N := Z.to_nat _).
  assert (Hall : Forall (λ t, t < duration) (map (λ i, Qc_of_Z (Z.of_nat i) * sd) (seq 0 N))).
  { apply Forall_fmap, Forall_forall. intros i Hi. apply elem_of_seq in Hi. cbn.
    apply Qc_lt_div; [done|]. apply Qceiling_gt. unfold N in Hi. lia. }
  induction Hall as [|t l Ht Hall IH]; [done|].
  rewrite filter_cons, decide_True by done. by rewrite IH.
Qed.



(** [np.argmin] returns the first of the minimal positions. *)
Lemma argmin_from_first l : ∀ i bi best,
  (bi < i)%nat →
  ∃ v, (argmin_from l i bi best = bi ∧ v = best
        ∨ ∃ j, argmin_from l i bi best = (i + j)%nat ∧ l !! j = Some v)
    ∧ v ≤ best ∧ Forall (λ y, v ≤ y) l
    ∧ (argmin_from l i bi best ≠ bi → v < best)
    ∧ ∀ j w, l !! j = Some w → (i + j < argmin_from l i bi best)%nat → v < w.
Proof.
  induction l as [|x l IH]; intros i bi best Hbi; cbn [argmin_from].
  - exists best. split_and!; [by left | apply Qcle_refl | constructor | done |].
    intros j w Hj. by rewrite lookup_nil in Hj.
  - case_bool_decide as Hlt.
    + destruct (IH (S i) i x) as (v & Hv & Hle & Hall & Hne & Hfirst); [lia|].
      exists v. split_and!.
      * right. destruct Hv as [[-> ->]|(j & -> & Hj)].
        -- exists 0%nat. split; [lia|done].
        -- exists (S j). split; [lia|done].
      * apply Qclt_le_weak. by eapply Qcle_lt_trans.
      * by constructor.
      * intros _. by eapply Qcle_lt_trans.
      * intros [|j] w Hj Hlt'; cbn in Hj.
        -- injection Hj as <-. apply Hne. lia.
        -- apply (Hfirst j w Hj). lia.
    + destruct (IH (S i) bi best) as (v & Hv & Hle & Hall & Hne & Hfirst); [lia|].
      apply Qcnot_lt_le in Hlt.
      exists v. split_and!; [|done| |done|].
      * destruct Hv as [[-> ->]|(j & -> & Hj)]; [by left|].
        right. exists (S j). split; [lia|done].
      * constructor; [|done]. by etrans.
      * intros [|j] w Hj Hlt'; cbn in Hj.
        -- injection Hj as <-. eapply Qclt_le_trans; [|exact Hlt]. apply Hne. lia.
        -- apply (Hfirst j w Hj). lia.
Qed.

Lemma argmin_first x l :
  ∃ v, (x :: l) !! argmin (x :: l) = Some v ∧ Forall (λ y, v ≤ y) (x :: l)
    ∧ ∀ j w, (x :: l) !! j = Some w → (j < argmin (x :: l))%nat → v < w.
Proof.
  unfold argmin.
  destruct (argmin_from_first l 1 0 x) as (v & Hv & Hle & Hall & Hne & Hfirst); [lia|].
  exists v. split_and!.
  - destruct Hv as [[-> ->]|(j & -> & Hj)]; done.
  - by constructor.
  - intros [|j] w Hj Hlt; cbn in Hj.
    + injection Hj as <-. apply Hne. lia.
    + apply (Hfirst j w Hj). lia.
Qed.

Lemma snap_to_grid_min t grid :
  grid ≠ [] →
  ∃ idx, grid !! idx = Some (snap_to_grid t grid)
    ∧ Forall (λ g, Qc_abs (snap_to_grid t grid - t) ≤ Qc_abs (g - t)) grid
    ∧ ∀ j g, grid !! j = Some g → (j < idx)%nat →
             Qc_abs (snap_to_grid t grid - t) < Qc_abs (g - t).
Proof.
  destruct grid as [|x grid]; [done|]. intros _.
  unfold snap_to_grid. rewrite bool_decide_false by (unfold len; cbn; lia).
  destruct (argmin_first (Qc_abs (x - t)) (map (λ g, Qc_abs (g - t)) grid))
    as (v & Hv & Hall & Hfirst).
  change (Qc_abs (x - t) :: map (λ g, Qc_abs (g - t)) grid)
    with (map (λ g, Qc_abs (g - t)) (x :: grid)) in *.
  set (k := argmin _) in *. exists k.
  rewrite list_lookup_fmap in Hv.
  destruct ((x :: grid) !! k) as [g|] eqn:Hg; [|discriminate].
  injection Hv as <-. cbn [default]. split_and!; [done| |].
  - apply Forall_forall. intros g' Hg'. rewrite Forall_forall in Hall. apply Hall.
    apply (list_elem_of_fmap_2 (λ g, Qc_abs (g - t))) in Hg'. exact Hg'.
  - intros j g' Hj Hlt. apply (Hfirst j); [|done]. by rewrite list_lookup_fmap, Hj.
Qed.

Lemma snap_to_grid_fixed g grid : g ∈ grid → snap_to_grid g grid = g.
Proof.
  intros Hg. assert (Hne : grid ≠ []) by (intros ->; by apply not_elem_of_nil in Hg).
  destruct (snap_to_grid_min g grid Hne) as (idx & _ & Hall & _).
  rewrite Forall_forall in Hall. specialize (Hall g Hg).
  rewrite Qc_abs_self in Hall. apply Qc_abs_zero in Hall.
  set (s := snap_to_grid g grid) in *.
  replace s with ((s - g) + g) by ring. rewrite Hall. ring.
Qed.

(** X10: on a grid that is not empty, [snap_to_grid] returns an element of
    the grid that is nearest to the given time, and the first such element
    of the grid when several are equally near; a time of the grid is left
    where it is. *)
Theorem snap_to_grid_nearest (t : Qc) (grid : list Qc) :
  grid ≠ [] →
  (∃ idx, grid !! idx = Some (snap_to_grid t grid)
     ∧ ∀ j g, grid !! j = Some g →
              Qc_abs (snap_to_grid t grid - t) ≤ Qc_abs (g - t)
              ∧ ((j < idx)%nat → Qc_abs (snap_to_grid t grid - t) < Qc_abs (g - t)))
  ∧ (t ∈ grid → snap_to_grid t grid = t).
Proof.
  intros Hne. split; [|apply snap_to_grid_fixed].
  destruct (snap_to_grid_min t grid Hne) as (idx & Hidx & Hall & Hfirst).
  exists idx. split; [done|]. intros j g Hj. split; [|by apply (Hfirst j)].
  rewrite Forall_forall in Hall. apply Hall. apply list_elem_of_lookup. by exists j.
Qed.

Lemma snap_to_grid_nearest_witness :
  [0; 1; Qc_of_Z 2] ≠ []
  ∧ ∃ idx, [0; 1; Qc_of_Z 2] !! idx = Some (snap_to_grid (Q2Qc (1 # 2)) [0; 1; Qc_of_Z 2])
      ∧ ∀ j g, [0; 1; Qc_of_Z 2] !! j = Some g →
               Qc_abs (snap_to_grid (Q2Qc (1 # 2)) [0; 1; Qc_of_Z 2] - Q2Qc (1 # 2))
               ≤ Qc_abs (g - Q2Qc (1 # 2)).
Proof.
  assert (H : [0; 1; Qc_of_Z 2] ≠ []) by done.
  split; [exact H|].
  destruct (proj1 (snap_to_grid_nearest (Q2Qc (1 # 2)) [0; 1; Qc_of_Z 2] H))
    as (idx & Hidx & Hall).
  exists idx. split; [exact Hidx|]. intros j g Hj. exact (proj1 (Hall j g Hj)).
Defined.

Lemma Qcinv_neq (x : Qc) : x ≠ 0 → / x ≠ 0.
Proof.
  intros Hx H. pose proof (Qcmult_inv_r x Hx) as H1. rewrite H, Qcmult_0_r in H1.
  discriminate.
Qed.

Lemma subdivision_duration_neq bpm subdivision :
  bpm ≠ 0 → subdivision ≠ 0%Z → subdivision_duration bpm subdivision ≠ 0.
Proof.
  intros Hb Hs. unfold subdivision_duration, Qcdiv.
  assert (H60 : Qc_of_Z 60 ≠ 0) by by_computation.
  assert (Hs' : Qc_of_Z subdivision ≠ 0).
  { intros H. apply Hs. rewrite <- Z2Qc_inj_0 in H. by apply Z2Qc_inj. }
  intros H. apply Qcmult_integral in H as [H|H].
  - apply Qcmult_integral in H as [H|H]; [done|]. by apply Qcinv_neq in H.
  - by apply Qcinv_neq in H.
Qed.

Lemma Qc_abs_cases (x : Qc) :
  (0 <= this x ∧ this (Qc_abs x) == this x)%Q
  ∨ (this x < 0 ∧ this (Qc_abs x) == - this x)%Q.
Proof.
  unfold Qc_abs. case_bool_decide as H.
  - left. split; [exact H | reflexivity].
  - right. apply Qcnot_le_lt in H. split; [exact H|].
    unfold Qcopp. cbn [this Q2Qc]. apply Qred_correct.
Qed.

(** X11: the grid index of the time of a grid index is that index, and the
    time of the grid index of a time is within half a subdivision of the
    time; [get_beat_number] splits the index on the 1/16 grid into a beat and
    a subdivision between 0 and 15, also before time zero. *)
Theorem grid_index_round_trip (t bpm : Qc) (subdivision i : Z) :
  bpm ≠ 0 → subdivision ≠ 0%Z →
  (∃ t', grid_index_to_time i bpm subdivision = Some t'
         ∧ time_to_grid_index t' bpm subdivision = Some i)
  ∧ (∃ k t', time_to_grid_index t bpm subdivision = Some k
             ∧ grid_index_to_time k bpm subdivision = Some t'
             ∧ Qc_abs (t' - t) * 2 ≤ Qc_abs (subdivision_duration bpm subdivision))
  ∧ (∃ k beat sub, time_to_grid_index t bpm SUBDIVISION_SIXTEENTH = Some k
                   ∧ get_beat_number t bpm = Some (beat, sub)
                   ∧ k = (16 * beat + sub)%Z ∧ (0 ≤ sub < 16)%Z).
Proof.
  intros Hb Hs.
  pose proof (subdivision_duration_neq bpm subdivision Hb Hs) as Hsd.
  unfold time_to_grid_index, grid_index_to_time, get_beat_number.
  rewrite !bool_decide_false by done.
  fold (subdivision_duration bpm subdivision).
  fold (subdivision_duration bpm SUBDIVISION_SIXTEENTH).
  set (sd := subdivision_duration bpm subdivision) in *.
  split_and!.
  - eexists. split; [done|]. f_equal.
    replace (Qc_of_Z i * sd / sd) with (Qc_of_Z i).
    + apply round_half_even_Z.
    + unfold Qcdiv. by rewrite <- Qcmult_assoc, Qcmult_inv_r, Qcmult_1_r.
  - eexists _, _. split_and!; [done..|].
    pose proof (round_half_even_bounds (this (t / sd))) as [H1 H2].
    set (k := round_half_even _) in *.
    assert (Ht : (this (t / sd) * this sd == this t)%Q).
    { pose proof (Qc_mult_div t sd Hsd) as H. apply (f_equal this) in H.
      unfold Qcmult in H at 1. cbn [this Q2Qc] in H. rewrite <- H.
      symmetry. apply Qred_correct. }
    set (t' := Qc_of_Z k * sd).
    assert (Ht' : (this t' == inject_Z k * this sd)%Q).
    { unfold t', Qcmult. cbn [this Q2Qc]. apply Qred_correct. }
    assert (Hd : (this (t' - t) == this t' - this t)%Q).
    { unfold Qcminus, Qcplus, Qcopp. cbn [this Q2Qc]. rewrite !Qred_correct. reflexivity. }
    unfold Qcle. unfold Qcmult at 1. cbn [this Q2Qc]. rewrite Qred_correct.
    change (this 2) with (2 # 1)%Q.
    set (q := this (t / sd)) in *.
    set (s := this sd) in *. set (z := inject_Z k) in *.
    destruct (Qc_abs_cases (t' - t)) as [[Ha1 Ha2]|[Ha1 Ha2]];
      destruct (Qc_abs_cases sd) as [[Hb1 Hb2]|[Hb1 Hb2]];
      rewrite Ha2, Hb2; rewrite Hd in *; rewrite Ht', <- Ht in *; fold s in Hb1 |- *.
    all: clearbody z s q; clear -H1 H2 Ha1 Hb1.
    1, 3: assert (0 <= (q + (1 # 2) - z) * s)%Q by (apply Qmult_le_0_compat; lra);
          assert (0 <= (z + (1 # 2) - q) * s)%Q by (apply Qmult_le_0_compat; lra); lra.
    all: assert (0 <= (q + (1 # 2) - z) * - s)%Q by (apply Qmult_le_0_compat; lra);
         assert (0 <= (z + (1 # 2) - q) * - s)%Q by (apply Qmult_le_0_compat; lra); lra.
  - set (k := round_half_even _).
    exists k, (k `div` 16)%Z, (k `mod` 16)%Z.
    split_and!; [reflexivity | reflexivity | apply Z.div_mod; lia | apply Z.mod_pos_bound; lia..].
Qed.

Lemma grid_index_round_trip_witness :
  Qc_of_Z 120 ≠ 0 ∧ 4%Z ≠ 0%Z
  ∧ ∃ t', grid_index_to_time 3 (Qc_of_Z 120) 4 = Some t'
          ∧ time_to_grid_index t' (Qc_of_Z 120) 4 = Some 3%Z.
Proof.
  assert (H1 : Qc_of_Z 120 ≠ 0) by by_computation.
  assert (H2 : 4%Z ≠ 0%Z) by done.
  split_and!; [exact H1 | exact H2 |].
  exact (proj1 (grid_index_round_trip 0 (Qc_of_Z 120) 4 3 H1 H2)).
Defined.

Lemma Qc_abs_nonpos (x : Qc) : x ≤ 0 → Qc_abs x = - x.
Proof.
  intros Hx. unfold Qc_abs. case_bool_decide as H; [|done].
  assert (x = 0) as -> by (by apply Qcle_antisym). done.
Qed.

Lemma Qc_abs_of_nonneg (x : Qc) : 0 ≤ x → Qc_abs x = x.
Proof. intros Hx. unfold Qc_abs. by rewrite bool_decide_true. Qed.

(** A time between two neighbouring multiples of a positive step. *)
Lemma floor_bracket (t sd : Qc) :
  0 < sd →
  Qc_of_Z (Qfloor (this (t / sd))) * sd ≤ t
  ∧ t < Qc_of_Z (Qfloor (this (t / sd)) + 1) * sd.
Proof.
  intros Hsd. pose proof (Qc_mult_div t sd (Qc_pos_neq _ Hsd)) as Ht.
  pose proof (Qfloor_le (this (t / sd))) as H1.
  pose proof (Qlt_floor (this (t / sd))) as H2.
  split.
  - rewrite <- Ht at 2. apply Qcmult_le_compat_r; [exact H1 | by apply Qclt_le_weak].
  - rewrite <- Ht at 1. apply Qcmult_lt_compat_r; [exact Hsd | exact H2].
Qed.

Lemma seq_multiples_lookup (sd : Qc) (N k : nat) :
  (k < N)%nat →
  map (λ i, Qc_of_Z (Z.of_nat i) * sd) (seq 0 N) !! k = Some (Qc_of_Z (Z.of_nat k) * sd).
Proof.
  intros Hk. rewrite list_lookup_fmap, lookup_seq_lt by done. done.
Qed.

(** A time of [[0, duration)] lies between a position of the generated grid
    and that position plus one subdivision. *)
Lemma grid_position_below (t bpm duration : Qc) (subdivision : Z) :
  0 < bpm → (0 < subdivision)%Z → 0 ≤ t → t < duration →
  ∃ k : nat,
    (k < Z.to_nat (Qceiling (this (duration / subdivision_duration bpm subdivision))))%nat
    ∧ Qc_of_Z (Z.of_nat k) * subdivision_duration bpm subdivision ≤ t
    ∧ t < (Qc_of_Z (Z.of_nat k) + 1) * subdivision_duration bpm subdivision.
Proof.
  intros Hb Hs Ht0 Htd.
  pose proof (subdivision_duration_pos bpm subdivision Hb Hs) as Hsd.
  set (sd := subdivision_duration bpm subdivision) in *.
  destruct (floor_bracket t sd Hsd) as [Hk1 Hk2].
  set (kz := Qfloor (this (t / sd))) in *.
  assert (Hkz : (0 ≤ kz)%Z).
  { unfold kz. change 0%Z with (Qfloor 0). apply Qfloor_resp_le.
    assert (H : 0 ≤ t / sd).
    { unfold Qcdiv. apply Qcmult_nonneg_nonneg; [done|].
      by apply Qclt_le_weak, Qcinv_pos. }
    exact H. }
  exists (Z.to_nat kz). rewrite Z2Nat.id by done.
  rewrite Z2Qc_inj_add, Z2Qc_inj_1 in Hk2. split_and!; [|done|done].
  assert (Hlt : (kz < Qceiling (this (duration / sd)))%Z); [|lia].
  pose proof (Qfloor_le (this (t / sd))) as H1.
  pose proof (Qle_ceiling (this (duration / sd))) as H2.
  assert (H3 : t / sd < duration / sd).
  { unfold Qcdiv. apply Qcmult_lt_compat_r; [by apply Qcinv_pos | done]. }
  rewrite Zlt_Qlt. fold kz in H1.
  eapply Qle_lt_trans; [exact H1|]. eapply Qlt_le_trans; [exact H3 | exact H2].
Qed.

(** The snap to the generated grid moves such a time by less than one
    subdivision. *)
Lemma snap_generated_lt_step (t bpm duration : Qc) (subdivision : Z) :
  0 < bpm → (0 < subdivision)%Z → 0 ≤ t → t < duration →
  ∃ grid,
    generate_beat_grid bpm duration subdivision = Some grid
    ∧ grid ≠ []
    ∧ Qc_abs (snap_to_grid t grid - t) < subdivision_duration bpm subdivision.
Proof.
  intros Hb Hs Ht0 Htd.
  destruct (grid_position_below t bpm duration subdivision Hb Hs Ht0 Htd)
    as (k & HkN & Hk1 & Hk2).
  eexists. split; [by apply generate_beat_grid_eq|].
  set (sd := subdivision_duration bpm subdivision) in *.
  set (N := Z.to_nat _) in *. set (grid := map _ _).
  assert (Hne : grid ≠ []).
  { intros He. apply (f_equal length) in He. unfold grid in He.
    rewrite length_map, length_seq in He. cbn in He. lia. }
  split; [exact Hne|].
  destruct (snap_to_grid_min t grid Hne) as (idx & _ & Hall & _).
  rewrite Forall_forall in Hall.
  assert (Hsk : Qc_abs (snap_to_grid t grid - t) ≤ Qc_abs (Qc_of_Z (Z.of_nat k) * sd - t)).
  { apply Hall. apply list_elem_of_lookup. exists k. by apply seq_multiples_lookup. }
  rewrite (Qc_abs_nonpos (Qc_of_Z (Z.of_nat k) * sd - t)) in Hsk
    by (by apply Qcle_minus_nonpos).
  eapply Qcle_lt_trans; [exact Hsk|]. clear -Hk2. clearbody sd.
  set (z := Qc_of_Z _) in *. clearbody z. this_Q. lra.
Qed.

(** X12: on the grid generated for a positive tempo and subdivision,
    [snap_to_grid] moves a time of [[0, duration)] by less than one
    subdivision, and a time that is not after the last grid position by at
    most half a subdivision. *)
Theorem snap_to_grid_within_step (t bpm duration : Qc) (subdivision : Z) :
  0 < bpm → (0 < subdivision)%Z → 0 ≤ t → t < duration →
  ∃ grid,
    generate_beat_grid bpm duration subdivision = Some grid
    ∧ Qc_abs (snap_to_grid t grid - t) < subdivision_duration bpm subdivision
    ∧ (∀ g, last grid = Some g → t ≤ g →
            Qc_abs (snap_to_grid t grid - t) * 2 ≤ subdivision_duration bpm subdivision).
Proof.
  intros Hb Hs Ht0 Htd.
  pose proof (subdivision_duration_pos bpm subdivision Hb Hs) as Hsd.
  destruct (snap_generated_lt_step t bpm duration subdivision Hb Hs Ht0 Htd)
    as (grid & Hgrid & Hne & Hlt).
  exists grid. split_and!; [exact Hgrid | exact Hlt |].
  destruct (grid_position_below t bpm duration subdivision Hb Hs Ht0 Htd)
    as (k & HkN & Hk1 & Hk2).
  rewrite generate_beat_grid_eq in Hgrid by done. injection Hgrid as <-.
  set (sd := subdivision_duration bpm subdivision) in *.
  set (N := Z.to_nat _) in *. set (grid := map _ _) in *.
  destruct (snap_to_grid_min t grid Hne) as (idx & _ & Hall & _).
  rewrite Forall_forall in Hall.
  assert (Hsk : Qc_abs (snap_to_grid t grid - t) ≤ t - Qc_of_Z (Z.of_nat k) * sd).
  { replace (t - Qc_of_Z (Z.of_nat k) * sd) with (- (Qc_of_Z (Z.of_nat k) * sd - t)) by ring.
    rewrite <- (Qc_abs_nonpos (Qc_of_Z (Z.of_nat k) * sd - t))
      by (by apply Qcle_minus_nonpos).
    apply Hall. apply list_elem_of_lookup. exists k. by apply seq_multiples_lookup. }
  intros g Hg Htg.
  assert (Hlast : g = Qc_of_Z (Z.of_nat (N - 1)) * sd).
  { unfold grid in Hg. rewrite last_lookup, length_map, length_seq in Hg.
    replace (Init.Nat.pred N) with (N - 1)%nat in Hg by lia.
    rewrite seq_multiples_lookup in Hg by lia. by injection Hg. }
  destruct (decide (S k < N)%nat) as [Hlt'|Hge].
  - assert (Hsk1 : Qc_abs (snap_to_grid t grid - t)
                   ≤ Qc_abs (Qc_of_Z (Z.of_nat (S k)) * sd - t)).
    { apply Hall. apply list_elem_of_lookup. exists (S k). by apply seq_multiples_lookup. }
    replace (Qc_of_Z (Z.of_nat (S k))) with (Qc_of_Z (Z.of_nat k) + 1) in Hsk1
      by (rewrite <- Z2Qc_inj_1, <- Z2Qc_inj_add; f_equal; lia).
    rewrite (Qc_abs_of_nonneg ((Qc_of_Z (Z.of_nat k) + 1) * sd - t)) in Hsk1.
    2:{ clear -Hk2. clearbody sd. set (z := Qc_of_Z _) in *. clearbody z. this_Q. lra. }
    clear -Hsk Hsk1. set (a := Qc_abs _) in *. set (z := Qc_of_Z _) in *.
    clearbody a z sd. this_Q. change (this 2) with (2 # 1)%Q. lra.
  - assert (Hk' : k = (N - 1)%nat) by lia.
    rewrite <- Hk' in Hlast. subst g.
    pose proof (Qc_abs_nonneg (snap_to_grid t grid - t)) as Hnn.
    clear -Hsk Htg Hnn Hsd. set (a := Qc_abs _) in *. set (z := Qc_of_Z _) in *.
    clearbody a z sd. this_Q. change (this 2) with (2 # 1)%Q. lra.
Qed.

Lemma snap_to_grid_within_step_witness :
  0 < Qc_of_Z 120 ∧ (0 < 4)%Z ∧ (0 : Qc) ≤ Q2Qc (3 # 10) ∧ Q2Qc (3 # 10) < 1
  ∧ ∃ grid,
      generate_beat_grid (Qc_of_Z 120) 1 4 = Some grid
      ∧ Qc_abs (snap_to_grid (Q2Qc (3 # 10)) grid - Q2Qc (3 # 10))
        < subdivision_duration (Qc_of_Z 120) 4.
Proof.
  assert (H1 : 0 < Qc_of_Z 120) by done.
  assert (H2 : (0 < 4)%Z) by done.
  assert (H3 : (0 : Qc) ≤ Q2Qc (3 # 10)) by by_computation.
  assert (H4 : Q2Qc (3 # 10) < 1) by done.
  split_and!; [exact H1 | exact H2 | exact H3 | exact H4 |].
  destruct (snap_to_grid_within_step (Q2Qc (3 # 10)) (Qc_of_Z 120) 1 4 H1 H2 H3 H4)
    as (grid & Hg & Hlt & _).
  by exists grid.
Defined.

(** ** The peak detector, again *)

(** The inner loop returns the first maximum of the samples it has run
    over, and it stops at the end of the envelope or at a sample below the
    threshold. *)
Lemma peak_region_max rms thr rest : ∀ j pv pidx lo,
  rest = drop j rms →
  (lo ≤ pidx < j)%nat → (j ≤ length rms)%nat →
  rms !! pidx = Some pv →
  (∀ m w, (lo ≤ m < j)%nat → rms !! m = Some w → thr ≤ w ∧ w ≤ pv) →
  (∀ m w, (lo ≤ m < pidx)%nat → rms !! m = Some w → w < pv) →
  let r := peak_region thr rest j pv pidx in
  (lo ≤ r.1.2 < r.2)%nat ∧ (r.2 ≤ length rms)%nat ∧ rms !! r.1.2 = Some r.1.1
  ∧ (∀ m w, (lo ≤ m < r.2)%nat → rms !! m = Some w → thr ≤ w ∧ w ≤ r.1.1)
  ∧ (∀ m w, (lo ≤ m < r.1.2)%nat → rms !! m = Some w → w < r.1.1)
  ∧ (∀ w, rms !! r.2 = Some w → w < thr).
Proof.
  induction rest as [|x rest IH]; intros j pv pidx lo Hrest Hidx Hlen Hpv Hall Hfirst;
    cbn [peak_region].
  - cbn. split_and!; [lia.. | done | done | done |].
    intros w Hw. apply lookup_lt_Some in Hw.
    assert (Hd : length (drop j rms) = 0%nat) by (by rewrite <- Hrest).
    rewrite length_drop in Hd. lia.
  - assert (Hj : rms !! j = Some x).
    { rewrite <- (Nat.add_0_r j), <- lookup_drop, <- Hrest. done. }
    assert (Hrest' : rest = drop (S j) rms).
    { assert (H : rest = drop 1 (drop j rms)) by (by rewrite <- Hrest).
      rewrite drop_drop in H. rewrite H. f_equal. lia. }
    pose proof (lookup_lt_Some _ _ _ Hj) as Hjlt.
    case_bool_decide as Hx.
    2:{ cbn. split_and!; [lia.. | done | done | done |].
        intros w Hw. rewrite Hj in Hw. injection Hw as <-. by apply Qcnot_le_lt. }
    case_bool_decide as Hgt.
    + apply (IH (S j) x j lo); [done | lia | lia | done | |].
      * intros m w Hm Hw. destruct (decide (m = j)) as [->|Hne].
        -- rewrite Hj in Hw. injection Hw as <-. split; [done | apply Qcle_refl].
        -- destruct (Hall m w) as [H1 H2]; [lia | done |].
           split; [done|]. apply Qclt_le_weak. by eapply Qcle_lt_trans.
      * intros m w Hm Hw. destruct (Hall m w) as [_ H2]; [lia | done |].
        by eapply Qcle_lt_trans.
    + apply (IH (S j) pv pidx lo); [done | lia | lia | done | | done].
      intros m w Hm Hw. destruct (decide (m = j)) as [->|Hne].
      * rewrite Hj in Hw. injection Hw as <-. split; [done | by apply Qcnot_lt_le].
      * apply (Hall m w); [lia | done].
Qed.

Section peak_regions.
Variables (rms : list Qc) (duration threshold rearm_threshold : Qc) (min_gap_samples : Z).

(** The peaks that the loop appends are the peaks of regions of the
    envelope, and between two of them the envelope falls below the re-arm
    threshold. *)
Lemma peak_loop_regions fuel : ∀ i armed last accepted,
  (length rms ≤ fuel + i)%nat →
  Sorted (dips_between rms rearm_threshold) accepted →
  Forall (region_peak rms threshold rearm_threshold) accepted →
  match accepted with
  | [] => True
  | a :: _ =>
      (a < i)%nat
      ∧ (armed = true →
         ∃ m v, (a < m < i)%nat ∧ rms !! m = Some v ∧ v < rearm_threshold)
  end →
  (armed = true → ∀ w, i ≠ 0%nat → rms !! (i - 1)%nat = Some w →
                       w < threshold ∨ w < rearm_threshold) →
  ∃ more,
    peak_loop fuel rms duration threshold rearm_threshold min_gap_samples i armed last
      (map (sample_time (len rms) duration) (reverse accepted))
    = Some (map (sample_time (len rms) duration) (reverse (more ++ accepted)))
    ∧ Sorted (dips_between rms rearm_threshold) (more ++ accepted)
    ∧ Forall (region_peak rms threshold rearm_threshold) (more ++ accepted).
Proof.
  induction fuel as [|fuel IH];
    intros i armed last accepted Hfuel Hsorted Hall Hlast Hleft.
  - exists []. split; [|done]. cbn [peak_loop].
    destruct (rms !! i) eqn:Hi; [|done].
    apply lookup_lt_Some in Hi. lia.
  - cbn [peak_loop]. destruct (rms !! i) as [val|] eqn:Hi; [|by exists []].
    pose proof (lookup_lt_Some _ _ _ Hi) as Hlt.
    assert (Hprev : ∀ w, rms !! (S i - 1)%nat = Some w → w = val).
    { intros w Hw. replace (S i - 1)%nat with i in Hw by lia. congruence. }
    destruct armed.
    + case_bool_decide as Hthr.
      * pose proof (peak_region_max rms threshold (drop (S i) rms) (S i) val i i
                      eq_refl ltac:(lia) ltac:(lia) Hi) as Hreg.
        cbn zeta in Hreg.
        destruct (peak_region threshold (drop (S i) rms) (S i) val i)
          as [[pv pidx] j]. cbn [fst snd] in Hreg.
        destruct Hreg as (H1 & H2 & H3 & H4 & H5 & H6).
        { intros m w Hm Hw. assert (m = i) as -> by lia.
          rewrite Hi in Hw. injection Hw as <-. split; [done | apply Qcle_refl]. }
        { intros m w Hm. lia. }
        case_bool_decide as Hgap.
        -- destruct (IH j false (Z.of_nat pidx) (pidx :: accepted))
             as (more & Hl & Hs & Hf).
           { lia. }
           { constructor; [done|]. destruct accepted as [|a acc]; constructor.
             destruct Hlast as [Ha Hdip]. destruct (Hdip eq_refl) as (m & v & Hm & Hv & Hlow).
             exists m, v. split_and!; [lia.. | done | done]. }
           { constructor; [|done]. exists i, j, pv.
             split_and!; [lia.. | done | done | done | done |].
             intros w Hne Hw. by apply (Hleft eq_refl w). }
           { split; [lia | discriminate]. }
           { discriminate. }
           exists (more ++ [pidx]). rewrite <- app_assoc. cbn [app].
           rewrite reverse_cons, map_app in Hl. done.
        -- apply IH; [lia | done | done | | discriminate]. destruct accepted; [done|].
           split; [lia | discriminate].
      * apply IH; [lia | done | done | |].
        -- destruct accepted as [|a acc]; [done|].
           destruct Hlast as [Ha Hdip]. split; [lia|]. intros _.
           destruct (Hdip eq_refl) as (m & v & Hm & Hv & Hlow).
           exists m, v. split_and!; [lia.. | done | done].
        -- intros _ w _ Hw. apply Hprev in Hw as ->. left. by apply Qcnot_le_lt.
    + apply IH; [lia | done | done | |].
      * destruct accepted as [|a acc]; [done|].
        destruct Hlast as [Ha _]. split; [lia|]. intros Harm.
        apply bool_decide_eq_true in Harm. exists i, val. split_and!; [lia.. | done | done].
      * intros Harm w _ Hw. apply Hprev in Hw as ->. right.
        by apply bool_decide_eq_true in Harm.
Qed.

End peak_regions.

Lemma region_peak_lt rms thr rearm k : region_peak rms thr rearm k → (k < length rms)%nat.
Proof. intros (lo & hi & v & _ & _ & Hv & _). by apply lookup_lt_Some in Hv. Qed.

(** The result of [detect_peaks], by the sample indices of the peaks. *)
Lemma detect_peaks_regions w d thr g rearm :
  ∃ idxs,
    detect_peaks w d thr g rearm = Some (map (sample_time (len (rms_of w)) d) idxs)
    ∧ Forall (region_peak (rms_of w) (threshold_of (rms_of w) thr)
                (threshold_of (rms_of w) (default (thr * DEFAULT_REARM_RATIO) rearm))) idxs
    ∧ Sorted (flip (dips_between (rms_of w)
                      (threshold_of (rms_of w)
                         (default (thr * DEFAULT_REARM_RATIO) rearm)))) idxs.
Proof.
  unfold detect_peaks. destruct (no_waveform w); [by exists []|].
  destruct (rms_of w) as [|x rest] eqn:Hrms; [by exists []|].
  case_bool_decide; [by exists []|].
  edestruct (peak_loop_regions (x :: rest) d) with (accepted := @nil nat)
    as (more & Hl & Hs & Hf); [| | |exact I| |].
  5:{ cbn [reverse map] in Hl. eexists (reverse (more ++ [])). split_and!; [exact Hl | |].
      - apply Forall_reverse. exact Hf.
      - apply Sorted_reverse. exact Hs. }
  - cbn. lia.
  - constructor.
  - constructor.
  - intros _ v Hne. done.
Qed.

Lemma sample_time_range (n : Z) (d : Qc) (k : nat) :
  0 < d → (Z.of_nat k < n)%Z → 0 ≤ sample_time n d k ∧ sample_time n d k < d.
Proof.
  intros Hd Hk. unfold sample_time.
  assert (Hn : 0 < Qc_of_Z n) by (apply Qc_of_Z_pos; lia).
  assert (Hk0 : 0 ≤ Qc_of_Z (Z.of_nat k)) by (apply Qc_of_Z_nonneg; lia).
  assert (Hkn : Qc_of_Z (Z.of_nat k) < Qc_of_Z n) by (by apply (proj1 (Z2Qc_inj_lt _ _))).
  split.
  - apply Qcmult_nonneg_nonneg; [|by apply Qclt_le_weak].
    unfold Qcdiv. apply Qcmult_nonneg_nonneg; [done|]. by apply Qclt_le_weak, Qcinv_pos.
  - rewrite <- (Qcmult_1_l d) at 2. apply Qcmult_lt_compat_r; [done|].
    rewrite <- (Qcmult_inv_r (Qc_of_Z n)) by (by apply Qc_pos_neq).
    unfold Qcdiv. apply Qcmult_lt_compat_r; [by apply Qcinv_pos | done].
Qed.

(** X13: every time that [detect_peaks] returns is the time of the peak of
    a region of the envelope: the region is a run of samples at or above the
    threshold that ends with the envelope or before a sample below the
    threshold, and that begins at the first sample or after a sample below the
    threshold or the re-arm threshold, and the sample returned is the first
    maximum of the region.  With a positive duration the times lie in
    [[0, duration)]; and an envelope whose samples are all equal gives no peak,
    whatever the duration. *)
Theorem detect_peaks_region_maxima (w : option WaveformData) (d thr g : Qc)
    (rearm : option Qc) :
  ∃ idxs,
    detect_peaks w d thr g rearm = Some (map (sample_time (len (rms_of w)) d) idxs)
    ∧ Forall (region_peak (rms_of w) (threshold_of (rms_of w) thr)
                (threshold_of (rms_of w) (default (thr * DEFAULT_REARM_RATIO) rearm))) idxs
    ∧ (0 < d → Forall (λ k, 0 ≤ sample_time (len (rms_of w)) d k
                             ∧ sample_time (len (rms_of w)) d k < d) idxs)
    ∧ (constant (rms_of w) → idxs = []).
Proof.
  destruct (detect_peaks_regions w d thr g rearm) as (idxs & Hd & Hreg & _).
  exists idxs. split_and!; [done | done | |].
  - intros Hpos. eapply Forall_impl; [exact Hreg|]. intros k Hk.
    apply sample_time_range; [done|]. apply region_peak_lt in Hk. unfold len. lia.
  - intros Hc. assert (He : detect_peaks w d thr g rearm = Some []).
    { unfold detect_peaks. destruct (no_waveform w); [done|].
      destruct (rms_of w) as [|x rest]; [done|].
      rewrite bool_decide_true; [done|]. by apply constant_range. }
    rewrite He in Hd. injection Hd as Hd. symmetry in Hd.
    by apply fmap_nil_inv in Hd.
Qed.

(** A sample at or above the threshold is not the peak of a region when a
    later sample of its run is greater: of the envelope [[0, 5, 10, 0]] with
    the threshold 50 % only the sample 2 is returned (at 2/4 of 4 s), not the
    sample 1 that opens the region. *)
Example detect_peaks_region_example :
  detect_peaks (Some (mkWaveformData None None (Some (map Qc_of_Z [0; 5; 10; 0]%Z))))
    (Qc_of_Z 4) (Qc_of_Z 50) 0 None
  = Some [Qc_of_Z 2]
  ∧ ¬ region_peak (map Qc_of_Z [0; 5; 10; 0]%Z) (Qc_of_Z 5) (Q2Qc (7 # 2)) 1.
Proof.
  split; [by_computation|].
  intros (lo & hi & v & Hk & Hhi & Hv & Hrun & _ & Hright & _).
  cbn in Hv. injection Hv as <-.
  destruct (decide (hi = 2%nat)) as [->|Hne].
  - specialize (Hright (Qc_of_Z 10) eq_refl). revert Hright. by_computation.
  - cbn in Hhi. destruct (Hrun 2%nat (Qc_of_Z 10)) as [_ Hle]; [lia | done |].
    revert Hle. by_computation.
Qed.

(** X14: between two consecutive peaks that [detect_peaks] returns, some
    sample of the envelope is below the re-arm threshold (the hysteresis):
    a stretch that never falls below it gives at most one peak. *)
Theorem detect_peaks_hysteresis (w : option WaveformData) (d thr g : Qc)
    (rearm : option Qc) :
  ∃ idxs,
    detect_peaks w d thr g rearm = Some (map (sample_time (len (rms_of w)) d) idxs)
    ∧ Sorted (λ b a, dips_between (rms_of w)
                       (threshold_of (rms_of w)
                          (default (thr * DEFAULT_REARM_RATIO) rearm)) a b) idxs.
Proof.
  destruct (detect_peaks_regions w d thr g rearm) as (idxs & Hd & _ & Hs).
  by exists idxs.
Qed.

(** ** Lanes and waveforms *)

(** X15: the two key mappings are inverse to each other between the lanes
    and the waveforms, and they fall back to "main" and "base": whatever the
    name given, [waveform_to_lane_key] returns a lane (so that a note of that
    type passes the validation) and [lane_to_waveform_key] a waveform. *)
Theorem lane_waveform_keys :
  (∀ lane, lane ∈ LANES →
           waveform_to_lane_key (lane_to_waveform_key lane) = lane)
  ∧ (∀ w, w ∈ WAVEFORMS → lane_to_waveform_key (waveform_to_lane_key w) = w)
  ∧ (∀ w, waveform_to_lane_key w ∈ LANES)
  ∧ (∀ lane, lane_to_waveform_key lane ∈ WAVEFORMS)
  ∧ (∀ w, w ∉ WAVEFORMS → waveform_to_lane_key w = "base"%string)
  ∧ (∀ lane, lane ∉ LANES → lane_to_waveform_key lane = "main"%string).
Proof.
  split_and!.
  - intros lane Hl. unfold LANES in Hl.
    repeat (apply elem_of_cons in Hl as [->|Hl]; [by vm_compute|]).
    by apply not_elem_of_nil in Hl.
  - intros w Hw. unfold WAVEFORMS in Hw.
    repeat (apply elem_of_cons in Hw as [->|Hw]; [by vm_compute|]).
    by apply not_elem_of_nil in Hw.
  - intros w. unfold waveform_to_lane_key.
    destruct (WAVEFORM_TO_LANE !! w) as [v|] eqn:Hv; [|by_computation].
    apply elem_of_list_to_map_2 in Hv.
    repeat (apply elem_of_cons in Hv as [Hv|Hv]; [injection Hv as -> ->; by_computation|]).
    by apply not_elem_of_nil in Hv.
  - intros lane. unfold lane_to_waveform_key.
    destruct (LANE_TO_WAVEFORM !! lane) as [v|] eqn:Hv; [|by_computation].
    apply elem_of_list_to_map_2 in Hv.
    repeat (apply elem_of_cons in Hv as [Hv|Hv]; [injection Hv as -> ->; by_computation|]).
    by apply not_elem_of_nil in Hv.
  - intros w Hw. unfold waveform_to_lane_key.
    destruct (WAVEFORM_TO_LANE !! w) as [v|] eqn:Hv; [|done].
    exfalso. apply Hw. apply elem_of_list_to_map_2 in Hv.
    repeat (apply elem_of_cons in Hv as [Hv|Hv]; [injection Hv as -> ->; by_computation|]).
    by apply not_elem_of_nil in Hv.
  - intros lane Hl. unfold lane_to_waveform_key.
    destruct (LANE_TO_WAVEFORM !! lane) as [v|] eqn:Hv; [|done].
    exfalso. apply Hl. apply elem_of_list_to_map_2 in Hv.
    repeat (apply elem_of_cons in Hv as [Hv|Hv]; [injection Hv as -> ->; by_computation|]).
    by apply not_elem_of_nil in Hv.
Qed.

(** ** The duplicate clean-up, again *)

Lemma concat_nils {A} (ls : list (list A)) : Forall (λ l, l = []) ls → concat ls = [].
Proof. induction 1 as [|l ls -> _ IH]; [done|]. done. Qed.

Lemma no_duplicates_of h l :
  (∀ t, (length (group_of t (note_keys h l)) ≤ 1)%nat) → duplicates_of h l = [].
Proof.
  intros Hg. rewrite duplicates_marked. unfold marked. apply concat_nils.
  apply Forall_fmap. eapply Forall_impl; [apply time_groups_spec|].
  intros [t g] Hp. cbn in *. subst g.
  specialize (Hg t). rewrite <- note_keys_group in Hg. unfold note_keys in Hg.
  rewrite length_map in Hg.
  pose proof (Permutation_length (sort_by_level_perm h
                (filter (λ r, py_round (time (deref h r)) 3 = t) l))) as Hlen.
  destruct (sort_by_level h _) as [|x [|y rest]]; [done | done | cbn in *; lia].
Qed.

(** X16: the duplicate clean-up is idempotent: after a clean-up (of
    duplicates that the constructor accepts, so that their copies do not
    raise), no two notes share a time rounded to the millisecond, and a
    second clean-up finds nothing to remove and leaves the session, its
    history included, as it is. *)
Theorem cleanup_is_idempotent (s : Session) :
  (0 ≤ _max_size (history s))%Z →
  allocated (heap s) (_notes (beatmap s)) →
  valid_notes (heap s) (duplicates_of (heap s) (_notes (beatmap s))) →
  ∃ s' msg,
    _on_cleanup_duplicates s = Some (s', msg)
    ∧ (∀ t, (length (group_of t (note_keys (heap s') (_notes (beatmap s')))) ≤ 1)%nat)
    ∧ ∃ msg',
        _on_cleanup_duplicates s' = Some (s', msg')
        ∧ (msg' = [Text "No markers to clean up"]
           ∨ msg' = [Text "No duplicate markers found"]).
Proof.
  intros Hmax Halloc Hv.
  destruct (cleanup_notes s Hmax Halloc Hv) as (s' & msg & Hc & Hk & _).
  exists s', msg. split; [exact Hc|].
  assert (Hg : ∀ t, (length (group_of t (note_keys (heap s') (_notes (beatmap s')))) ≤ 1)%nat).
  { intros t. rewrite Hk, group_after_cleanup. destruct (lowest_level_first _); cbn; lia. }
  split; [exact Hg|].
  unfold _on_cleanup_duplicates. case_bool_decide; [eauto|].
  rewrite (no_duplicates_of _ _ Hg). rewrite bool_decide_true by done. eauto.
Qed.

Lemma cleanup_is_idempotent_witness :
  (0 ≤ _max_size (history two_notes_session))%Z
  ∧ allocated (heap two_notes_session) (_notes (beatmap two_notes_session))
  ∧ valid_notes (heap two_notes_session)
      (duplicates_of (heap two_notes_session) (_notes (beatmap two_notes_session)))
  ∧ ∃ s' msg,
      _on_cleanup_duplicates two_notes_session = Some (s', msg)
      ∧ ∃ msg', _on_cleanup_duplicates s' = Some (s', msg').
Proof.
  assert (H1 : (0 ≤ _max_size (history two_notes_session))%Z) by done.
  assert (H2 : allocated (heap two_notes_session) (_notes (beatmap two_notes_session))).
  { unfold allocated. by_computation. }
  assert (H3 : valid_notes (heap two_notes_session)
                 (duplicates_of (heap two_notes_session)
                    (_notes (beatmap two_notes_session)))) by by_computation.
  split_and!; [exact H1 | exact H2 | exact H3 |].
  destruct (cleanup_is_idempotent two_notes_session H1 H2 H3)
    as (s' & msg & Hc & _ & msg' & Hc' & _).
  exists s', msg. split; [exact Hc|]. by exists msg'.
Defined.

(** ** Deleting the selection *)

Lemma remove_keys_submseteq ks : ∀ l, ks ⊆+ l → l ≡ₚ ks ++ remove_keys l ks.
Proof.
  induction ks as [|k ks IH]; intros l Hsub; [done|].
  cbn [remove_keys foldl app].
  assert (Hk : k ∈ l).
  { eapply elem_of_submseteq; [|exact Hsub]. apply list_elem_of_here. }
  pose proof (remove_first_in k l Hk) as Hp.
  rewrite Hp in Hsub. apply (submseteq_app_inv_l _ _ [k]) in Hsub.
  rewrite Hp at 1. f_equiv. apply (IH _ Hsub).
Qed.

Lemma list_remove_subseteq h l x y : y ∈ list_remove h l x → y ∈ l.
Proof.
  induction l as [|z l IH]; cbn [list_remove]; [done|].
  destruct (same_note h x z).
  - apply list_elem_of_further.
  - intros [->|Hy]%elem_of_cons; [apply list_elem_of_here|].
    by apply list_elem_of_further, IH.
Qed.

Lemma remove_notes_subseteq h b notes y :
  y ∈ _notes (remove_notes h b notes) → y ∈ _notes b.
Proof.
  unfold remove_notes. cbn [_notes]. generalize (_notes b) as l.
  induction notes as [|n notes IH]; intros l; cbn [foldl]; [done|].
  intros Hy. apply IH in Hy. destruct (contains h l n); [|done].
  by eapply list_remove_subseteq.
Qed.

Lemma allocated_filter h (P : ref → Prop) `{∀ r, Decision (P r)} l :
  allocated h l → allocated h (filter P l).
Proof.
  unfold allocated. rewrite !Forall_forall. intros Hl r Hr.
  apply list_elem_of_filter in Hr as [_ Hr]. by apply Hl.
Qed.

(** What [_on_delete_selected] does to a selection that is not empty. *)
Lemma delete_selected_notes (s : Session) :
  (0 ≤ _max_size (history s))%Z →
  allocated (heap s) (_notes (beatmap s)) →
  get_selected_notes (heap s) (beatmap s) ≠ [] →
  valid_notes (heap s) (get_selected_notes (heap s) (beatmap s)) →
  ∃ s',
    _on_delete_selected false s
    = Some (s', Some [Text "Deleted "; Int (len (get_selected_notes (heap s) (beatmap s)));
                      Text " marker(s)"])
    ∧ (∀ r, (r < next_ref (heap s))%nat → deref (heap s') r = deref (heap s) r)
    ∧ (∀ r, r ∈ _notes (beatmap s') → r ∈ _notes (beatmap s))
    ∧ _dirty (beatmap s') = true
    ∧ note_keys (heap s') (_notes (beatmap s'))
      = remove_keys (note_keys (heap s) (_notes (beatmap s)))
          (note_keys (heap s) (get_selected_notes (heap s) (beatmap s))).
Proof.
  intros Hmax Halloc Hsel Hv. unfold _on_delete_selected.
  rewrite bool_decide_false by done.
  set (selected := get_selected_notes (heap s) (beatmap s)) in *.
  assert (Hasel : allocated (heap s) selected) by (by apply allocated_filter).
  unfold new_RemoveNotesCommand.
  pose proof (copy_notes_valid _ _ Hasel) as Hc. rewrite decide_True in Hc by done.
  destruct Hc as (h' & cs & Hcopy). rewrite Hcopy. cbn [mbind option_bind].
  destruct (copy_notes_spec selected (heap s) h' cs Hasel Hcopy)
    as (Hkeys & Hnext & Hold & _).
  rewrite (History_execute_Some (Z.to_nat (_max_size (history s)))) by (cbn; lia).
  cbn [mbind option_bind]. eexists. split; [reflexivity|].
  rewrite run_heap, run_beatmap. cbn [execute fst snd heap beatmap].
  split_and!; [done | apply remove_notes_subseteq | done |].
  rewrite note_keys_remove_notes, Hkeys. f_equal.
  apply note_keys_heap_ext. intros r Hr. apply Hold.
  unfold allocated in Halloc. rewrite Forall_forall in Halloc. by apply Halloc.
Qed.

(** X17: when the selected notes have a level and a lane that the
    constructor accepts, [_on_delete_selected] removes from the beatmap one
    note for each selected note, with the value of that note, so that the
    notes before are the selected ones and the remaining ones; when no two
    notes of the beatmap have the same value, no selected note remains.
    When a selected note is not valid, the copy made for the undo raises and
    nothing is removed.  Nothing happens while a text input has the focus. *)
Theorem delete_selected_removes_selection (s : Session) :
  (0 ≤ _max_size (history s))%Z →
  allocated (heap s) (_notes (beatmap s)) →
  _on_delete_selected true s = Some (s, None)
  ∧ (valid_notes (heap s) (get_selected_notes (heap s) (beatmap s)) →
     ∃ s' status,
       _on_delete_selected false s = Some (s', status)
       ∧ note_keys (heap s) (_notes (beatmap s))
         ≡ₚ note_keys (heap s) (get_selected_notes (heap s) (beatmap s))
            ++ note_keys (heap s') (_notes (beatmap s'))
       ∧ (NoDup (note_keys (heap s) (_notes (beatmap s))) →
          get_selected_notes (heap s') (beatmap s') = []))
  ∧ (¬ valid_notes (heap s) (get_selected_notes (heap s) (beatmap s)) →
     _on_delete_selected false s = None).
Proof.
  intros Hmax Halloc. split; [done|]. split.
  2:{ intros Hv. unfold _on_delete_selected.
      rewrite bool_decide_false by (intros Hn; apply Hv; rewrite Hn; constructor).
      unfold new_RemoveNotesCommand.
      pose proof (copy_notes_valid (get_selected_notes (heap s) (beatmap s)) (heap s)
                    (allocated_filter _ _ _ Halloc)) as Hc.
      rewrite decide_False in Hc by done. by rewrite Hc. }
  intros Hv.
  destruct (decide (get_selected_notes (heap s) (beatmap s) = [])) as [Hnil|Hsel].
  { exists s, None. unfold _on_delete_selected. rewrite bool_decide_true by done.
    split_and!; [done | by rewrite Hnil | done]. }
  destruct (delete_selected_notes s Hmax Halloc Hsel Hv)
    as (s' & Hd & Hold & Hsub & _ & Hk).
  eexists s', _. split; [exact Hd|].
  assert (Hperm : note_keys (heap s) (_notes (beatmap s))
                  ≡ₚ note_keys (heap s) (get_selected_notes (heap s) (beatmap s))
                     ++ note_keys (heap s') (_notes (beatmap s'))).
  { rewrite Hk. apply remove_keys_submseteq. unfold note_keys.
    apply fmap_submseteq, sublist_submseteq, sublist_filter. }
  split; [exact Hperm|]. intros Hnd.
  apply filter_none. intros r Hr Hs.
  assert (Hr0 : r ∈ _notes (beatmap s)) by (by apply Hsub).
  assert (Hlt : (r < next_ref (heap s))%nat).
  { unfold allocated in Halloc. rewrite Forall_forall in Halloc. by apply Halloc. }
  rewrite (Hold r Hlt) in Hs.
  rewrite Hperm in Hnd. apply NoDup_app in Hnd as (_ & Hdisj & _).
  apply (Hdisj (note_key (deref (heap s) r))).
  - unfold note_keys. apply (list_elem_of_fmap_2 (λ r, note_key (deref (heap s) r))).
    by apply list_elem_of_filter.
  - rewrite <- (Hold r Hlt). unfold note_keys.
    by apply (list_elem_of_fmap_2 (λ r, note_key (deref (heap s') r))).
Qed.

Lemma delete_selected_removes_selection_witness :
  (0 ≤ _max_size (history both_selected_session))%Z
  ∧ allocated (heap both_selected_session) (_notes (beatmap both_selected_session))
  ∧ valid_notes (heap both_selected_session)
      (get_selected_notes (heap both_selected_session) (beatmap both_selected_session))
  ∧ ∃ s' status,
      _on_delete_selected false both_selected_session = Some (s', status)
      ∧ note_keys (heap both_selected_session) (_notes (beatmap both_selected_session))
        ≡ₚ note_keys (heap both_selected_session)
             (get_selected_notes (heap both_selected_session)
                (beatmap both_selected_session))
           ++ note_keys (heap s') (_notes (beatmap s')).
Proof.
  assert (H1 : (0 ≤ _max_size (history both_selected_session))%Z) by done.
  assert (H2 : allocated (heap both_selected_session)
                 (_notes (beatmap both_selected_session))).
  { unfold allocated. by_computation. }
  assert (H3 : valid_notes (heap both_selected_session)
                 (get_selected_notes (heap both_selected_session)
                    (beatmap both_selected_session))) by by_computation.
  split_and!; [exact H1 | exact H2 | exact H3 |].
  destruct (proj1 (proj2 (delete_selected_removes_selection both_selected_session H1 H2))
              H3) as (s' & status & Hd & Hp & _).
  exists s', status. split; [exact Hd | exact Hp].
Defined.

(** The example deletes both notes. *)
Example delete_selected_example :
  (λ r : Session * option Description, (_notes (beatmap r.1), r.2))
    <$> _on_delete_selected false both_selected_session
  = Some ([], Some [Text "Deleted "; Int 2; Text " marker(s)"]).
Proof. by_computation. Qed.

(** ** Writing a field of the selected notes *)

Section field_write.
Context {V : Type} (put : V → Note → Note).
Variable upd : Heap → ref → V → Heap.
Hypothesis put_put : ∀ v w n, put v (put w n) = put v n.
Hypothesis deref_upd :
  ∀ h r v x, deref (upd h r v) x = if (x =? r)%nat then put v (deref h r) else deref h x.

(** Writing to each note of a list a value computed from the note: every
    note of the list holds its value, the other notes are as before. *)
Lemma foldl_upd_map (f : ref → V) rs : ∀ h x,
  deref (foldl (λ h '(r, v), upd h r v) h (zip rs (map f rs))) x
  = if decide (x ∈ rs) then put (f x) (deref h x) else deref h x.
Proof.
  induction rs as [|r rs IH]; intros h x; cbn [map zip zip_with foldl].
  - rewrite decide_False; [done | apply not_elem_of_nil].
  - rewrite IH, deref_upd.
    destruct (decide (x ∈ rs)) as [Hin|Hin].
    + rewrite decide_True by (by apply list_elem_of_further).
      destruct (Nat.eqb_spec x r) as [->|_]; [apply put_put | done].
    + destruct (Nat.eqb_spec x r) as [->|Hne].
      * rewrite decide_True; [done | apply list_elem_of_here].
      * rewrite decide_False; [done|]. intros [->|?]%elem_of_cons; contradiction.
Qed.

End field_write.

Lemma put_time_put v w n : put_time v (put_time w n) = put_time v n.
Proof. done. Qed.

Lemma put_level_put v w n : put_level v (put_level w n) = put_level v n.
Proof. done. Qed.

Lemma put_time_type_put v w n : put_time_type v (put_time_type w n) = put_time_type v n.
Proof. done. Qed.

Lemma set_times_map h rs (f : ref → Qc) x :
  deref (set_times h rs (map f rs)) x
  = if decide (x ∈ rs) then put_time (f x) (deref h x) else deref h x.
Proof. apply (foldl_upd_map put_time set_time put_time_put deref_set_time). Qed.

Lemma zip_map2 {A B C} (f : A → B) (g : A → C) (l : list A) :
  zip l (zip (map f l) (map g l)) = zip l (map (λ a, (f a, g a)) l).
Proof. induction l as [|a l IH]; cbn; [done | by rewrite IH]. Qed.

Lemma set_times_types_map h rs (f : ref → Qc) (g : ref → string) x :
  deref (set_times_types h rs (map f rs) (map g rs)) x
  = if decide (x ∈ rs) then put_time_type (f x, g x) (deref h x) else deref h x.
Proof.
  unfold set_times_types. rewrite zip_map2.
  rewrite <- (foldl_upd_map put_time_type (λ h r v, set_type (set_time h r v.1) r v.2)
                put_time_type_put deref_set_time_type (λ a, (f a, g a)) rs h x).
  f_equal. generalize (zip rs (map (λ a, (f a, g a)) rs)) as l. intros l. revert h.
  induction l as [|[r [t ty]] l IH]; intros h; cbn [foldl]; [done | apply IH].
Qed.

Lemma selected_iff h b r :
  r ∈ get_selected_notes h b ↔ selected (deref h r) = true ∧ r ∈ _notes b.
Proof. unfold get_selected_notes. by rewrite list_elem_of_filter. Qed.

(** ** Cycling the level of a marker *)

Lemma double_click_state (note : ref) (s : Session) :
  (0 ≤ _max_size (history s))%Z →
  ∃ s',
    _on_marker_double_click note s
    = Some (s', [Text "Changed level to ";
                 Int (level (deref (heap s) note) `mod` 3 + 1)])
    ∧ heap s' = set_level (heap s) note (level (deref (heap s) note) `mod` 3 + 1)
    ∧ beatmap s' = mark_dirty (beatmap s)
    ∧ _max_size (history s') = _max_size (history s).
Proof.
  intros Hmax. unfold _on_marker_double_click.
  rewrite (History_execute_Some (Z.to_nat (_max_size (history s)))) by lia.
  cbn [mbind option_bind]. eexists. split; [reflexivity|].
  rewrite run_heap, run_beatmap, run_history. cbn [execute new_ChangeLevelCommand fst snd].
  split_and!; [done | done | cbn; lia].
Qed.

(** X18: a double click on a marker always leaves it with a level among 1,
    2, 3 (whatever its level was), following the cycle 1 -> 2 -> 3 -> 1; it
    changes nothing else of any note nor the order of the notes, and marks
    the beatmap dirty; three double clicks bring a valid level back. *)
Theorem double_click_cycles_level (note : ref) (s : Session) :
  (0 ≤ _max_size (history s))%Z →
  (∃ s' msg,
     _on_marker_double_click note s = Some (s', msg)
     ∧ level (deref (heap s') note) ∈ [1; 2; 3]%Z
     ∧ (level (deref (heap s) note) = 1%Z → level (deref (heap s') note) = 2%Z)
     ∧ (level (deref (heap s) note) = 2%Z → level (deref (heap s') note) = 3%Z)
     ∧ (level (deref (heap s) note) = 3%Z → level (deref (heap s') note) = 1%Z)
     ∧ (∀ r, deref (heap s') r
             = if decide (r = note)
               then put_level (level (deref (heap s') note)) (deref (heap s) r)
               else deref (heap s) r)
     ∧ _notes (beatmap s') = _notes (beatmap s)
     ∧ _dirty (beatmap s') = true)
  ∧ (level (deref (heap s) note) ∈ [1; 2; 3]%Z →
     ∃ s3, double_clicks 3 note s = Some s3
           ∧ heap_eq (heap s3) (heap s)
           ∧ _notes (beatmap s3) = _notes (beatmap s)).
Proof.
  intros Hmax.
  assert (Hlv : ∀ s0 : Session, level (deref (set_level (heap s0) note
                  (level (deref (heap s0) note) `mod` 3 + 1)) note)
                = (level (deref (heap s0) note) `mod` 3 + 1)%Z).
  { intros s0. rewrite deref_set_level, Nat.eqb_refl. done. }
  split.
  - destruct (double_click_state note s Hmax) as (s' & Hc & Hh & Hb & _).
    eexists s', _. split; [exact Hc|]. rewrite Hh, Hb, Hlv.
    pose proof (Z.mod_pos_bound (level (deref (heap s) note)) 3 ltac:(lia)) as Hm.
    split_and!.
    + assert (H : (level (deref (heap s) note) `mod` 3 = 0
                   ∨ level (deref (heap s) note) `mod` 3 = 1
                   ∨ level (deref (heap s) note) `mod` 3 = 2)%Z) by lia.
      destruct H as [H | [H | H]]; rewrite H; by_computation.
    + by intros ->.
    + by intros ->.
    + by intros ->.
    + intros r. rewrite deref_set_level.
      destruct (Nat.eqb_spec r note) as [->|Hne].
      * by rewrite decide_True.
      * by rewrite decide_False.
    + done.
    + done.
  - intros Hvalid.
    destruct (double_click_state note s Hmax) as (s1 & Hc1 & Hh1 & Hb1 & Hm1).
    destruct (double_click_state note s1 ltac:(lia)) as (s2 & Hc2 & Hh2 & Hb2 & Hm2).
    destruct (double_click_state note s2 ltac:(lia)) as (s3 & Hc3 & Hh3 & Hb3 & Hm3).
    exists s3. cbn [double_clicks]. rewrite Hc1. cbn [fmap option_fmap option_map fst mbind option_bind].
    rewrite Hc2. cbn [fmap option_fmap option_map fst mbind option_bind].
    rewrite Hc3. cbn [fmap option_fmap option_map fst mbind option_bind].
    split_and!; [done | | by rewrite Hb3, Hb2, Hb1].
    intros r. rewrite Hh3, Hh2, Hh1, !deref_set_level.
    destruct (Nat.eqb_spec r note) as [->|Hne]; [|done].
    rewrite Nat.eqb_refl. unfold put_level. cbn [level time type selected].
    destruct (deref (heap s) note) as [t lv ty sel] eqn:Hn. cbn [level time type selected] in *.
    f_equal.
    repeat (apply elem_of_cons in Hvalid as [->|Hvalid]; [done|]).
    by apply not_elem_of_nil in Hvalid.
Qed.

Lemma double_click_cycles_level_witness :
  (0 ≤ _max_size (history two_notes_session))%Z
  ∧ ∃ s' msg,
      _on_marker_double_click 0%nat two_notes_session = Some (s', msg)
      ∧ level (deref (heap s') 0%nat) ∈ [1; 2; 3]%Z.
Proof.
  assert (H1 : (0 ≤ _max_size (history two_notes_session))%Z) by done.
  split; [exact H1|].
  destruct (proj1 (double_click_cycles_level 0%nat two_notes_session H1))
    as (s' & msg & Hc & Hl & _).
  by exists s', msg.
Defined.

(** ** Snapping the selection *)

Lemma snap_in_grid t grid : grid ≠ [] → snap_to_grid t grid ∈ grid.
Proof.
  intros Hne. destruct (snap_to_grid_min t grid Hne) as (idx & Hidx & _).
  apply list_elem_of_lookup. by exists idx.
Qed.

(** X19: when [_on_snap_selection] moves markers, every selected marker ends
    on the grid position nearest to it, the other notes are not changed, the
    notes stay sorted, and a second call finds all selected markers on the
    grid and changes nothing. *)
Theorem snap_selection_lands_on_grid (subdivision : Z) (s : Session) (grid : list Qc) :
  (0 ≤ _max_size (history s))%Z →
  0 < project_bpm s →
  generate_beat_grid (project_bpm s) (project_duration s) subdivision = Some grid →
  grid ≠ [] →
  (∃ r, r ∈ get_selected_notes (heap s) (beatmap s) ∧ moved_by_snap (heap s) grid r) →
  ∃ s' msg,
    _on_snap_selection subdivision s = Some (s', msg)
    ∧ (∀ r, deref (heap s') r
            = if decide (r ∈ get_selected_notes (heap s) (beatmap s))
              then put_time (snap_to_grid (time (deref (heap s) r)) grid) (deref (heap s) r)
              else deref (heap s) r)
    ∧ (∀ r, r ∈ get_selected_notes (heap s) (beatmap s) → time (deref (heap s') r) ∈ grid)
    ∧ _notes (beatmap s') ≡ₚ _notes (beatmap s)
    ∧ time_sorted (heap s') (_notes (beatmap s'))
    ∧ _on_snap_selection subdivision s'
      = Some (s', [Text "All selected markers already on grid"]).
Proof.
  intros Hmax Hbpm Hgrid Hne (r0 & Hr0 & Hmoved).
  set (selected := get_selected_notes (heap s) (beatmap s)) in *.
  set (h' := set_times (heap s) selected
               (map (λ r, snap_to_grid (time (deref (heap s) r)) grid) selected)).
  set (b' := mark_dirty (sort_notes h' (beatmap s))).
  assert (Hderef : ∀ r, deref h' r
            = if decide (r ∈ selected)
              then put_time (snap_to_grid (time (deref (heap s) r)) grid) (deref (heap s) r)
              else deref (heap s) r).
  { intros r. unfold h'. apply set_times_map. }
  assert (Hlen : len grid ≠ 0%Z).
  { unfold len. destruct grid; [done | cbn; lia]. }
  assert (Hbpm' : ¬ project_bpm s ≤ 0) by (by apply Qclt_not_le).
  assert (Hrun : ∃ msg hi, _on_snap_selection subdivision s
                           = Some (mkSession h' b' hi, msg)
                           ∧ _max_size hi = _max_size (history s)).
  { unfold _on_snap_selection. fold selected.
    rewrite bool_decide_false by (intros He; rewrite He in Hr0; by apply not_elem_of_nil in Hr0).
    rewrite bool_decide_false by done. rewrite Hgrid. cbn [mbind option_bind].
    rewrite bool_decide_false by done.
    rewrite bool_decide_false.
    2:{ unfold len. intros He.
        assert (Hin : r0 ∈ filter (λ r, Q2Qc (1 # 1000)
                        < Qc_abs (snap_to_grid (time (deref (heap s) r)) grid
                                  - time (deref (heap s) r))) selected)
          by (by apply list_elem_of_filter).
        destruct (filter _ selected); [by apply not_elem_of_nil in Hin | cbn in He; lia]. }
    rewrite (History_execute_Some (Z.to_nat (_max_size (history s)))) by lia.
    cbn [mbind option_bind]. eexists _, _. split; [reflexivity|]. cbn. lia. }
  destruct Hrun as (msg & hi & Hrun & Hmaxhi).
  exists (mkSession h' b' hi), msg. cbn [heap beatmap].
  assert (Hon : ∀ r, r ∈ selected → time (deref h' r) ∈ grid).
  { intros r Hr. rewrite Hderef, decide_True by done. cbn. by apply snap_in_grid. }
  split_and!; [exact Hrun | exact Hderef | exact Hon | apply sort_by_time_perm
               | apply sort_by_time_sorted |].
  assert (Hsel' : ∀ r, r ∈ get_selected_notes h' b' ↔ r ∈ selected).
  { intros r. unfold selected. rewrite !selected_iff. unfold b'. cbn [_notes mark_dirty sort_notes set_list].
    rewrite sort_by_time_perm. rewrite Hderef.
    destruct (decide (r ∈ selected)) as [Hin|Hin]; [|done].
    cbn [put_time selected]. done. }
  unfold _on_snap_selection. cbn [heap beatmap history].
  rewrite bool_decide_false.
  2:{ intros He. apply Hsel' in Hr0. rewrite He in Hr0. by apply not_elem_of_nil in Hr0. }
  change (project_bpm (mkSession h' b' hi)) with (project_bpm s).
  change (project_duration (mkSession h' b' hi)) with (project_duration s).
  rewrite bool_decide_false by done. rewrite Hgrid. cbn [mbind option_bind].
  rewrite bool_decide_false by done.
  rewrite filter_none; [done|].
  intros r Hr. apply Hsel', Hon in Hr.
  rewrite (snap_to_grid_fixed _ _ Hr), Qc_abs_self. by_computation.
Qed.

Lemma snap_selection_lands_on_grid_witness :
  (0 ≤ _max_size (history off_grid_session))%Z
  ∧ 0 < project_bpm off_grid_session
  ∧ (∃ grid,
       generate_beat_grid (project_bpm off_grid_session)
         (project_duration off_grid_session) 4 = Some grid
       ∧ grid ≠ []
       ∧ ∃ r, r ∈ get_selected_notes (heap off_grid_session) (beatmap off_grid_session)
              ∧ moved_by_snap (heap off_grid_session) grid r)
  ∧ ∃ s' msg,
      _on_snap_selection 4 off_grid_session = Some (s', msg)
      ∧ _on_snap_selection 4 s' = Some (s', [Text "All selected markers already on grid"]).
Proof.
  assert (H1 : (0 ≤ _max_size (history off_grid_session))%Z) by done.
  assert (H2 : 0 < project_bpm off_grid_session) by done.
  destruct (generate_beat_grid (project_bpm off_grid_session)
              (project_duration off_grid_session) 4) as [grid|] eqn:H3;
    [|exfalso; vm_compute in H3; discriminate].
  assert (H3' : Some grid = Some (map (λ k, Q2Qc (Z.of_nat k # 8)) (seq 0 32))).
  { rewrite <- H3. by_computation. }
  injection H3' as H3'.
  assert (H4 : grid ≠ []) by (by rewrite H3').
  assert (H5 : ∃ r, r ∈ get_selected_notes (heap off_grid_session) (beatmap off_grid_session)
                    ∧ moved_by_snap (heap off_grid_session) grid r).
  { exists 0%nat. rewrite H3'. split; [by_computation|]. unfold moved_by_snap. by_computation. }
  split_and!; [exact H1 | exact H2 | by exists grid |].
  destruct (snap_selection_lands_on_grid 4 off_grid_session grid H1 H2 H3 H4 H5)
    as (s' & msg & Hs & _ & _ & _ & _ & Hs').
  exists s', msg. split; [exact Hs | exact Hs'].
Defined.

(** ** Moving the selection with the keyboard *)

Lemma shifted_lane_in (direction : Z) (ty : string) : shifted_lane direction ty ∈ LANES.
Proof.
  unfold shifted_lane.
  set (c := Z.max 0 (Z.min (lane_index ty + direction) (len LANES - 1))).
  assert (H : (c = 0 ∨ c = 1 ∨ c = 2 ∨ c = 3 ∨ c = 4)%Z).
  { unfold c. change (len LANES - 1)%Z with 4%Z. lia. }
  destruct H as [H | [H | [H | [H | H]]]]; rewrite H; by_computation.
Qed.

Lemma lane_index_shifted (direction : Z) (ty : string) :
  lane_index (shifted_lane direction ty)
  = Z.max 0 (Z.min (lane_index ty + direction) (len LANES - 1)).
Proof.
  unfold shifted_lane.
  set (c := Z.max 0 (Z.min (lane_index ty + direction) (len LANES - 1))).
  assert (H : (c = 0 ∨ c = 1 ∨ c = 2 ∨ c = 3 ∨ c = 4)%Z).
  { unfold c. change (len LANES - 1)%Z with 4%Z. lia. }
  destruct H as [H | [H | [H | [H | H]]]]; rewrite H; by_computation.
Qed.

Lemma forallb_zip_map {A B} (p : A → B → bool) (f : A → B) (l : list A) :
  forallb (λ '(a, b), p a b) (zip l (map f l)) = true ↔ ∀ a, a ∈ l → p a (f a) = true.
Proof.
  induction l as [|a l IH]; cbn [map zip zip_with forallb].
  - split; [intros _ a []%not_elem_of_nil | done].
  - rewrite andb_true_iff, IH. split.
    + intros [Ha Hl] x [->|Hx]%elem_of_cons; [done | by apply Hl].
    + intros H. split; [apply H, list_elem_of_here|].
      intros x Hx. by apply H, list_elem_of_further.
Qed.

(** X20: [_move_selection_to_lane] gives every selected note the lane
    [direction] lanes further, clamped to the first and the last lane (a
    type that is no lane counts as the first lane): afterwards every selected
    note is in a lane of [LANES]; times, levels and the other notes are not
    changed; and nothing is executed when no selected note changes lane. *)
Theorem move_selection_to_lane_clamps (direction : Z) (s : Session) :
  (0 ≤ _max_size (history s))%Z →
  ∃ s',
    _move_selection_to_lane direction s = Some s'
    ∧ (∀ r, deref (heap s') r
            = if decide (r ∈ get_selected_notes (heap s) (beatmap s))
              then put_time_type (time (deref (heap s) r),
                                  shifted_lane direction (type (deref (heap s) r)))
                     (deref (heap s) r)
              else deref (heap s) r)
    ∧ (∀ r, r ∈ get_selected_notes (heap s) (beatmap s) →
            type (deref (heap s') r) ∈ LANES
            ∧ lane_index (type (deref (heap s') r))
              = Z.max 0 (Z.min (lane_index (type (deref (heap s) r)) + direction)
                           (len LANES - 1)))
    ∧ _notes (beatmap s') ≡ₚ _notes (beatmap s)
    ∧ ((∀ r, r ∈ get_selected_notes (heap s) (beatmap s) →
             shifted_lane direction (type (deref (heap s) r)) = type (deref (heap s) r)) →
       s' = s).
Proof.
  intros Hmax.
  set (selected := get_selected_notes (heap s) (beatmap s)).
  set (f := λ r, shifted_lane direction (type (deref (heap s) r))).
  assert (Hgoal : ∀ s',
    (∀ r, deref (heap s') r
          = if decide (r ∈ selected)
            then put_time_type (time (deref (heap s) r), f r) (deref (heap s) r)
            else deref (heap s) r) →
    ∀ r, r ∈ selected →
         type (deref (heap s') r) ∈ LANES
         ∧ lane_index (type (deref (heap s') r))
           = Z.max 0 (Z.min (lane_index (type (deref (heap s) r)) + direction)
                        (len LANES - 1))).
  { intros s' Hd r Hr. rewrite Hd, decide_True by done. cbn [put_time_type type snd].
    split; [apply shifted_lane_in | apply lane_index_shifted]. }
  unfold _move_selection_to_lane. fold selected.
  case_bool_decide as Hnil.
  { exists s. assert (Hd : ∀ r, deref (heap s) r
          = if decide (r ∈ selected)
            then put_time_type (time (deref (heap s) r), f r) (deref (heap s) r)
            else deref (heap s) r).
    { intros r. rewrite decide_False; [done|]. rewrite Hnil. apply not_elem_of_nil. }
    split_and!; [done | exact Hd | by apply Hgoal | done | done]. }
  destruct (forallb _ _) eqn:Hall.
  - pose proof (proj1 (forallb_zip_map
                          (λ r ty, bool_decide (type (deref (heap s) r) = ty)) f selected)
                  Hall) as Hall'.
    exists s. assert (Hd : ∀ r, deref (heap s) r
          = if decide (r ∈ selected)
            then put_time_type (time (deref (heap s) r), f r) (deref (heap s) r)
            else deref (heap s) r).
    { intros r. destruct (decide (r ∈ selected)) as [Hr|]; [|done].
      specialize (Hall' r Hr). apply bool_decide_eq_true in Hall'.
      rewrite <- Hall'. by destruct (deref (heap s) r). }
    split_and!; [done | exact Hd | by apply Hgoal | done | done].
  - rewrite (History_execute_Some (Z.to_nat (_max_size (history s)))) by lia.
    eexists. split; [reflexivity|].
    rewrite run_heap, run_beatmap.
    cbn [execute new_MoveNotesCommand default fst snd mark_dirty sort_notes set_list _notes].
    assert (Hd : ∀ r, deref (set_times_types (heap s) selected
                               (map (λ r, time (deref (heap s) r)) selected)
                               (map f selected)) r
          = if decide (r ∈ selected)
            then put_time_type (time (deref (heap s) r), f r) (deref (heap s) r)
            else deref (heap s) r).
    { intros r. apply set_times_types_map. }
    split_and!; [exact Hd | | apply sort_by_time_perm |].
    + intros r Hr. rewrite Hd, decide_True by done. cbn [put_time_type type snd].
      split; [apply shifted_lane_in | apply lane_index_shifted].
    + intros Hsame. exfalso.
      assert (Ht : forallb (λ '(r, new_type), bool_decide (type (deref (heap s) r) = new_type))
                     (zip selected (map f selected)) = true);
        [|unfold f in Ht; rewrite Ht in Hall; discriminate].
      apply (proj2 (forallb_zip_map
                      (λ r ty, bool_decide (type (deref (heap s) r) = ty)) f selected)).
      intros r Hr. apply bool_decide_eq_true. symmetry. by apply Hsame.
Qed.

Lemma move_selection_to_lane_clamps_witness :
  (0 ≤ _max_size (history both_selected_session))%Z
  ∧ ∃ s', _move_selection_to_lane (-1) both_selected_session = Some s'
          ∧ s' = both_selected_session.
Proof.
  assert (H1 : (0 ≤ _max_size (history both_selected_session))%Z) by done.
  split; [exact H1|].
  destruct (move_selection_to_lane_clamps (-1) both_selected_session H1)
    as (s' & Hs & _ & _ & _ & Hsame).
  exists s'. split; [exact Hs|]. apply Hsame.
  intros r Hr. revert r Hr. apply Forall_forall. by_computation.
Defined.

Lemma py_max_ge (a b : Qc) : a ≤ py_max a b ∧ b ≤ py_max a b.
Proof.
  unfold py_max. case_bool_decide as H.
  - split; [by apply Qclt_le_weak | apply Qcle_refl].
  - split; [apply Qcle_refl | by apply Qcnot_lt_le].
Qed.

Lemma py_min_le (a b : Qc) : py_min a b ≤ a ∧ py_min a b ≤ b.
Proof.
  unfold py_min. case_bool_decide as H.
  - split; [by apply Qclt_le_weak | apply Qcle_refl].
  - split; [apply Qcle_refl | by apply Qcnot_lt_le].
Qed.

Lemma py_max_mono (a b c : Qc) : b ≤ c → py_max a b ≤ py_max a c.
Proof.
  intros Hbc. unfold py_max. repeat case_bool_decide.
  - done.
  - exfalso. apply H0. by eapply Qclt_le_trans.
  - by apply Qclt_le_weak.
  - apply Qcle_refl.
Qed.

Lemma clamp_time_range (s : Session) (t : Qc) :
  0 ≤ clamp_time s t ∧ clamp_time s t ≤ py_max 0 (project_duration s).
Proof.
  unfold clamp_time. split; [apply py_max_ge | apply py_max_mono, py_min_le].
Qed.

Lemma rounded_clamp_range (s : Session) (t : Qc) :
  0 ≤ py_round (clamp_time s t) 3
  ∧ py_round (clamp_time s t) 3 ≤ py_round (py_max 0 (project_duration s)) 3.
Proof.
  destruct (clamp_time_range s t) as [H1 H2]. split; [|by apply py_round_mono].
  rewrite <- (py_round_0 3). by apply py_round_mono.
Qed.

(** The execution of a [MoveNotesCommand] that gives new times to the
    selection. *)
Lemma move_selection_times (s : Session) (f : ref → Qc) (text : string) :
  (0 ≤ _max_size (history s))%Z →
  ∃ s',
    History_execute
      (new_MoveNotesCommand (heap s) (get_selected_notes (heap s) (beatmap s))
         (Some (map f (get_selected_notes (heap s) (beatmap s)))) None text) s
    = Some s'
    ∧ (∀ r, deref (heap s') r
            = if decide (r ∈ get_selected_notes (heap s) (beatmap s))
              then put_time (f r) (deref (heap s) r) else deref (heap s) r)
    ∧ _notes (beatmap s') ≡ₚ _notes (beatmap s)
    ∧ time_sorted (heap s') (_notes (beatmap s')).
Proof.
  intros Hmax.
  rewrite (History_execute_Some (Z.to_nat (_max_size (history s)))) by lia.
  eexists. split; [reflexivity|].
  rewrite run_heap, run_beatmap.
  cbn [execute new_MoveNotesCommand default fst snd mark_dirty sort_notes set_list _notes].
  split_and!; [| apply sort_by_time_perm | apply sort_by_time_sorted].
  intros r.
  etrans; [apply (set_times_types_map (heap s) _ f (λ r, type (deref (heap s) r)) r)|].
  destruct (decide _); [|done]. by destruct (deref (heap s) r).
Qed.

Lemma moved_within_refl (s : Session) :
  get_selected_notes (heap s) (beatmap s) = [] → moved_within_duration s s.
Proof.
  intros Hnil r. rewrite Hnil, decide_False; [done | apply not_elem_of_nil].
Qed.

Lemma moved_within_clamped (s s' : Session) (g : ref → Qc) :
  (∀ r, deref (heap s') r
        = if decide (r ∈ get_selected_notes (heap s) (beatmap s))
          then put_time (py_round (clamp_time s (g r)) 3) (deref (heap s) r)
          else deref (heap s) r) →
  moved_within_duration s s'.
Proof.
  intros Hd r. specialize (Hd r). destruct (decide _); [|done].
  rewrite Hd. cbn [put_time time].
  destruct (rounded_clamp_range s (g r)) as [H1 H2].
  split_and!; [done | done | done | apply py_round_idempotent].
Qed.

(** X21: the keyboard moves of the selection ([_move_selected_markers], and
    [_snap_selection_to_beat] when a tempo is set) give every selected note
    a time with three decimals between 0 and the duration (rounded, and
    taken as 0 when negative), whatever the direction and the step: no note
    is moved before time 0 or after the end.  Levels, types and the other
    notes are not changed, and the notes stay sorted by time. *)
Theorem keyboard_moves_stay_within_duration (direction : Z) (shift_down : bool)
    (s : Session) :
  (0 ≤ _max_size (history s))%Z →
  (∃ s', _move_selected_markers direction shift_down s = Some s'
         ∧ moved_within_duration s s'
         ∧ _notes (beatmap s') ≡ₚ _notes (beatmap s)
         ∧ (time_sorted (heap s) (_notes (beatmap s)) →
            time_sorted (heap s') (_notes (beatmap s'))))
  ∧ (0 < project_bpm s →
     ∃ s', _snap_selection_to_beat direction s = Some s'
           ∧ moved_within_duration s s'
           ∧ _notes (beatmap s') ≡ₚ _notes (beatmap s)
           ∧ (time_sorted (heap s) (_notes (beatmap s)) →
              time_sorted (heap s') (_notes (beatmap s')))).
Proof.
  intros Hmax. split.
  - unfold _move_selected_markers. case_bool_decide as Hnil.
    { exists s. split_and!; [done | by apply moved_within_refl | done | done]. }
    edestruct (move_selection_times s) as (s' & He & Hd & Hp & Hs); [exact Hmax|].
    exists s'. split; [exact He|]. split_and!; [|done|done].
    eapply moved_within_clamped. exact Hd.
  - intros Hbpm. unfold _snap_selection_to_beat. case_bool_decide as Hnil.
    { exists s. split_and!; [done | by apply moved_within_refl | done | done]. }
    rewrite bool_decide_false by (by apply Qclt_not_le).
    edestruct (move_selection_times s) as (s' & He & Hd & Hp & Hs); [exact Hmax|].
    exists s'. split; [exact He|]. split_and!; [|done|done].
    eapply moved_within_clamped. exact Hd.
Qed.

Lemma keyboard_moves_stay_within_duration_witness :
  (0 ≤ _max_size (history timed_selection_session))%Z
  ∧ 0 < project_bpm timed_selection_session
  ∧ (∃ s', _move_selected_markers (-40) true timed_selection_session = Some s'
           ∧ moved_within_duration timed_selection_session s')
  ∧ (∃ s', _snap_selection_to_beat 40 timed_selection_session = Some s'
           ∧ moved_within_duration timed_selection_session s').
Proof.
  assert (H1 : (0 ≤ _max_size (history timed_selection_session))%Z) by done.
  assert (H2 : 0 < project_bpm timed_selection_session) by done.
  split_and!; [exact H1 | exact H2 | |].
  - destruct (proj1 (keyboard_moves_stay_within_duration (-40) true
                       timed_selection_session H1)) as (s' & Hs & Hm & _).
    by exists s'.
  - destruct (proj2 (keyboard_moves_stay_within_duration 40 true
                       timed_selection_session H1) H2) as (s' & Hs & Hm & _).
    by exists s'.
Defined.

(** The example: moved 40 large steps to the left, both notes land on 0;
    snapped and moved 40 quarter beats to the right, both land on the
    duration, 4 s. *)
Example keyboard_moves_example :
  (λ s', note_times (heap s') (_notes (beatmap s')))
    <$> _move_selected_markers (-40) true timed_selection_session = Some [0; 0]
  ∧ (λ s', note_times (heap s') (_notes (beatmap s')))
      <$> _snap_selection_to_beat 40 timed_selection_session
    = Some [Qc_of_Z 4; Qc_of_Z 4].
Proof. split; by_computation. Qed.

(** ** The pattern editor, again *)

Lemma insert_Qc_perm x l : insert_Qc x l ≡ₚ x :: l.
Proof.
  induction l as [|y l IH]; cbn [insert_Qc]; [done|].
  case_bool_decide; [done|]. rewrite IH. apply Permutation_swap.
Qed.

Lemma sorted_Qc_perm l : sorted_Qc l ≡ₚ l.
Proof.
  induction l as [|x l IH]; [done|]. cbn [sorted_Qc foldr].
  fold (sorted_Qc l). by rewrite insert_Qc_perm, IH.
Qed.




(** ** Setting the level of the selection *)

Section field_write_const.
Context {V : Type} (put : V → Note → Note).
Variable upd : Heap → ref → V → Heap.
Hypothesis put_put : ∀ v w n, put v (put w n) = put v n.
Hypothesis deref_upd :
  ∀ h r v x, deref (upd h r v) x = if (x =? r)%nat then put v (deref h r) else deref h x.

Lemma foldl_upd_const (v : V) rs : ∀ h x,
  deref (foldl (λ h r, upd h r v) h rs) x
  = if decide (x ∈ rs) then put v (deref h x) else deref h x.
Proof.
  induction rs as [|r rs IH]; intros h x; cbn [foldl].
  - rewrite decide_False; [done | apply not_elem_of_nil].
  - rewrite IH, deref_upd.
    destruct (decide (x ∈ rs)) as [Hin|Hin].
    + rewrite decide_True by (by apply list_elem_of_further).
      destruct (Nat.eqb_spec x r) as [->|_]; [apply put_put | done].
    + destruct (Nat.eqb_spec x r) as [->|Hne].
      * rewrite decide_True; [done | apply list_elem_of_here].
      * rewrite decide_False; [done|]. intros [->|?]%elem_of_cons; contradiction.
Qed.

End field_write_const.

(** X23: [_set_selected_level] gives every selected note the level asked for
    and changes nothing else (not the other fields, not the other notes, not
    the order of the notes); the undo that follows gives every note its own
    former level back.  Nothing happens while a text input has the focus. *)
Theorem set_selected_level_and_undo (lv : Z) (s : Session) :
  (0 < _max_size (history s))%Z →
  get_selected_notes (heap s) (beatmap s) ≠ [] →
  _set_selected_level true lv s = Some (s, None)
  ∧ ∃ s1 msg s2 d,
      _set_selected_level false lv s = Some (s1, Some msg)
      ∧ (∀ r, deref (heap s1) r
              = if decide (r ∈ get_selected_notes (heap s) (beatmap s))
                then put_level lv (deref (heap s) r) else deref (heap s) r)
      ∧ _notes (beatmap s1) = _notes (beatmap s)
      ∧ _dirty (beatmap s1) = true
      ∧ History_undo s1 = (s2, Some d)
      ∧ heap_eq (heap s2) (heap s)
      ∧ _notes (beatmap s2) = _notes (beatmap s).
Proof.
  intros Hmax Hsel. split; [done|].
  set (selected := get_selected_notes (heap s) (beatmap s)) in *.
  set (cmd := new_ChangeLevelsCommand (heap s) selected lv).
  destruct (History_execute_last cmd s Hmax) as (s1 & l & He & Hl & _ & Hst).
  destruct (History_undo_snoc s1 l cmd Hl) as (s2 & d & Hu & _ & _ & Hst2).
  eexists s1, _, s2, d.
  assert (Hh1 : heap s1 = foldl (λ h r, set_level h r lv) (heap s) selected)
    by (by injection Hst).
  assert (Hb1 : beatmap s1 = mark_dirty (beatmap s)) by (by injection Hst).
  split_and!.
  - unfold _set_selected_level. rewrite bool_decide_false by done.
    fold selected cmd. rewrite He. done.
  - intros r. rewrite Hh1.
    apply (foldl_upd_const put_level set_level put_level_put deref_set_level).
  - by rewrite Hb1.
  - by rewrite Hb1.
  - exact Hu.
  - assert (Hh2 : heap s2 = (undo cmd (heap s1, beatmap s1)).1) by (by rewrite <- Hst2).
    rewrite Hh2.
    apply (undo_in_place_heap cmd (heap s) (beatmap s)); [done | |].
    + unfold cmd. cbn. by rewrite bool_decide_true.
    + intros r. by rewrite <- Hst.
  - assert (Hb2 : beatmap s2 = (undo cmd (heap s1, beatmap s1)).2) by (by rewrite <- Hst2).
    rewrite Hb2, Hb1. done.
Qed.

Lemma set_selected_level_and_undo_witness :
  (0 < _max_size (history both_selected_session))%Z
  ∧ get_selected_notes (heap both_selected_session) (beatmap both_selected_session) ≠ []
  ∧ ∃ s1 msg s2 d,
      _set_selected_level false 3 both_selected_session = Some (s1, Some msg)
      ∧ History_undo s1 = (s2, Some d)
      ∧ heap_eq (heap s2) (heap both_selected_session).
Proof.
  assert (H1 : (0 < _max_size (history both_selected_session))%Z) by done.
  assert (H2 : get_selected_notes (heap both_selected_session)
                 (beatmap both_selected_session) ≠ []) by by_computation.
  split_and!; [exact H1 | exact H2 |].
  destruct (set_selected_level_and_undo 3 both_selected_session H1 H2)
    as (_ & s1 & msg & s2 & d & Ha & _ & _ & _ & Hb & Hc & _).
  exists s1, msg, s2, d. split_and!; [exact Ha | exact Hb | exact Hc].
Defined.

(** ** Adding a marker *)

Lemma Qc_abs_triangle (x y z : Qc) : Qc_abs (x - z) ≤ Qc_abs (x - y) + Qc_abs (y - z).
Proof.
  destruct (Qc_abs_cases (x - z)) as [[H1 E1]|[H1 E1]];
    destruct (Qc_abs_cases (x - y)) as [[H2 E2]|[H2 E2]];
    destruct (Qc_abs_cases (y - z)) as [[H3 E3]|[H3 E3]];
    unfold Qcle; rewrite this_plus, E1, E2, E3; repeat rewrite this_minus in *; lra.
Qed.

Lemma py_round_near (x : Qc) : Qc_abs (py_round x 3 - x) ≤ Q2Qc (1 # 2000).
Proof.
  pose proof (py_round_error x 3) as H. set (a := Qc_abs _) in *. clearbody a.
  change (Qc_of_Z (10 ^ Z.of_nat 3)) with (Qc_of_Z 1000) in H.
  this_Q. change (inject_Z 1000) with (1000 # 1)%Q in H. lra.
Qed.

Lemma Note_new_lane (t : Qc) (lane : string) :
  Note_new t 1 lane = if decide (lane ∈ LANES) then Some (mkNote t 1 lane false) else None.
Proof.
  unfold Note_new. rewrite bool_decide_true by by_computation. cbn [negb].
  unfold NOTE_TYPES. destruct (decide (lane ∈ LANES)).
  - by rewrite bool_decide_true.
  - by rewrite bool_decide_false.
Qed.

(** The time at which [_on_add_marker] puts the marker. *)
Lemma add_marker_time (t : Qc) (s : Session) :
  ∃ t1,
    (if bool_decide (0 < project_bpm s) then
       grid ← generate_beat_grid (project_bpm s) (project_duration s) SUBDIVISION_SIXTEENTH;
       Some (snap_to_grid t grid)
     else Some t) = Some t1
    ∧ (¬ 0 < project_bpm s → t1 = t)
    ∧ (0 < project_bpm s → 0 ≤ t → t < project_duration s →
       Qc_abs (t1 - t) < subdivision_duration (project_bpm s) SUBDIVISION_SIXTEENTH).
Proof.
  case_bool_decide as Hb.
  - rewrite generate_beat_grid_eq by done. cbn [mbind option_bind].
    eexists. split_and!; [done | done |].
    intros _ Ht0 Htd.
    destruct (snap_generated_lt_step t (project_bpm s) (project_duration s)
                SUBDIVISION_SIXTEENTH Hb ltac:(done) Ht0 Htd) as (grid & Hg & _ & Hlt).
    rewrite generate_beat_grid_eq in Hg by done. injection Hg as <-. exact Hlt.
  - exists t. done.
Qed.

(** X24: [_on_add_marker] raises (the [ValueError] of the [Note]
    constructor) exactly when the lane is not one of [LANES]; otherwise it
    adds to the beatmap one unselected note of level 1 in that lane, at a time
    with three decimals, keeps the notes sorted and marks the beatmap dirty.
    Without a tempo the time is the given one, rounded; with a tempo a time
    of [[0, duration)] is moved by less than one sixteenth of a beat plus half
    a millisecond.  [_on_insert_marker_at_playhead] never raises for the
    lane. *)
Theorem add_marker_adds_one_note (t : Qc) (lane : string) (s : Session) :
  (0 ≤ _max_size (history s))%Z →
  allocated (heap s) (_notes (beatmap s)) →
  (lane ∉ LANES → _on_add_marker t lane s = None)
  ∧ (lane ∈ LANES →
     ∃ s' msg t',
       _on_add_marker t lane s = Some (s', msg)
       ∧ note_keys (heap s') (_notes (beatmap s'))
         = sort_keys (note_keys (heap s) (_notes (beatmap s)) ++ [(t', 1%Z, lane)])
       ∧ py_round t' 3 = t'
       ∧ get_selected_notes (heap s') (beatmap s')
         ≡ₚ get_selected_notes (heap s) (beatmap s)
       ∧ time_sorted (heap s') (_notes (beatmap s'))
       ∧ _dirty (beatmap s') = true
       ∧ (¬ 0 < project_bpm s → t' = py_round t 3)
       ∧ (0 < project_bpm s → 0 ≤ t → t < project_duration s →
          Qc_abs (t' - t)
          < subdivision_duration (project_bpm s) SUBDIVISION_SIXTEENTH + Q2Qc (1 # 2000)))
  ∧ is_Some (_on_insert_marker_at_playhead t s).
Proof.
  intros Hmax Halloc.
  destruct (add_marker_time t s) as (t1 & Ht1 & Hno & Hnear).
  assert (Hlane : lane ∈ LANES →
     ∃ s' msg t',
       _on_add_marker t lane s = Some (s', msg)
       ∧ note_keys (heap s') (_notes (beatmap s'))
         = sort_keys (note_keys (heap s) (_notes (beatmap s)) ++ [(t', 1%Z, lane)])
       ∧ py_round t' 3 = t'
       ∧ get_selected_notes (heap s') (beatmap s')
         ≡ₚ get_selected_notes (heap s) (beatmap s)
       ∧ time_sorted (heap s') (_notes (beatmap s'))
       ∧ _dirty (beatmap s') = true
       ∧ (¬ 0 < project_bpm s → t' = py_round t 3)
       ∧ (0 < project_bpm s → 0 ≤ t → t < project_duration s →
          Qc_abs (t' - t)
          < subdivision_duration (project_bpm s) SUBDIVISION_SIXTEENTH + Q2Qc (1 # 2000))).
  { intros Hin. unfold _on_add_marker. rewrite Ht1. cbn [mbind option_bind].
    rewrite Note_new_lane, decide_True by done. cbn [mbind option_bind].
    destruct (alloc (heap s) (mkNote (py_round t1 3) 1 lane false)) as [h1 note] eqn:Ha.
    destruct (alloc_spec _ _ _ _ Ha) as (Hnote & Hnext & Hnew & Hold).
    rewrite (History_execute_Some (Z.to_nat (_max_size (history s)))) by (cbn; lia).
    cbn [mbind option_bind]. eexists _, _, (py_round t1 3). split; [reflexivity|].
    rewrite run_heap, run_beatmap. cbn [execute new_AddNoteCommand fst snd heap beatmap].
    assert (Hdh : ∀ r, r ∈ _notes (beatmap s) → deref h1 r = deref (heap s) r).
    { intros r Hr. apply Hold. unfold allocated in Halloc.
      rewrite Forall_forall in Halloc. by apply Halloc. }
    split_and!.
    - rewrite note_keys_add_note, Hnew. unfold note_key. cbn [time level type].
      f_equal. f_equal. by apply note_keys_heap_ext.
    - apply py_round_idempotent.
    - unfold get_selected_notes, add_note. cbn [_notes].
      rewrite sort_by_time_perm, filter_app.
      assert (Hf : filter (λ r, selected (deref h1 r) = true) [note] = []).
      { apply filter_none. intros r Hr%list_elem_of_singleton. subst r. by rewrite Hnew. }
      rewrite Hf, app_nil_r.
      erewrite filter_ext_in; [done|]. intros r Hr. by rewrite Hdh.
    - apply sort_by_time_sorted.
    - done.
    - intros Hb. by rewrite (Hno Hb).
    - intros Hb Ht0 Htd. specialize (Hnear Hb Ht0 Htd).
      pose proof (Qc_abs_triangle (py_round t1 3) t1 t) as Htri.
      pose proof (py_round_near t1) as Hr.
      set (a := Qc_abs (py_round t1 3 - t)) in *.
      set (b := Qc_abs (py_round t1 3 - t1)) in *.
      set (c := Qc_abs (t1 - t)) in *.
      set (sd := subdivision_duration _ _) in *.
      clearbody a b c sd. clear -Hnear Htri Hr. this_Q. lra. }
  split_and!; [|exact Hlane|].
  - intros Hout. unfold _on_add_marker. rewrite Ht1. cbn [mbind option_bind].
    by rewrite Note_new_lane, decide_False.
  - unfold _on_insert_marker_at_playhead.
    destruct (add_marker_time t s) as (t2 & Ht2 & _).
    assert (Hbase : "base"%string ∈ LANES) by by_computation.
    unfold _on_add_marker. rewrite Ht2. cbn [mbind option_bind].
    rewrite Note_new_lane, decide_True by done. cbn [mbind option_bind].
    destruct (alloc _ _) as [h1 note].
    rewrite (History_execute_Some (Z.to_nat (_max_size (history s)))) by (cbn; lia).
    done.
Qed.

Lemma add_marker_adds_one_note_witness :
  (0 ≤ _max_size (history off_grid_session))%Z
  ∧ allocated (heap off_grid_session) (_notes (beatmap off_grid_session))
  ∧ _on_add_marker 1 "drums" off_grid_session = None
  ∧ ∃ s' msg t',
      _on_add_marker (Q2Qc (13 # 10)) "drum" off_grid_session = Some (s', msg)
      ∧ note_keys (heap s') (_notes (beatmap s'))
        = sort_keys (note_keys (heap off_grid_session) (_notes (beatmap off_grid_session))
                     ++ [(t', 1%Z, "drum"%string)]).
Proof.
  assert (H1 : (0 ≤ _max_size (history off_grid_session))%Z) by done.
  assert (H2 : allocated (heap off_grid_session) (_notes (beatmap off_grid_session))).
  { unfold allocated. by_computation. }
  assert (H3 : "drums"%string ∉ LANES) by by_computation.
  assert (H4 : "drum"%string ∈ LANES) by by_computation.
  split_and!; [exact H1 | exact H2 | |].
  - exact (proj1 (add_marker_adds_one_note 1 "drums" off_grid_session H1 H2) H3).
  - destruct (proj1 (proj2 (add_marker_adds_one_note (Q2Qc (13 # 10)) "drum"
                              off_grid_session H1 H2)) H4)
      as (s' & msg & t' & Ha & Hb & _).
    exists s', msg, t'. split; [exact Ha | exact Hb].
Defined.

(** The example: a click at 1.3 s in the drum lane, with the tempo 120, puts
    a marker on the grid position 1.3125 s, stored as 1.312 s. *)
Example add_marker_example :
  (λ r : Session * Description, (note_keys (heap r.1) (_notes (beatmap r.1)), r.2))
    <$> _on_add_marker (Q2Qc (13 # 10)) "drum" off_grid_session
  = Some ([(Q2Qc (3 # 10), 1%Z, "base"%string); (Q2Qc (1312 # 1000), 1%Z, "drum"%string)],
          [Text "Added "; Text "drum"; Text " marker at "; Float3 (Q2Qc (13125 # 10000));
           Text "s"]).
Proof. by_computation. Qed.

(** ** Inserting markers at beat intervals *)


















(** In a session of 4 s at the tempo 120 with one note of the lane at 0.3 s,
    markers every 0.6 beats (0.3 s) are added at the thirteen grid times
    other than 0.3 s; from the playhead at 1 s on, at the ten grid times
    from 1.2 s on. *)
Example insert_beat_markers_example :
  snd <$> _on_insert_beat_markers "base" (Q2Qc (3 # 5)) 2 false 0 off_grid_session
  = Some (Some 13%Z)
  ∧ snd <$> _on_insert_beat_markers "base" (Q2Qc (3 # 5)) 2 true 1 off_grid_session
    = Some (Some 10%Z)
  ∧ snd <$> _on_insert_beat_markers "drums" (Q2Qc (3 # 5)) 2 false 0 off_grid_session
    = None.
Proof. split_and!; by_computation. Qed.

(** ** ui/pattern_editor.py: an edit from open to apply *)
(** ** The pattern editor *)

Lemma preview_remove_spec h slots : ∀ l acc,
  ∃ l',
    foldl (λ '(l, slots) slot,
             match slot_note slot with
             | Some n =>
                 if negb (has_marker slot) then
                   (if contains h l n then list_remove h l n else l,
                    slots ++ [mkPatternSlot (slot_time slot) (has_marker slot)
                                (original_marker slot) None])
                 else (l, slots ++ [slot])
             | None => (l, slots ++ [slot])
             end)
          (l, acc) slots
    = (l', acc ++ map clear_off slots).
Proof.
  induction slots as [|sl slots IH]; intros l acc; cbn [foldl map].
  - exists l. by rewrite app_nil_r.
  - assert (Hstep : ∃ l1,
      match slot_note sl with
      | Some n =>
          if negb (has_marker sl) then
            (if contains h l n then list_remove h l n else l,
             acc ++ [mkPatternSlot (slot_time sl) (has_marker sl)
                       (original_marker sl) None])
          else (l, acc ++ [sl])
      | None => (l, acc ++ [sl])
      end = (l1, acc ++ [clear_off sl])).
    { unfold clear_off. destruct (slot_note sl) as [n|]; [|eauto].
      destruct (negb (has_marker sl)); eauto. }
    destruct Hstep as (l1 & ->). destruct (IH l1 (acc ++ [clear_off sl])) as (l' & ->).
    exists l'. by rewrite <- app_assoc.
Qed.

Section preview.
Variables (lv : Z) (lane : string).
Hypothesis Hlv : lv ∈ [1; 2; 3]%Z.
Hypothesis Hlane : lane ∈ LANES.

Lemma filled_weaken h0 h h' h'' sl sl' :
  (next_ref h0 ≤ next_ref h)%nat → (next_ref h' ≤ next_ref h'')%nat →
  (∀ r, (r < next_ref h')%nat → deref h'' r = deref h' r) →
  filled lv lane h h' sl sl' → filled lv lane h0 h'' sl sl'.
Proof.
  intros H0 H1 Hold (Ht & Hm & Ho & Hn). split_and!; [done..|].
  destruct (has_marker sl && bool_decide (slot_note sl = None)); [|done].
  destruct Hn as (n & Hs & Hr & Hk). exists n. split_and!; [done | lia | lia |].
  rewrite Hold by lia. done.
Qed.

Lemma preview_add_spec slots : ∀ h l acc,
  ∃ h' l' slots',
    foldl (λ acc slot,
             '(h, l, slots) ← acc;
             if has_marker slot && bool_decide (slot_note slot = None) then
               n ← Note_new (slot_time slot) lv lane;
               let '(h1, new_note) := alloc h n in
               Some (set_selected h1 new_note true, sort_by_time h1 (l ++ [new_note]),
                     slots ++ [mkPatternSlot (slot_time slot) (has_marker slot)
                                 (original_marker slot) (Some new_note)])
             else Some (h, l, slots ++ [slot]))
          (Some (h, l, acc)) slots
    = Some (h', l', acc ++ slots')
    ∧ (next_ref h ≤ next_ref h')%nat
    ∧ (∀ r, (r < next_ref h)%nat → deref h' r = deref h r)
    ∧ Forall2 (filled lv lane h h') slots slots'.
Proof.
  induction slots as [|sl slots IH]; intros h l acc; cbn [foldl].
  - exists h, l, []. rewrite app_nil_r. split_and!; [done | done | done | constructor].
  - cbn [mbind option_bind].
    destruct (has_marker sl && bool_decide (slot_note sl = None)) eqn:Hc.
    + rewrite Note_new_spec, decide_True by done. cbn [mbind option_bind].
      destruct (alloc h (mkNote (slot_time sl) lv lane false)) as [h1 n] eqn:Ha.
      apply alloc_spec in Ha as (-> & Hnext & Hnew & Hold).
      set (h1' := set_selected h1 (next_ref h) true).
      assert (Hnext' : next_ref h1' = S (next_ref h)) by done.
      assert (Hold' : ∀ r, (r < next_ref h)%nat → deref h1' r = deref h r).
      { intros r Hr. unfold h1'. rewrite deref_set_selected.
        destruct (Nat.eqb_spec r (next_ref h)); [lia | by apply Hold]. }
      assert (Hkey : note_key (deref h1' (next_ref h)) = (slot_time sl, lv, lane)).
      { unfold h1'. rewrite note_key_set_selected, Hnew. done. }
      destruct (IH h1' (sort_by_time h1 (l ++ [next_ref h]))
                  (acc ++ [mkPatternSlot (slot_time sl) (has_marker sl)
                             (original_marker sl) (Some (next_ref h))]))
        as (h' & l' & slots' & Hf & Hn' & Ho' & Hall).
      exists h', l',
        (mkPatternSlot (slot_time sl) (has_marker sl) (original_marker sl)
           (Some (next_ref h)) :: slots').
      split_and!.
      * rewrite Hf. by rewrite <- app_assoc.
      * lia.
      * intros r Hr. rewrite Ho' by lia. by apply Hold'.
      * constructor.
        -- split_and!; [done..|]. rewrite Hc. exists (next_ref h).
           split_and!; [done | lia | lia |]. rewrite Ho' by lia. done.
        -- eapply Forall2_impl; [exact Hall|]. intros x y Hxy.
           eapply filled_weaken; [| | |exact Hxy]; [lia | lia | done].
    + destruct (IH h l (acc ++ [sl])) as (h' & l' & slots' & Hf & Hn' & Ho' & Hall).
      exists h', l', (sl :: slots'). split_and!; [|done|done|].
      * rewrite Hf. by rewrite <- app_assoc.
      * constructor; [|done]. split_and!; [done..|]. by rewrite Hc.
Qed.

End preview.

Lemma extends_refl h : extends h h.
Proof. by split. Qed.

Lemma extends_trans h1 h2 h3 : extends h1 h2 → extends h2 h3 → extends h1 h3.
Proof.
  intros [Hn1 Ho1] [Hn2 Ho2]. split; [lia|].
  intros r Hr. rewrite Ho2 by lia. by apply Ho1.
Qed.

Lemma slot_ok_extends h h' lv lane sl : extends h h' → slot_ok h lv lane sl → slot_ok h' lv lane sl.
Proof.
  intros [Hn Ho] [HN HS]. split; [done|]. intros Hm Horig.
  destruct (HS Hm Horig) as (n & Hs & Hr & Hk). exists n.
  split_and!; [done | lia |]. by rewrite Ho.
Qed.

Lemma slot_ok_pre h lv lane sl : slot_ok h lv lane sl → slot_pre h lv lane sl.
Proof.
  intros [_ HS] Hm Horig n Hn. destruct (HS Hm Horig) as (n' & Hs & Hr & Hk).
  rewrite Hn in Hs. by injection Hs as ->.
Qed.

(** The live preview, on an editor whose level and lane the constructor
    accepts: it does not raise, and leaves every slot in order. *)
Lemma preview_spec h b pe lv lane :
  lv ∈ [1; 2; 3]%Z → lane ∈ LANES →
  pe_level pe = lv → pe_lane_type pe = Some lane →
  Forall (slot_pre h lv lane) (pattern_slots pe) →
  ∃ h2 l2 slots2,
    _update_live_preview h b pe = Some (h2, set_list b l2, set_slots pe slots2)
    ∧ extends h h2
    ∧ Forall2 (λ sl sl', same_slot sl sl' ∧ has_marker sl' = has_marker sl)
              (pattern_slots pe) slots2
    ∧ Forall (slot_ok h2 lv lane) slots2.
Proof.
  intros Hlv Hlane Hl Hty Hpre. unfold _update_live_preview.
  destruct (preview_remove_spec h (pattern_slots pe) (_notes b) []) as (l1 & ->).
  cbn [app].
  assert (Hd : lane = default ""%string (pe_lane_type pe)) by (by rewrite Hty).
  clear Hty. subst lv lane.
  destruct (preview_add_spec _ _ Hlv Hlane (map clear_off (pattern_slots pe)) h l1 [])
    as (h2 & l2 & slots2 & Hf & Hn & Ho & Hall).
  rewrite Hf. cbn [mbind option_bind app].
  exists h2, l2, slots2. split; [done|]. split; [by split|].
  change (map clear_off (pattern_slots pe)) with (clear_off <$> pattern_slots pe) in Hall.
  rewrite Forall2_fmap_l in Hall.
  split.
  - eapply Forall2_impl; [exact Hall|]. intros sl sl' (Ht & Hm & Horig & _).
    unfold same_slot. rewrite Ht, Hm, Horig. unfold clear_off.
    destruct (slot_note sl); [destruct (negb (has_marker sl))|]; done.
  - eapply Forall2_Forall_r; [exact Hall|].
    eapply Forall_impl; [exact Hpre|]. intros sl Hp sl' (Ht & Hm & Horig & Hnote).
    assert (Hct : slot_time (clear_off sl) = slot_time sl
                  ∧ has_marker (clear_off sl) = has_marker sl
                  ∧ original_marker (clear_off sl) = original_marker sl).
    { unfold clear_off. destruct (slot_note sl); [destruct (negb (has_marker sl))|]; done. }
    destruct Hct as (Hct & Hcm & Hco). rewrite Hct in *. rewrite Hcm in *. rewrite Hco in *.
    split.
    + intros Hoff. rewrite Hm in Hoff. rewrite Hoff in Hnote. cbn [andb] in Hnote.
      rewrite Hnote. unfold clear_off. rewrite Hoff.
      destruct (slot_note sl) eqn:E; [done | exact E].
    + intros Hon Hno. rewrite Hm in Hon. rewrite Horig in Hno. rewrite Hon in Hnote.
      cbn [andb] in Hnote.
      assert (Hc : clear_off sl = sl).
      { unfold clear_off. rewrite Hon. by destruct (slot_note sl). }
      rewrite Hc in Hnote. case_bool_decide as Hnone.
      * destruct Hnote as (n & Hs & Hr & Hk). exists n. rewrite Ht.
        split_and!; [done | lia | done].
      * destruct (slot_note sl) as [n|] eqn:Hsn; [|done].
        destruct (Hp Hon Hno n Hsn) as [Hr Hk]. exists n. rewrite Ht.
        split_and!; [done | lia |]. by rewrite Ho.
Qed.

Lemma set_slots_id pe : set_slots pe (pattern_slots pe) = pe.
Proof. by destruct pe. Qed.

Lemma same_slot_refl sl : same_slot sl sl.
Proof. by split. Qed.

Lemma same_slot_trans x y z : same_slot x y → same_slot y z → same_slot x z.
Proof. intros [H1 H2] [H3 H4]. split; congruence. Qed.

Lemma Forall2_same_slot_refl slots : Forall2 same_slot slots slots.
Proof. induction slots; constructor; [apply same_slot_refl | done]. Qed.

(** A click on a slot, on an editor whose level and lane the constructor
    accepts: it does not raise; the slots keep their times and their original
    markers, and are as a live preview leaves them. *)
Lemma toggle_spec h b pe i lv lane :
  lv ∈ [1; 2; 3]%Z → lane ∈ LANES →
  pe_level pe = lv → pe_lane_type pe = Some lane →
  Forall (slot_ok h lv lane) (pattern_slots pe) →
  ∃ h2 b2 slots2,
    _toggle_slot h b pe i = Some (h2, b2, set_slots pe slots2)
    ∧ extends h h2
    ∧ Forall2 same_slot (pattern_slots pe) slots2
    ∧ Forall (slot_ok h2 lv lane) slots2.
Proof.
  intros Hlv Hlane Hl Hty Hok. unfold _toggle_slot.
  destruct (pattern_slots pe !! i) as [sl|] eqn:Hi.
  - set (sl' := mkPatternSlot (slot_time sl) (negb (has_marker sl)) (original_marker sl)
                  (slot_note sl)).
    assert (Hpre : Forall (slot_pre h lv lane)
                     (pattern_slots (set_slots pe (<[i:=sl']> (pattern_slots pe))))).
    { cbn [set_slots pattern_slots]. apply Forall_insert.
      - eapply Forall_impl; [exact Hok|]. intros x. apply slot_ok_pre.
      - intros Hon Horig n Hn. cbn in Hon, Hn.
        apply negb_true_iff in Hon.
        rewrite Forall_forall in Hok.
        destruct (Hok sl (list_elem_of_lookup_2 _ _ _ Hi)) as [HN _].
        rewrite (HN Hon) in Hn. discriminate. }
    destruct (preview_spec h b (set_slots pe (<[i:=sl']> (pattern_slots pe))) lv lane
                Hlv Hlane Hl Hty Hpre) as (h2 & l2 & slots2 & Hp & He & Hall & Hok2).
    exists h2, (set_list b l2), slots2. split_and!; [exact Hp | done | | done].
    cbn [set_slots pattern_slots] in Hall.
    eapply Forall2_trans; [| |eapply Forall2_impl; [exact Hall|]].
    + intros x y z Hxy Hyz. exact (same_slot_trans x y z Hxy Hyz).
    + rewrite <- (list_insert_id (pattern_slots pe) i sl Hi) at 1.
      apply Forall2_insert; [apply Forall2_same_slot_refl | by split].
    + by intros x y [? _].
  - exists h, b, (pattern_slots pe). rewrite set_slots_id.
    split_and!; [done | apply extends_refl | apply Forall2_same_slot_refl | done].
Qed.

Lemma toggles_spec idxs lv lane : ∀ h b pe,
  lv ∈ [1; 2; 3]%Z → lane ∈ LANES →
  pe_level pe = lv → pe_lane_type pe = Some lane →
  Forall (slot_ok h lv lane) (pattern_slots pe) →
  ∃ h2 b2 slots2,
    toggle_slots idxs (h, b, pe) = Some (h2, b2, set_slots pe slots2)
    ∧ extends h h2
    ∧ Forall2 same_slot (pattern_slots pe) slots2
    ∧ Forall (slot_ok h2 lv lane) slots2.
Proof.
  unfold toggle_slots.
  induction idxs as [|i idxs IH]; intros h b pe Hlv Hlane Hl Hty Hok; cbn [foldl].
  - exists h, b, (pattern_slots pe). rewrite set_slots_id.
    split_and!; [done | apply extends_refl | apply Forall2_same_slot_refl | done].
  - cbn [mbind option_bind].
    destruct (toggle_spec h b pe i lv lane Hlv Hlane Hl Hty Hok)
      as (h1 & b1 & slots1 & Ht & He1 & Hs1 & Hok1).
    rewrite Ht.
    destruct (IH h1 b1 (set_slots pe slots1) Hlv Hlane Hl Hty Hok1)
      as (h2 & b2 & slots2 & Ht2 & He2 & Hs2 & Hok2).
    exists h2, b2, slots2. split_and!; [exact Ht2 | | | done].
    + by eapply extends_trans.
    + eapply Forall2_trans; [|exact Hs1|exact Hs2].
      intros x y z. apply same_slot_trans.
Qed.

Lemma originals_of_extends h0 selected h h' originals :
  extends h h' → originals_of h0 selected h originals → originals_of h0 selected h' originals.
Proof.
  intros [Hn Ho] (Hal & Hv & Hk). unfold allocated, valid_notes in *.
  split_and!.
  - eapply Forall_impl; [exact Hal|]. cbn. intros; lia.
  - apply Forall_forall. intros o Hin. rewrite Forall_forall in Hal, Hv.
    rewrite Ho by (by apply Hal). by apply Hv.
  - rewrite Forall_forall in Hal. clear Hv.
    induction Hk as [|n o sel origs Hno Hk IH]; constructor.
    + rewrite Ho; [done|]. apply Hal, list_elem_of_here.
    + apply IH. intros x Hx. by apply Hal, list_elem_of_further.
Qed.

(** The search of the first original that rounds to a time finds the copy
    of the first selected note that does. *)
Lemma find_original h0 h t selected originals :
  Forall2 (λ n o, note_key (deref h o) = note_key (deref h0 n)) selected originals →
  match find (λ n, bool_decide (py_round (time (deref h0 n)) 3 = t)) selected,
        find (λ o, bool_decide (py_round (time (deref h o)) 3 = t)) originals with
  | Some n, Some o => o ∈ originals ∧ note_key (deref h o) = note_key (deref h0 n)
  | None, None => True
  | _, _ => False
  end.
Proof.
  induction 1 as [|n o sel origs Hno Hk IH]; [done|]. cbn [find].
  assert (Ht : time (deref h o) = time (deref h0 n)).
  { unfold note_key in Hno. by injection Hno. }
  rewrite Ht. case_bool_decide.
  - split; [apply list_elem_of_here | done].
  - destruct (find _ sel), (find _ origs); try done.
    destruct IH as [Hin Hkey]. split; [by apply list_elem_of_further | done].
Qed.

Lemma valid_note_key n m : note_key n = note_key m → valid_note m → valid_note n.
Proof.
  unfold note_key, valid_note. intros H [Hl Ht]. injection H as _ Hl' Ht'.
  by rewrite Hl', Ht'.
Qed.

Lemma collect_spec pe lv lane h0 selected : ∀ slots h added removed,
  lv ∈ [1; 2; 3]%Z → lane ∈ LANES →
  Forall (slot_ok h lv lane) slots →
  originals_of h0 selected h (_original_notes pe) →
  Forall (λ sl, original_marker sl = true → is_Some (slot_original h0 selected sl)) slots →
  ∃ h3 added' removed',
    foldl (λ acc slot, acc ← acc; collect_change pe acc slot)
          (Some (h, added, removed)) slots
    = Some (h3, added ++ added', removed ++ removed')
    ∧ extends h h3
    ∧ note_keys h3 added'
      = map (λ sl, (slot_time sl, lv, lane))
            (filter (λ sl, has_marker sl = true ∧ original_marker sl = false) slots)
    ∧ note_keys h3 removed'
      = omap (λ sl, (λ n, note_key (deref h0 n)) <$> slot_original h0 selected sl)
             (filter (λ sl, has_marker sl = false ∧ original_marker sl = true) slots).
Proof.
  induction slots as [|sl slots IH]; intros h added removed Hlv Hlane Hok Horig Hfound;
    cbn [foldl].
  - exists h, [], []. rewrite !app_nil_r. split_and!; [done | apply extends_refl | done..].
  - apply Forall_cons in Hok as [Hsl Hok]. apply Forall_cons in Hfound as [Hf Hfound].
    cbn [mbind option_bind collect_change]. rewrite !filter_cons.
    destruct (has_marker sl) eqn:Hm, (original_marker sl) eqn:Ho; cbn [andb negb].
    + (* marker kept *)
      rewrite decide_False by (intros [_ ?]; done).
      rewrite decide_False by (intros [? _]; done).
      by apply IH.
    + (* switched on *)
      rewrite decide_True by done. rewrite decide_False by (intros [? _]; done).
      destruct Hsl as [_ HS]. destruct (HS Hm Ho) as (n & Hn & Hr & Hk).
      rewrite Hn.
      assert (Hv : valid_note (deref h n)).
      { unfold valid_note. unfold note_key in Hk. injection Hk as _ Hkl Hkt.
        by rewrite Hkl, Hkt. }
      destruct (copy_note_valid h n Hv) as (h1 & c & Hc). rewrite Hc.
      cbn [mbind option_bind].
      apply copy_note_Some in Hc as (_ & -> & Hnext & Hnew & Hold).
      assert (He : extends h h1) by (split; [lia | done]).
      destruct (IH h1 (added ++ [next_ref h]) removed Hlv Hlane) as
        (h3 & added' & removed' & Hfold & He3 & Ha & Hrm).
      * eapply Forall_impl; [exact Hok|]. intros x. by apply slot_ok_extends.
      * by eapply originals_of_extends.
      * done.
      * exists h3, (next_ref h :: added'), removed'. split_and!.
        -- rewrite Hfold. by rewrite <- app_assoc.
        -- by eapply extends_trans.
        -- cbn [note_keys map]. fold (note_keys h3 added'). rewrite Ha. f_equal.
           destruct He3 as [_ Ho3]. rewrite Ho3 by lia. rewrite Hnew.
           unfold note_key in *. cbn. done.
        -- done.
    + (* switched off *)
      rewrite decide_False by (intros [? _]; done). rewrite decide_True by done.
      destruct Horig as (Hal & Hvo & Hkeys).
      pose proof (find_original h0 h (py_round (slot_time sl) 3) selected
                    (_original_notes pe) Hkeys) as Hfo.
      destruct (Hf eq_refl) as [n Hn]. pose proof Hn as Hn'.
      unfold slot_original in Hn'. rewrite Hn' in Hfo.
      destruct (find _ (_original_notes pe)) as [o|] eqn:Hfind; [|done].
      destruct Hfo as [Hin Hkey].
      assert (Hv : valid_note (deref h o)).
      { unfold valid_notes in Hvo. rewrite Forall_forall in Hvo. by apply Hvo. }
      destruct (copy_note_valid h o Hv) as (h1 & c & Hc). rewrite Hc.
      cbn [mbind option_bind].
      apply copy_note_Some in Hc as (_ & -> & Hnext & Hnew & Hold).
      assert (He : extends h h1) by (split; [lia | done]).
      destruct (IH h1 added (removed ++ [next_ref h]) Hlv Hlane) as
        (h3 & added' & removed' & Hfold & He3 & Ha & Hrm).
      * eapply Forall_impl; [exact Hok|]. intros x. by apply slot_ok_extends.
      * by apply (originals_of_extends h0 selected h h1).
      * done.
      * exists h3, added', (next_ref h :: removed'). split_and!.
        -- rewrite Hfold. by rewrite <- app_assoc.
        -- by eapply extends_trans.
        -- done.
        -- cbn [omap list_omap]. rewrite Hn. cbn [fmap option_fmap option_map].
           cbn [note_keys map]. fold (note_keys h3 removed'). rewrite Hrm. f_equal.
           destruct He3 as [_ Ho3]. rewrite Ho3 by lia. rewrite Hnew.
           rewrite <- Hkey. done.
    + (* no marker *)
      rewrite decide_False by (intros [? _]; done).
      rewrite decide_False by (intros [_ ?]; done).
      by apply IH.
Qed.

Lemma find_ext_in {A} (p q : A → bool) (l : list A) :
  (∀ x, x ∈ l → p x = q x) → find p l = find q l.
Proof.
  induction l as [|x l IH]; intros He; [done|]. cbn [find].
  rewrite (He x) by apply list_elem_of_here.
  rewrite IH; [done|]. intros y Hy. by apply He, list_elem_of_further.
Qed.

Lemma opened_slots_ext h h' selected grid_times :
  (∀ n, n ∈ selected → deref h' n = deref h n) →
  opened_slots h' selected grid_times = opened_slots h selected grid_times.
Proof.
  intros He. unfold opened_slots. apply map_ext. intros g. cbn zeta.
  assert (Hm : map (λ n, py_round (time (deref h' n)) 3) selected
               = map (λ n, py_round (time (deref h n)) 3) selected).
  { apply map_ext_in. intros n Hn%list_elem_of_In. by rewrite He. }
  rewrite Hm. f_equal. apply find_ext_in. intros n Hn. by rewrite He.
Qed.

(** The slots as [open] builds them. *)
Lemma opened_slots_spec h selected grid_times :
  Forall (λ sl,
            has_marker sl = original_marker sl
            ∧ (has_marker sl = true ↔ is_Some (slot_note sl))
            ∧ (∀ n, slot_note sl = Some n →
                    n ∈ selected ∧ py_round (time (deref h n)) 3 = slot_time sl)
            ∧ py_round (slot_time sl) 3 = slot_time sl
            ∧ (original_marker sl = true → is_Some (slot_original h selected sl)))
         (opened_slots h selected grid_times).
Proof.
  unfold opened_slots. apply Forall_fmap, Forall_forall. intros g _.
  cbn [has_marker original_marker slot_note slot_time compose].
  assert (Hiff : bool_decide (py_round g 3
                              ∈ map (λ n, py_round (time (deref h n)) 3) selected) = true
                 ↔ is_Some (find (λ n, bool_decide (py_round (time (deref h n)) 3
                                                    = py_round g 3)) selected)).
  { rewrite bool_decide_eq_true. split.
    - intros Hin. apply list_elem_of_fmap in Hin as (n & Hn & Hin).
      destruct (find _ selected) as [m|] eqn:Hf; [done|].
      exfalso. apply list_elem_of_In in Hin.
      apply (List.find_none _ _ Hf) in Hin. apply bool_decide_eq_false in Hin. done.
    - intros [m Hf]. apply List.find_some in Hf as [Hin Hm].
      apply bool_decide_eq_true in Hm. rewrite <- Hm.
      apply (list_elem_of_fmap_2 (λ n, py_round (time (deref h n)) 3)).
      by apply list_elem_of_In. }
  split_and!; [done | exact Hiff | | apply py_round_idempotent |].
  - intros n Hf. apply List.find_some in Hf as [Hin Hm].
    apply bool_decide_eq_true in Hm. split; [by apply list_elem_of_In | done].
  - intros Hm. unfold slot_original. cbn [slot_time].
    rewrite py_round_idempotent. by apply Hiff.
Qed.

Lemma copy_notes_originals h selected h1 originals :
  allocated h selected →
  copy_notes h selected = Some (h1, originals) →
  extends h h1 ∧ originals_of h selected h1 originals ∧ valid_notes h selected.
Proof.
  intros Hal Hc.
  pose proof (copy_notes_valid selected h Hal) as Hv.
  destruct (decide (valid_notes h selected)) as [Hvalid|]; [|congruence].
  destruct (copy_notes_spec selected h h1 originals Hal Hc)
    as (Hkeys & Hnext & Hold & Hseq & Hnext' & _).
  assert (Hk2 : Forall2 (λ n o, note_key (deref h1 o) = note_key (deref h n))
                  selected originals).
  { unfold note_keys in Hkeys. clear -Hkeys. revert originals Hkeys.
    induction selected as [|n sel IH]; intros [|o origs] Hk; try discriminate;
      constructor.
    - cbn [map] in Hk. congruence.
    - apply IH. cbn [map] in Hk. congruence. }
  split; [by split|]. split; [|done]. split; [|split].
  - unfold allocated. rewrite Hseq. apply Forall_forall.
    intros o Ho%elem_of_seq. lia.
  - unfold valid_notes in *. clear -Hk2 Hvalid.
    induction Hk2 as [|n o sel origs Hno Hk IH]; constructor.
    + apply Forall_cons in Hvalid as [Hv _]. by apply (valid_note_key _ _ Hno).
    + apply Forall_cons in Hvalid as [_ Hv]. by apply IH.
  - exact Hk2.
Qed.

(** [open] on a selection of one lane whose notes can be copied. *)
Lemma open_spec h pe0 first rest grid_times :
  len (remove_dups (map (λ n, type (deref h n)) (first :: rest))) = 1%Z →
  allocated h (first :: rest) →
  valid_notes h (first :: rest) →
  ∃ h1 pe,
    open h pe0 (first :: rest) grid_times = Some (h1, pe, bool_decide (grid_times ≠ []))
    ∧ extends h h1
    ∧ pattern_slots pe = opened_slots h (first :: rest) grid_times
    ∧ pe_lane_type pe = Some (type (deref h first))
    ∧ pe_level pe = level (deref h first)
    ∧ originals_of h (first :: rest) h1 (_original_notes pe)
    ∧ _grid_step pe = match sorted_Qc grid_times with
                      | g0 :: g1 :: _ => py_round (g1 - g0) 6
                      | _ => 0
                      end
    ∧ on_apply pe = on_apply pe0.
Proof.
  intros Hlane Hal Hv. unfold open.
  rewrite (bool_decide_true _ Hlane). cbn [negb]. cbv iota.
  pose proof (copy_notes_valid _ _ Hal) as Hc. rewrite decide_True in Hc by done.
  destruct Hc as (h1 & originals & Hc). rewrite Hc. cbn [mbind option_bind].
  destruct (copy_notes_originals _ _ _ _ Hal Hc) as (He & Horig & _).
  fold (opened_slots h1 (first :: rest) grid_times).
  assert (Hext : opened_slots h1 (first :: rest) grid_times
                 = opened_slots h (first :: rest) grid_times).
  { apply opened_slots_ext. intros n Hn. destruct He as [_ Ho]. apply Ho.
    unfold allocated in Hal. rewrite Forall_forall in Hal. by apply Hal. }
  rewrite Hext.
  assert (Hlen : length (opened_slots h (first :: rest) grid_times) = length grid_times).
  { unfold opened_slots. by rewrite length_map, sorted_Qc_perm. }
  destruct (opened_slots h (first :: rest) grid_times) as [|sl slots] eqn:Hs;
    destruct grid_times as [|g gs]; try discriminate;
    eexists h1, _; (split; [reflexivity|]);
    cbn [pattern_slots pe_lane_type pe_level _original_notes _grid_step on_apply];
    split_and!; done.
Qed.



Lemma slot_original_same h selected sl sl' :
  same_slot sl sl' → slot_original h selected sl' = slot_original h selected sl.
Proof. intros [Ht _]. unfold slot_original. by rewrite Ht. Qed.

(** An edit in the pattern editor: the editor is opened on a selection of
    one lane whose notes are valid, slots are clicked, and the edit is applied
    to the selection.  The apply reports copies of the notes of the slots
    switched on and of the selected notes of the slots switched off, and
    leaves the beatmap as the live preview left it. *)
Lemma edit_apply_spec h pe0 selected grid_times b idxs :
  selected ≠ [] →
  len (remove_dups (map (λ n, type (deref h n)) selected)) = 1%Z →
  allocated h selected →
  valid_notes h selected →
  ∃ h1 pe1 h2 b2 pe2 h3 added removed,
    open h pe0 selected grid_times = Some (h1, pe1, bool_decide (grid_times ≠ []))
    ∧ toggle_slots idxs (h1, b, pe1) = Some (h2, b2, pe2)
    ∧ _grid_step pe2 = match sorted_Qc grid_times with
                       | g0 :: g1 :: _ => py_round (g1 - g0) 6
                       | _ => 0
                       end
    ∧ length (pattern_slots pe2) = length grid_times
    ∧ _on_apply h2 b2 pe2
      = Some (h3, b2, _close pe2,
              if on_apply pe0 then Some (OnApply added removed) else None)
    ∧ note_keys h3 added = added_keys pe2
    ∧ note_keys h3 removed = removed_keys h selected pe2
    ∧ extends h h3.
Proof.
  intros Hsel Hlane Hal Hv. destruct selected as [|first rest]; [done|].
  destruct (open_spec h pe0 first rest grid_times Hlane Hal Hv)
    as (h1 & pe1 & Hopen & He1 & Hslots & Hty & Hlv & Horig & Hstep & Hon).
  pose proof (opened_slots_spec h (first :: rest) grid_times) as Hspec.
  rewrite <- Hslots in Hspec.
  assert (Hfirst : valid_note (deref h first)) by (by apply Forall_cons in Hv as [? _]).
  assert (Hlvl : pe_level pe1 ∈ [1; 2; 3]%Z) by (rewrite Hlv; apply Hfirst).
  assert (Hln : type (deref h first) ∈ LANES) by apply Hfirst.
  assert (Hok1 : Forall (slot_ok h1 (pe_level pe1) (type (deref h first))) (pattern_slots pe1)).
  { eapply Forall_impl; [exact Hspec|]. intros sl (Heq & Hiff & _). split.
    - intros Hm. destruct (slot_note sl) eqn:E; [|done].
      assert (has_marker sl = true) by (apply Hiff; by eexists). congruence.
    - intros Hm Ho. congruence. }
  destruct (toggles_spec idxs _ _ h1 b pe1 Hlvl Hln eq_refl Hty Hok1)
    as (h2 & b2 & slots2 & Htog & He2 & Hsame & Hok2).
  assert (Horig2 : originals_of h (first :: rest) h2 (_original_notes (set_slots pe1 slots2))).
  { cbn [set_slots _original_notes]. by eapply originals_of_extends. }
  assert (Hfound : Forall (λ sl, original_marker sl = true
                                 → is_Some (slot_original h (first :: rest) sl)) slots2).
  { eapply Forall2_Forall_r; [exact Hsame|]. eapply Forall_impl; [exact Hspec|].
    intros sl (_ & _ & _ & _ & Hf) sl' Hs Ho.
    rewrite (slot_original_same _ _ _ _ Hs). apply Hf. destruct Hs as [_ Hs]. congruence. }
  destruct (collect_spec (set_slots pe1 slots2) _ _ h (first :: rest) slots2 h2 [] []
              Hlvl Hln Hok2 Horig2 Hfound)
    as (h3 & added & removed & Hcol & He3 & Hadd & Hrem).
  exists h1, pe1, h2, b2, (set_slots pe1 slots2), h3, added, removed.
  split_and!.
  - exact Hopen.
  - exact Htog.
  - exact Hstep.
  - cbn [set_slots pattern_slots]. rewrite <- (Forall2_length _ _ _ Hsame), Hslots.
    unfold opened_slots. by rewrite length_map, sorted_Qc_perm.
  - unfold _on_apply, collect_changes. cbn [set_slots pattern_slots] in *.
    rewrite Hcol. cbn [mbind option_bind app].
    change (on_apply (set_slots pe1 slots2)) with (on_apply pe1). by rewrite Hon.
  - rewrite Hadd. unfold added_keys, switched_on. cbn [set_slots pattern_slots pe_level pe_lane_type].
    by rewrite Hty.
  - rewrite Hrem. reflexivity.
  - eapply extends_trans; [exact He1|]. eapply extends_trans; [exact He2|exact He3].
Qed.

(** C9: the pattern editor is opened on a selection of one lane whose notes
    are valid, over zero or one grid time; slots are clicked and apply-to-all is
    chosen.  The editor has derived no grid step, and apply-to-all is the plain
    apply: it reports, through [on_apply], copies of the notes of the slots
    switched on and of the selected notes of the slots switched off, it leaves
    the beatmap as the live preview left it, so no other occurrence is
    searched or edited, and it never calls [on_apply_to_all] with a match
    count. *)
Theorem apply_to_all_falls_back (h : Heap) (pe0 : PatternEditor) (selected : list ref)
    (grid_times : list Qc) (b : Beatmap) (idxs : list nat) :
  selected ≠ [] →
  len (remove_dups (map (λ n, type (deref h n)) selected)) = 1%Z →
  allocated h selected →
  valid_notes h selected →
  (length grid_times ≤ 1)%nat →
  ∃ h1 pe1 h2 b2 pe2 h3 added removed,
    open h pe0 selected grid_times = Some (h1, pe1, bool_decide (grid_times ≠ []))
    ∧ toggle_slots idxs (h1, b, pe1) = Some (h2, b2, pe2)
    ∧ length (pattern_slots pe2) = length grid_times
    ∧ _grid_step pe2 = 0
    ∧ _on_apply_to_all h2 b2 pe2 = _on_apply h2 b2 pe2
    ∧ _on_apply_to_all h2 b2 pe2
      = Some (h3, b2, _close pe2,
              if on_apply pe0 then Some (OnApply added removed) else None)
    ∧ note_keys h3 added = added_keys pe2
    ∧ note_keys h3 removed = removed_keys h selected pe2
    ∧ extends h h3.
Proof.
  intros Hsel Hlane Hal Hv Hgrid.
  destruct (edit_apply_spec h pe0 selected grid_times b idxs Hsel Hlane Hal Hv)
    as (h1 & pe1 & h2 & b2 & pe2 & h3 & added & removed
        & Hopen & Htog & Hstep & Hlen & Happ & Hadd & Hrem & He).
  assert (Hstep0 : _grid_step pe2 = 0).
  { rewrite Hstep.
    pose proof (Permutation_length (sorted_Qc_perm grid_times)) as Hl.
    destruct (sorted_Qc grid_times) as [|g0 [|g1 gs]]; [done | done |].
    cbn [length] in Hl. lia. }
  assert (Hfall : _on_apply_to_all h2 b2 pe2 = _on_apply h2 b2 pe2).
  { unfold _on_apply_to_all. cbn zeta. rewrite Hstep0.
    rewrite (bool_decide_true (0 ≤ 0)) by done. by rewrite orb_true_r. }
  exists h1, pe1, h2, b2, pe2, h3, added, removed.
  split_and!; try done. by rewrite Hfall.
Qed.

Lemma apply_to_all_falls_back_witness :
  _notes (beatmap two_notes_session) ≠ []
  ∧ (length [(1 : Qc)] ≤ 1)%nat
  ∧ ∃ h1 pe1 h2 b2 pe2 h3 added removed,
      open (heap two_notes_session) PatternEditor_new
           (_notes (beatmap two_notes_session)) [1]
      = Some (h1, pe1, true)
      ∧ toggle_slots [0%nat] (h1, beatmap two_notes_session, pe1) = Some (h2, b2, pe2)
      ∧ _on_apply_to_all h2 b2 pe2 = Some (h3, b2, _close pe2, None)
      ∧ note_keys h3 added = added_keys pe2
      ∧ note_keys h3 removed = removed_keys (heap two_notes_session)
                                 (_notes (beatmap two_notes_session)) pe2.
Proof.
  assert (H1 : _notes (beatmap two_notes_session) ≠ []) by by_computation.
  assert (H2 : len (remove_dups (map (λ n, type (deref (heap two_notes_session) n))
                                   (_notes (beatmap two_notes_session)))) = 1%Z)
    by by_computation.
  assert (H3 : allocated (heap two_notes_session) (_notes (beatmap two_notes_session)))
    by by_computation.
  assert (H4 : valid_notes (heap two_notes_session) (_notes (beatmap two_notes_session)))
    by by_computation.
  assert (H5 : (length [(1 : Qc)] ≤ 1)%nat) by (cbn; lia).
  destruct (apply_to_all_falls_back (heap two_notes_session) PatternEditor_new
              (_notes (beatmap two_notes_session)) [1] (beatmap two_notes_session)
              [0%nat] H1 H2 H3 H4 H5)
    as (h1 & pe1 & h2 & b2 & pe2 & h3 & added & removed
        & Ho & Ht & _ & _ & _ & Ha & Hadd & Hrem & _).
  split; [exact H1|]. split; [exact H5|].
  exists h1, pe1, h2, b2, pe2, h3, added, removed.
  split_and!; [exact Ho | exact Ht | exact Ha | exact Hadd | exact Hrem].
Defined.

(** The same edit by evaluation: the one slot of the editor, at 1 s, holds
    the marker of the two selected notes; once it is switched off,
    apply-to-all reports nothing added and the first selected note removed,
    through [on_apply], and edits nothing else. *)
Example apply_to_all_one_slot :
  (let pe0 := mkPatternEditor [] [] None 1 [] "" 0 false true true true in
   '(h1, pe1, _) ← open (heap two_notes_session) pe0
                     (_notes (beatmap two_notes_session)) [1];
   '(h2, b2, pe2) ← toggle_slots [0%nat] (h1, beatmap two_notes_session, pe1);
   '(h3, b3, _, cb) ← _on_apply_to_all h2 b2 pe2;
   Some (bool_decide (_notes b3 = _notes b2),
         match cb with
         | Some (OnApply added removed) => Some (note_keys h3 added, note_keys h3 removed)
         | _ => None
         end))
  = Some (true, Some ([], [(1, 2%Z, "base"%string)])).
Proof. vm_compute. reflexivity. Qed.


